(** * Audio feature pre-processing: a shallow embedding of
      [pre_process_1.py] and [pre_process_2.py]

    The two scripts turn a directory of [.wav] clips into feature images.
    Their numeric work is delegated to numpy and librosa; what the scripts
    themselves contribute is the glue: pre-emphasis, the construction of the
    polynomial handed to the root finder, the three guards of [compute_lsf],
    the min/max normalisation of the CQCC array, the filtering of the
    fundamental period, and the two directory loops.

    The embedding follows that split.

    - Array elements live in a type [F] described by the interface [Dtype]:
      the arithmetic and comparisons numpy applies elementwise.  Its IEEE-754
      instance [ieee prec emax] is built on the executable specification of
      binary floating point of the Standard Library ([spec_float], round to
      nearest even), so [binary32] is numpy's float32 and [binary64] its
      float64.
    - Every call that leaves the scripts (numpy's root finder, librosa, the
      file system, matplotlib) is a field of the interface [Lib].  The
      embedding is parametric in it; concrete runs use the recorded answers
      of [Run.lib].  Where [librosa.lpc] and [np.roots] raise is a second
      interface, [Raises]; [Raising.compute_lsf] is [compute_lsf] with
      their exceptions.
    - Python's effects are a writer of observable events (every external
      call and every [print], in program order) over a result that is either
      a value or a raised exception. *)

From Stdlib Require Import ZArith Bool String Ascii Lia List.
From Stdlib Require Import Sorting.Sorted Sorting.Permutation.
From Stdlib Require Import Floats.SpecFloat.
Import ListNotations.

Set Implicit Arguments.

(** ** Array elements *)

(** The scalar operations the scripts apply to array elements, with the
    Python literals they use ([0], [1], [0.5], [1e-6]). *)
Class Dtype (F : Type) : Type := {
  zero : F;
  one : F;
  half : F;
  micro : F;
  negative : F -> F;
  add : F -> F -> F;
  subtract : F -> F -> F;
  multiply : F -> F -> F;
  divide : F -> F -> F;
  equal : F -> F -> bool;
  less : F -> F -> bool;
  less_equal : F -> F -> bool;
  isnan : F -> bool;
  isinf : F -> bool;
  (* the values of [F] that an array of the dtype stores *)
  valid : F -> bool
}.

(** [np.isfinite] *)
Definition isfinite {F} `{Dtype F} (x : F) : bool :=
  negb (isnan x) && negb (isinf x).

(** A complex array element, as numpy stores it: real and imaginary part. *)
Definition complex (F : Type) : Type := (F * F)%type.

(** [np.isinf] and [np.isnan] on a complex element look at both parts. *)
Definition cisinf {F} `{Dtype F} (z : complex F) : bool :=
  isinf (fst z) || isinf (snd z).

Definition cisnan {F} `{Dtype F} (z : complex F) : bool :=
  isnan (fst z) || isnan (snd z).

(** [np.isfinite] on a complex element: both parts are finite. *)
Definition cisfinite {F} `{Dtype F} (z : complex F) : bool :=
  isfinite (fst z) && isfinite (snd z).

(** *** IEEE-754 binary formats *)

Module IEEE.

Definition is_nan (x : spec_float) : bool :=
  match x with S754_nan => true | _ => false end.

Definition is_inf (x : spec_float) : bool :=
  match x with S754_infinity _ => true | _ => false end.

Definition is_finite (x : spec_float) : bool :=
  match x with S754_zero _ | S754_finite _ _ _ => true | _ => false end.

Definition is_zero (x : spec_float) : bool :=
  match x with S754_zero _ => true | _ => false end.

(** Strictly positive, [+inf] included. *)
Definition is_pos (x : spec_float) : bool :=
  match x with
  | S754_finite false _ _ | S754_infinity false => true
  | _ => false
  end.

(** A shift record that has lost no bit: round and sticky bit are clear. *)
Definition lossless (mrs : shr_record) : Prop :=
  shr_r mrs = false /\ shr_s mrs = false.

Section Format.
Variables prec emax : Z.

(** A finite float of the format: [spec_float] also has mantissas that are
    not normalised and exponents out of range, which no array stores. *)
Definition regular (x : spec_float) : bool :=
  valid_binary prec emax x && is_finite x.

(** The value of a finite float, in units of the smallest positive float
    of the format, [2^emin]. *)
Definition scaled (m : positive) (e : Z) : Z :=
  (Zpos m * 2 ^ (e - emin prec emax))%Z.

Definition value (x : spec_float) : Z :=
  match x with
  | S754_finite s m e => cond_Zopp s (scaled m e)
  | _ => 0%Z
  end.

(** An integer literal, rounded to the format. *)
Definition of_Z (n : Z) : spec_float := binary_normalize prec emax n 0 false.

Definition ieee : Dtype spec_float := {|
  zero := S754_zero false;
  one := of_Z 1;
  half := SFdiv prec emax (of_Z 1) (of_Z 2);
  micro := SFdiv prec emax (of_Z 1) (of_Z 1000000);
  negative := SFopp;
  add := SFadd prec emax;
  subtract := SFsub prec emax;
  multiply := SFmul prec emax;
  divide := SFdiv prec emax;
  equal := SFeqb;
  less := SFltb;
  less_equal := SFleb;
  isnan := is_nan;
  isinf := is_inf;
  valid := valid_binary prec emax
|}.
End Format.

Definition binary32 : Dtype spec_float := ieee 24 128.
Definition binary64 : Dtype spec_float := ieee 53 1024.

(** A dyadic literal [m * 2^e], rounded to the format. *)
Definition lit32 (m e : Z) : spec_float := binary_normalize 24 128 m e false.
Definition lit64 (m e : Z) : spec_float := binary_normalize 53 1024 m e false.

End IEEE.

(** ** Python effects *)

(** The exceptions the embedding can raise.  All of them are subclasses of
    Python's [Exception]; the payload is the message [str(e)] shows. *)
Inductive exn : Type :=
| IndexError (msg : string)
| ValueError (msg : string)
| LibraryError (msg : string).

Definition exn_str (e : exn) : string :=
  match e with
  | IndexError m | ValueError m | LibraryError m => m
  end.

Inductive result (A : Type) : Type :=
| Ok (a : A)
| Raise (e : exn).

Arguments Ok {A} a.
Arguments Raise {A} e.

Definition is_ok {A} (r : result A) : bool :=
  match r with Ok _ => true | Raise _ => false end.

(** A two-dimensional array, as the list of its rows. *)
Definition matrix (F : Type) : Type := list (list F).

(** What a run does that can be seen from outside: the calls that leave the
    script, with their arguments, and the lines it prints. *)
Inductive event (F : Type) : Type :=
| Stdout (line : string)
| OsMakedirs (path : string)
| OsListdir (path : string)
| LibrosaLoad (path : string)
| LibrosaLpc (y : list F) (order : nat)
| NpRoots (p : list F)
| LibrosaMfcc (y : list F) (sr : Z) (n_mfcc : nat)
| LibrosaMfccS (S : matrix F) (n_mfcc : nat)
| LibrosaCqt (y : list F) (sr : Z) (n_bins hop_length : nat)
| LibrosaMelspectrogram (y : list F) (sr : Z)
| LibrosaPiptrack (y : list F) (sr : Z)
| LibrosaSpectralCentroid (y : list F) (sr : Z)
| LibrosaSpectralContrast (y : list F) (sr : Z)
| PltImshow (image : matrix F)
| PltHist (data : list F)
| PltSavefig (path : string).

Arguments Stdout {F} line.
Arguments OsMakedirs {F} path.
Arguments OsListdir {F} path.
Arguments LibrosaLoad {F} path.
Arguments PltSavefig {F} path.

Section Effects.
Context {F : Type}.

(** A computation: the events it produced, and its value or the exception
    that ended it. *)
Definition M (A : Type) : Type := (list (event F) * result A)%type.

Definition ret {A} (a : A) : M A := ([], Ok a).

Definition bind {A B} (m : M A) (k : A -> M B) : M B :=
  match snd m with
  | Ok a => (fst m ++ fst (k a), snd (k a))
  | Raise e => (fst m, Raise e)
  end.

Definition raise {A} (e : exn) : M A := ([], Raise e).

Definition lift {A} (r : result A) : M A := ([], r).

Definition emit (ev : event F) : M unit := ([ev], Ok tt).

(** An external call that cannot fail: the call is recorded, the library
    answers. *)
Definition call {A} (ev : event F) (answer : A) : M A := ([ev], Ok answer).

(** An external call that may raise. *)
Definition call_fallible {A} (ev : event F) (answer : result A) : M A :=
  ([ev], answer).

Definition print (line : string) : M unit := emit (Stdout line).

(** [try: body except Exception as e: handler(e)] *)
Definition try_except {A} (body : M A) (handler : exn -> M A) : M A :=
  match snd body with
  | Ok a => body
  | Raise e => (fst body ++ fst (handler e), snd (handler e))
  end.

(** [for x in l: body(x)]; an exception raised by the body leaves the loop. *)
Fixpoint for_each {A} (l : list A) (body : A -> M unit) : M unit :=
  match l with
  | [] => ret tt
  | x :: xs => bind (body x) (fun _ => for_each xs body)
  end.

Definition trace {A} (m : M A) : list (event F) := fst m.
Definition outcome {A} (m : M A) : result A := snd m.
End Effects.

Declare Scope py_scope.
Delimit Scope py_scope with py.
Notation "x <- m ;; k" := (bind m (fun x => k))
  (at level 61, m at next level, right associativity) : py_scope.
Notation "m ;; k" := (bind m (fun _ => k))
  (at level 61, right associativity) : py_scope.
Open Scope py_scope.
Open Scope string_scope.
Open Scope list_scope.

(** ** The libraries *)

(** What [librosa.piptrack] returns: two arrays of one shape
    [(bins, frames)], indexed [bin] then [frame]. *)
Record piptrack_result (F : Type) : Type := {
  pt_bins : nat;
  pt_frames : nat;
  pt_pitches : nat -> nat -> F;
  pt_magnitudes : nat -> nat -> F
}.

(** Every function the scripts import, as the scripts call it. *)
Class Lib (F : Type) : Type := {
  np_pi : F;
  np_abs : complex F -> F;
  np_angle : complex F -> F;
  np_log : F -> F;
  np_roots : list F -> list (complex F);
  librosa_load : string -> result (list F * Z);
  librosa_lpc : list F -> nat -> list F;
  librosa_mfcc : list F -> Z -> nat -> matrix F;
  librosa_mfcc_S : matrix F -> nat -> matrix F;
  librosa_cqt : list F -> Z -> nat -> nat -> matrix (complex F);
  librosa_melspectrogram : list F -> Z -> matrix F;
  librosa_piptrack : list F -> Z -> piptrack_result F;
  librosa_spectral_centroid : list F -> Z -> matrix F;
  librosa_spectral_contrast : list F -> Z -> matrix F;
  os_listdir : string -> list string;
  os_path_exists : string -> bool;
  os_path_join : string -> string -> string;
  os_path_splitext : string -> string * string;
  plt_savefig : string -> result unit
}.

(** [str.endswith] *)
Definition endswith (s suffix : string) : bool :=
  let n := String.length s in
  let k := String.length suffix in
  (k <=? n)%nat && String.eqb (substring (n - k) k s) suffix.

(** ** numpy's reductions and sort on a float array *)

Module Numpy.
Section Reductions.
Context {F : Type} `{Dtype F}.

(** [np.minimum.reduce] over a flat array; NaN propagates.  Of two
    entries that compare equal, which [+0.0] and [-0.0] do, the reduction
    keeps the later one. *)
Definition minimum (acc x : F) : F :=
  if less acc x || isnan acc then acc else x.

Definition maximum (acc x : F) : F :=
  if less x acc || isnan acc then acc else x.

Definition min_flat (l : list F) : result F :=
  match l with
  | [] => Raise (ValueError
      "zero-size array to reduction operation minimum which has no identity")
  | x :: xs => Ok (fold_left minimum xs x)
  end.

Definition max_flat (l : list F) : result F :=
  match l with
  | [] => Raise (ValueError
      "zero-size array to reduction operation maximum which has no identity")
  | x :: xs => Ok (fold_left maximum xs x)
  end.

(** [np.min(a)] and [np.max(a)] of a 2-D array reduce over all of it. *)
Definition min2 (a : matrix F) : result F := min_flat (concat a).
Definition max2 (a : matrix F) : result F := max_flat (concat a).

(** [np.argmax] of a 1-D float array: the first maximal entry, a NaN
    counting as maximal. *)
Fixpoint argmax_from (mp : F) (best i : nat) (l : list F) : nat :=
  match l with
  | [] => best
  | x :: xs =>
      if less_equal x mp then argmax_from mp best (S i) xs
      else if isnan x then i
      else argmax_from x i (S i) xs
  end.

Definition argmax_nonempty (x : F) (xs : list F) : nat :=
  if isnan x then 0 else argmax_from x 0 1 xs.

Definition argmax (l : list F) : result nat :=
  match l with
  | [] => Raise (ValueError "attempt to get argmax of an empty sequence")
  | x :: xs => Ok (argmax_nonempty x xs)
  end.

(** The order [np.sort] uses on floats: [<], with NaN after everything. *)
Definition sort_lt (a b : F) : bool :=
  less a b || (isnan b && negb (isnan a)).

Fixpoint sort_insert (x : F) (l : list F) : list F :=
  match l with
  | [] => [x]
  | y :: ys => if sort_lt y x then y :: sort_insert x ys else x :: l
  end.

(** [np.sort] of a 1-D array, as the insertion sort for [sort_lt]. *)
Definition sort (l : list F) : list F := fold_right sort_insert [] l.

(** An array without NaN. *)
Definition numbers (l : list F) : Prop := Forall (fun v => isnan v = false) l.

(** Ascending order, as [<=] on array elements. *)
Definition ascending : list F -> Prop :=
  Sorted (fun a b : F => less_equal a b = true).
End Reductions.
End Numpy.

(** ** [pre_process_2.py] *)

Module PreProcess2.
Section Script.
Context {F : Type} {D : Dtype F} {L : Lib F}.

(** [np.append(audio_data[0], audio_data[1:] - coeff * audio_data[:-1])].
    Indexing an empty array raises [IndexError]. *)
Definition pre_emphasis (audio_data : list F) (coeff : F) : result (list F) :=
  match audio_data with
  | [] => Raise (IndexError "index 0 is out of bounds for axis 0 with size 0")
  | x0 :: _ =>
      Ok (x0 :: map (fun ab => subtract (fst ab) (multiply coeff (snd ab)))
                    (combine (skipn 1 audio_data)
                             (firstn (length audio_data - 1) audio_data)))
  end.

(** The defaults of the signatures. *)
Definition default_coeff : F := half.
Definition default_order : nat := 10.

(** [p = np.append(1, -lpc_coeffs)] *)
Definition polynomial (lpc_coeffs : list F) : list F :=
  one :: map negative lpc_coeffs.

(** [roots[np.abs(roots) < 1]] *)
Definition stable (roots : list (complex F)) : list (complex F) :=
  filter (fun r => less (np_abs r) one) roots.

(** [np.any(np.isinf(p)) or np.any(np.isnan(p))] *)
Definition degenerate_model (p : list F) : bool :=
  existsb isinf p || existsb isnan p.

(** [np.any(np.isinf(roots)) or np.any(np.isnan(roots))] *)
Definition degenerate_roots (roots : list (complex F)) : bool :=
  existsb cisinf roots || existsb cisnan roots.

(** [len(stable_roots) == 0] *)
Definition no_stable_roots (roots : list (complex F)) : bool :=
  (length (stable roots) =? 0)%nat.

Definition warn_polynomial : string :=
  "Warning: LPC polynomial contains inf or NaN values.".
Definition warn_roots : string :=
  "Warning: LPC roots contain inf or NaN values.".

(** The result is the column [np.sort(lsf)[:, np.newaxis]], written as
    the list of its entries; [np.array([])] is the empty list.  This is
    the run in which [librosa.lpc] and [np.roots] return;
    [Raising.compute_lsf] below adds the runs in which they raise. *)
Definition compute_lsf (audio_data : list F) (sample_rate : Z) (order : nat)
  : M (list F) :=
  lpc_coeffs <- call (LibrosaLpc audio_data 12) (librosa_lpc audio_data 12) ;;
  let p := polynomial lpc_coeffs in
  if degenerate_model p then
    print warn_polynomial ;;
    ret []
  else
    roots <- call (NpRoots p) (np_roots p) ;;
    if degenerate_roots roots then
      print warn_roots ;;
      ret []
    else
      let stable_roots := stable roots in
      if no_stable_roots roots then ret []
      else
        let lsf := map np_angle stable_roots in
        ret (Numpy.sort lsf).

Definition compute_mfcc (audio_data : list F) (sample_rate : Z) (n_mfcc : nat)
  : M (matrix F) :=
  call (LibrosaMfcc audio_data sample_rate n_mfcc)
       (librosa_mfcc audio_data sample_rate n_mfcc).

(** [lpc_coeffs[:, np.newaxis]]: one row per coefficient. *)
Definition compute_lpc (audio_data : list F) : M (matrix F) :=
  lpc_coeffs <- call (LibrosaLpc audio_data 12) (librosa_lpc audio_data 12) ;;
  ret (map (fun c => [c]) lpc_coeffs).

(** [cqcc -= np.min(cqcc); cqcc /= np.max(cqcc)] *)
Definition normalize (cqcc : matrix F) : result (matrix F) :=
  match Numpy.min2 cqcc with
  | Raise e => Raise e
  | Ok lo =>
      let shifted := map (map (fun x => subtract x lo)) cqcc in
      match Numpy.max2 shifted with
      | Raise e => Raise e
      | Ok hi => Ok (map (map (fun x => divide x hi)) shifted)
      end
  end.

(** [np.log(np.abs(cqt) + 1e-6)] *)
Definition log_magnitude (cqt : matrix (complex F)) : matrix F :=
  let magnitude := map (map np_abs) cqt in
  map (map (fun m => np_log (add m micro))) magnitude.

Definition compute_cqcc (audio_data : list F)
  (sample_rate : Z) (n_bands n_coeffs hop_length : nat) : M (matrix F) :=
  cqt <- call (LibrosaCqt audio_data sample_rate n_bands hop_length)
              (librosa_cqt audio_data sample_rate n_bands hop_length) ;;
  cqcc <- call (LibrosaMfccS (log_magnitude cqt) n_coeffs)
               (librosa_mfcc_S (log_magnitude cqt) n_coeffs) ;;
  lift (normalize cqcc).

Definition features : Type := (list F * matrix F * matrix F * matrix F)%type.

Definition warn_audio (file_path : string) : string :=
  ("Warning: Pre-emphasized audio contains NaN or inf values for "
     ++ file_path ++ ".")%string.
Definition warn_lsf (file_path : string) : string :=
  ("Warning: LSF computation failed for " ++ file_path ++ ".")%string.

(** [None] is Python's [None]. *)
Definition process_audio (file_path : string) (hop_length win_length : nat)
  : M (option features) :=
  loaded <- call_fallible (LibrosaLoad file_path) (librosa_load file_path) ;;
  let audio_data := fst loaded in
  let sample_rate := snd loaded in
  pre_emphasized_audio <- lift (pre_emphasis audio_data default_coeff) ;;
  if existsb isnan pre_emphasized_audio || existsb isinf pre_emphasized_audio
  then
    print (warn_audio file_path) ;;
    ret None
  else
    lsf_result <- compute_lsf pre_emphasized_audio sample_rate default_order ;;
    if (length lsf_result =? 0)%nat then
      print (warn_lsf file_path) ;;
      ret None
    else
      mfccs <- compute_mfcc pre_emphasized_audio sample_rate 1 ;;
      lpc <- compute_lpc pre_emphasized_audio ;;
      cqcc_features <- compute_cqcc audio_data sample_rate 6 6 2048 ;;
      ret (Some (lsf_result, mfccs, lpc, cqcc_features)).

(** Two panels, [lsf_result.T] and [lpc], then [plt.savefig]. *)
Definition save_spectrograms (lsf_result : list F) (mfccs lpc cqcc : matrix F)
  (output_path : string) : M unit :=
  emit (PltImshow [lsf_result]) ;;
  emit (PltImshow lpc) ;;
  call_fallible (PltSavefig output_path) (plt_savefig output_path).

Definition turn_file (input_directory output_directory filename : string)
  : M unit :=
  if endswith filename ".wav" then
    let file_path := os_path_join input_directory filename in
    results <- process_audio file_path 256 512 ;;
    match results with
    | None =>
        print ("Skipping " ++ filename ++ " due to errors in processing.")%string
    | Some (lsf_result, mfccs, lpc, cqcc) =>
        let output_filename := (fst (os_path_splitext filename) ++ ".jpg")%string in
        let output_path := os_path_join output_directory output_filename in
        save_spectrograms lsf_result mfccs lpc cqcc output_path ;;
        print ("Saved spectrograms for " ++ filename ++ " to " ++ output_path)%string
    end
  else ret tt.

Definition turn (input_directory output_directory : string) : M unit :=
  (if negb (os_path_exists output_directory)
   then emit (OsMakedirs output_directory) else ret tt) ;;
  filenames <- call (OsListdir input_directory) (os_listdir input_directory) ;;
  for_each filenames (turn_file input_directory output_directory).

(** The script's last line. *)
Definition main : M unit := turn "wav" "wav-feature".
End Script.
End PreProcess2.

(** ** [pre_process_1.py] *)

Module PreProcess1.
Section Script.
Context {F : Type} {D : Dtype F} {L : Lib F}.

(** [np.argmax(magnitudes, axis=0)]: for every frame, the bin of the
    largest magnitude.  An axis of length 0 cannot be reduced. *)
Definition argmax_axis0 (bins frames : nat) (a : nat -> nat -> F)
  : result (list nat) :=
  match bins with
  | 0 => Raise (ValueError "attempt to get argmax of an empty sequence")
  | S n =>
      Ok (map (fun j =>
                 Numpy.argmax_nonempty (a 0 j) (map (fun i => a i j) (seq 1 n)))
              (seq 0 frames))
  end.

(** [pitches[pitch_indices, np.arange(pitches.shape[1])]] *)
Definition take_per_frame (pitches : nat -> nat -> F) (frames : nat)
  (pitch_indices : list nat) : list F :=
  map (fun ij => pitches (fst ij) (snd ij))
      (combine pitch_indices (seq 0 frames)).

(** [1 / f0], then the two boolean masks. *)
Definition periods (fundamental_frequencies : list F) : list F :=
  let fundamental_period := map (fun f => divide one f) fundamental_frequencies in
  let fundamental_period := filter isfinite fundamental_period in
  filter (fun x => less zero x) fundamental_period.

Definition audio_features : Type :=
  (matrix F * list F * matrix F * matrix F)%type.

Definition extract_audio_features (audio_data : list F) (sample_rate : Z)
  : M audio_features :=
  fbank_features <- call (LibrosaMelspectrogram audio_data sample_rate)
                         (librosa_melspectrogram audio_data sample_rate) ;;
  pt <- call (LibrosaPiptrack audio_data sample_rate)
             (librosa_piptrack audio_data sample_rate) ;;
  pitch_indices <- lift (argmax_axis0 (pt_bins pt) (pt_frames pt)
                                      (pt_magnitudes pt)) ;;
  let fundamental_frequencies :=
    take_per_frame (pt_pitches pt) (pt_frames pt) pitch_indices in
  let fundamental_period := periods fundamental_frequencies in
  spectral_centroid <- call (LibrosaSpectralCentroid audio_data sample_rate)
                            (librosa_spectral_centroid audio_data sample_rate) ;;
  spectral_contrast <- call (LibrosaSpectralContrast audio_data sample_rate)
                            (librosa_spectral_contrast audio_data sample_rate) ;;
  ret (fbank_features, fundamental_period, spectral_centroid, spectral_contrast).

Definition visualize_and_save_features (fbank_features : matrix F)
  (fundamental_period : list F) (spectral_centroid spectral_contrast : matrix F)
  (output_path : string) : M unit :=
  (if (0 <? length fundamental_period)%nat
   then emit (PltHist fundamental_period) else ret tt) ;;
  emit (PltHist (concat spectral_centroid)) ;;
  emit (PltHist (concat spectral_contrast)) ;;
  call_fallible (PltSavefig output_path) (plt_savefig output_path).

(** The body of the [try]. *)
Definition process_file (input_directory output_directory filename : string)
  : M unit :=
  let file_path := os_path_join input_directory filename in
  loaded <- call_fallible (LibrosaLoad file_path) (librosa_load file_path) ;;
  feats <- extract_audio_features (fst loaded) (snd loaded) ;;
  let '(fbank_features, fundamental_period, spectral_centroid, spectral_contrast)
    := feats in
  let output_filename := (fst (os_path_splitext filename) ++ ".jpg")%string in
  let output_path := os_path_join output_directory output_filename in
  visualize_and_save_features fbank_features fundamental_period
    spectral_centroid spectral_contrast output_path ;;
  print ("Successfully processed and saved feature image: "
           ++ output_filename)%string.

Definition directory_file (input_directory output_directory filename : string)
  : M unit :=
  if endswith filename ".wav" then
    try_except (process_file input_directory output_directory filename)
      (fun e => print ("Error processing " ++ filename ++ ": "
                         ++ exn_str e)%string)
  else ret tt.

Definition process_audio_directory (input_directory output_directory : string)
  : M unit :=
  emit (OsMakedirs output_directory) ;;
  filenames <- call (OsListdir input_directory) (os_listdir input_directory) ;;
  for_each filenames (directory_file input_directory output_directory).

Definition main : M unit := process_audio_directory "wav" "wav_features".
End Script.
End PreProcess1.

(** ** A recorded run

    One directory, three clips and the answers the libraries give on them,
    in float64.  [a.wav] and [c.wav] decode; [b.wav] is corrupted, and
    [librosa.load] raises on it.  The linear-prediction answer is
    [1, 0.75, 0, ..., 0]; the polynomial built from it is
    [z^13 - z^12 - 0.75 z^11 = z^11 (z - 1.5) (z + 0.5)], whose roots are
    [1.5], [-0.5] and eleven zeros. *)

Module Run.
Import IEEE.

Definition f64 (m e : Z) : spec_float := lit64 m e.

(** [np.pi], the float64 nearest to pi (0x400921FB54442D18). *)
Definition pi64 : spec_float := f64 7074237752028440 (-51).

Definition sign_bit (x : spec_float) : bool :=
  match x with
  | S754_zero s | S754_infinity s | S754_finite s _ _ => s
  | S754_nan => false
  end.

Definition copysign (x y : spec_float) : spec_float :=
  if sign_bit y then SFopp (SFabs x) else SFabs x.

(** Bitwise identity of two floats. *)
Definition same (x y : spec_float) : bool :=
  match x, y with
  | S754_zero a, S754_zero b | S754_infinity a, S754_infinity b => Bool.eqb a b
  | S754_nan, S754_nan => true
  | S754_finite a m e, S754_finite b n k =>
      Bool.eqb a b && Pos.eqb m n && Z.eqb e k
  | _, _ => false
  end.

Fixpoint same_list (l l' : list spec_float) : bool :=
  match l, l' with
  | [], [] => true
  | x :: xs, y :: ys => same x y && same_list xs ys
  | _, _ => false
  end.

(** The modulus of a complex number.  On the axes this is [hypot]
    exactly; elsewhere it is the rounded [sqrt(re^2 + im^2)]. *)
Definition abs64 (z : complex spec_float) : spec_float :=
  let (re, im) := z in
  if is_zero im then SFabs re
  else if is_zero re then SFabs im
  else SFsqrt 53 1024
         (SFadd 53 1024 (SFmul 53 1024 re re) (SFmul 53 1024 im im)).

(** [arctan2(im, re)] for a number on the real axis, as C99 fixes it:
    [+-0] for a positive real part, [+-pi] for a negative one, the sign
    being that of the imaginary zero.  Off the real axis this stand-in
    answers for the real part alone; no run below asks there. *)
Definition angle64 (z : complex spec_float) : spec_float :=
  let (re, im) := z in
  if is_nan re || is_nan im then S754_nan
  else if sign_bit re then copysign pi64 im
  else copysign (S754_zero false) im.

(** A stand-in for the logarithm: the tangent at 1. *)
Definition log64 (x : spec_float) : spec_float := SFsub 53 1024 x (f64 1 0).

(** A float32 clip of three samples, [1, 2, 4]. *)
Definition clip32 : list spec_float := [lit32 1 0; lit32 2 0; lit32 4 0].

Definition audio_a : list spec_float := [f64 1 0; f64 2 0; f64 4 0; f64 1 0].
Definition audio_c : list spec_float := [f64 3 (-1); f64 1 (-2); f64 1 0].

Definition decode_error : exn :=
  LibraryError "Error opening 'wav/b.wav': Format not recognised.".

Definition lpc_answer : list spec_float :=
  f64 1 0 :: f64 3 (-2) :: repeat (S754_zero false) 11.

Definition roots_answer : list (complex spec_float) :=
  (f64 3 (-1), S754_zero false) :: (f64 (-1) (-1), S754_zero false)
    :: repeat (S754_zero false, S754_zero false) 11.

Definition table (t : matrix spec_float) (i j : nat) : spec_float :=
  nth j (nth i t []) (S754_zero false).

Definition cepstra : matrix spec_float :=
  [ [f64 (-21) 0; f64 (-20) 0];
    [f64 3 0; f64 5 (-1)];
    [f64 (-1) (-1); f64 1 (-2)];
    [f64 1 (-1); f64 1 (-3)];
    [f64 0 0; f64 (-1) (-3)];
    [f64 1 (-4); f64 1 (-4)] ].

Definition lib : Lib spec_float := {|
  np_pi := pi64;
  np_abs := abs64;
  np_angle := angle64;
  np_log := log64;
  np_roots := fun p =>
    if same_list p (f64 1 0 :: map SFopp lpc_answer) then roots_answer else [];
  librosa_load := fun path =>
    if String.eqb path "wav/a.wav" then Ok (audio_a, 16000%Z)
    else if String.eqb path "wav/c.wav" then Ok (audio_c, 16000%Z)
    else if String.eqb path "wav/b.wav" then Raise decode_error
    else Raise (LibraryError "No such file or directory");
  librosa_lpc := fun y order =>
    f64 1 0 :: firstn order (f64 3 (-2) :: repeat (S754_zero false) order);
  librosa_mfcc := fun y sr n_mfcc => firstn n_mfcc [[f64 (-5) 0; f64 (-4) 0]];
  librosa_mfcc_S := fun S n_mfcc => firstn n_mfcc cepstra;
  librosa_cqt := fun y sr n_bins hop_length =>
    repeat [(f64 1 0, S754_zero false); (S754_zero false, f64 2 0)] n_bins;
  librosa_melspectrogram := fun y sr => [[f64 1 0; f64 2 0; f64 1 0]];
  librosa_piptrack := fun y sr => {|
    pt_bins := 3;
    pt_frames := 4;
    pt_pitches := table
      [ [f64 0 0; f64 100 0; f64 0 0; f64 0 0];
        [f64 0 0; f64 0 0; f64 200 0; f64 0 0];
        [f64 0 0; f64 0 0; f64 0 0; f64 (-400) 0] ];
    pt_magnitudes := table
      [ [f64 0 0; f64 5 0; f64 1 0; f64 0 0];
        [f64 0 0; f64 1 0; f64 7 0; f64 0 0];
        [f64 0 0; f64 2 0; f64 3 0; f64 9 0] ] |};
  librosa_spectral_centroid := fun y sr => [[f64 1000 0; f64 1200 0; f64 900 0]];
  librosa_spectral_contrast := fun y sr => [[f64 10 0; f64 12 0]; [f64 20 0; f64 18 0]];
  os_listdir := fun d =>
    if String.eqb d "wav" then ["a.wav"; "notes.txt"; "b.wav"; "c.wav"] else [];
  os_path_exists := fun p => false;
  os_path_join := fun a b => (a ++ "/" ++ b)%string;
  os_path_splitext := fun p =>
    let n := String.length p in
    if endswith p ".wav" then (substring 0 (n - 4) p, ".wav") else (p, "");
  plt_savefig := fun p => Ok tt
|}.
End Run.

(** ** Laws of the element type and contracts of the libraries *)

(** The comparisons form a total preorder on the elements that are not NaN,
    and a NaN compares false with everything. *)
Class OrderLaws {F : Type} (D : Dtype F) : Prop := {
  leb_total : forall x y : F,
    isnan x = false -> isnan y = false -> less_equal x y = true \/ less_equal y x = true;
  leb_trans : forall x y z : F,
    less_equal x y = true -> less_equal y z = true -> less_equal x z = true;
  leb_number : forall x y : F,
    less_equal x y = true -> isnan x = false /\ isnan y = false;
  ltb_leb : forall x y : F, less x y = less_equal x y && negb (less_equal y x);
  eqb_leb : forall x y : F, equal x y = less_equal x y && less_equal y x
}.

(** What the normalisation needs of subtraction and division, on operands
    that are stored values and finite: a difference is a stored value
    again, it has the sign of the comparison of its operands and is zero
    only when they are equal (gradual underflow), a quotient of a
    non-negative value by a larger one lies between zero and one, and
    equal operands divide to one. *)
Class RoundingLaws {F : Type} (D : Dtype F) : Prop := {
  sub_valid : forall x m : F,
    valid x = true -> valid m = true ->
    isfinite x = true -> isfinite m = true ->
    valid (subtract x m) = true;
  sub_nonneg : forall x m : F,
    valid x = true -> valid m = true ->
    isfinite x = true -> isfinite m = true ->
    less_equal m x = true -> less_equal zero (subtract x m) = true;
  sub_pos : forall x m : F,
    valid x = true -> valid m = true ->
    isfinite x = true -> isfinite m = true ->
    less m x = true -> less zero (subtract x m) = true;
  sub_equal : forall x m : F,
    valid x = true -> valid m = true ->
    isfinite x = true -> isfinite m = true ->
    equal x m = true -> equal (subtract x m) zero = true;
  div_unit : forall x d : F,
    valid x = true -> valid d = true ->
    isfinite x = true -> isfinite d = true -> less zero d = true ->
    less_equal zero x = true -> less_equal x d = true ->
    less_equal zero (divide x d) = true /\ less_equal (divide x d) one = true;
  div_equal : forall x d : F,
    valid x = true -> valid d = true ->
    isfinite x = true -> isfinite d = true -> less zero d = true ->
    equal x d = true -> equal (divide x d) one = true;
  div_zero : forall x d : F,
    valid x = true -> valid d = true ->
    isfinite x = true -> isfinite d = true -> less zero d = true ->
    equal x zero = true -> equal (divide x d) zero = true
}.

Section Contracts.
Context {F : Type} {D : Dtype F} {L : Lib F}.

(** Conditions on the cepstral array that reaches the normalisation: every
    entry is a stored value and finite, two entries differ, and no
    difference of two entries overflows. *)
Definition all_valid (a : matrix F) : Prop :=
  Forall (fun v => valid v = true) (concat a).

Definition all_finite (a : matrix F) : Prop :=
  Forall (fun v => isfinite v = true) (concat a).




(** [librosa.lpc(y, order=n)] returns the [n + 1] coefficients of the
    prediction-error filter, the first of which is 1. *)
Definition lpc_contract : Prop :=
  forall (y : list F) (order : nat),
    exists a : list F, librosa_lpc y order = one :: a /\ length a = order.

(** [np.roots(p)] returns at most [len(p) - 1] roots. *)
Definition roots_contract : Prop :=
  forall p : list F, length (np_roots p) <= length p - 1.

(** The closed interval [[-np.pi, np.pi]] and the open one. *)
Definition in_closed_range (v : F) : Prop :=
  less_equal (negative np_pi) v = true /\ less_equal v np_pi = true.

Definition in_open_range (v : F) : Prop :=
  less (negative np_pi) v = true /\ less v np_pi = true.

(** [np.angle] of a number that is not NaN lies between [-np.pi] and
    [np.pi], both included. *)
Definition angle_contract : Prop :=
  forall z : complex F, cisnan z = false -> in_closed_range (np_angle z).
End Contracts.

(** ** Observing a run

    Projections of the events of a run, libraries that differ from a given
    one in one routine, and what a batch is expected to leave behind. *)

Module Observe.
Section Projections.
Context {F : Type} {D : Dtype F}.

(** The lines a run printed, the paths it handed to [plt.savefig] and the
    paths it handed to [librosa.load], each in program order. *)
Definition stdout_lines (tr : list (event F)) : list string :=
  flat_map (fun ev => match ev with Stdout line => [line] | _ => [] end) tr.

Definition savefig_paths (tr : list (event F)) : list string :=
  flat_map (fun ev => match ev with PltSavefig path => [path] | _ => [] end) tr.

Definition loads (tr : list (event F)) : list string :=
  flat_map (fun ev => match ev with LibrosaLoad path => [path] | _ => [] end) tr.

Definition all_isfinite (y : list F) : Prop :=
  Forall (fun v => isfinite v = true) y.

(** A call of a numeric routine on a waveform or a polynomial receives
    finite numbers only. *)
Definition finite_input (ev : event F) : Prop :=
  match ev with
  | LibrosaLpc y _ | LibrosaMfcc y _ _ | LibrosaCqt y _ _ _ | NpRoots y =>
      all_isfinite y
  | _ => True
  end.
End Projections.
End Observe.

(** A library that answers as [L] does, except for one routine. *)
Module Variant.
Section Replace.
Context {F : Type} (L : Lib F).

Definition with_load (f : string -> result (list F * Z)) : Lib F := {|
  np_pi := np_pi; np_abs := np_abs; np_angle := np_angle; np_log := np_log;
  np_roots := np_roots;
  librosa_load := f;
  librosa_lpc := librosa_lpc; librosa_mfcc := librosa_mfcc;
  librosa_mfcc_S := librosa_mfcc_S; librosa_cqt := librosa_cqt;
  librosa_melspectrogram := librosa_melspectrogram;
  librosa_piptrack := librosa_piptrack;
  librosa_spectral_centroid := librosa_spectral_centroid;
  librosa_spectral_contrast := librosa_spectral_contrast;
  os_listdir := os_listdir; os_path_exists := os_path_exists;
  os_path_join := os_path_join; os_path_splitext := os_path_splitext;
  plt_savefig := plt_savefig
|}.

Definition with_listdir (f : string -> list string) : Lib F := {|
  np_pi := np_pi; np_abs := np_abs; np_angle := np_angle; np_log := np_log;
  np_roots := np_roots;
  librosa_load := librosa_load;
  librosa_lpc := librosa_lpc; librosa_mfcc := librosa_mfcc;
  librosa_mfcc_S := librosa_mfcc_S; librosa_cqt := librosa_cqt;
  librosa_melspectrogram := librosa_melspectrogram;
  librosa_piptrack := librosa_piptrack;
  librosa_spectral_centroid := librosa_spectral_centroid;
  librosa_spectral_contrast := librosa_spectral_contrast;
  os_listdir := f; os_path_exists := os_path_exists;
  os_path_join := os_path_join; os_path_splitext := os_path_splitext;
  plt_savefig := plt_savefig
|}.

Definition with_mfcc (f : list F -> Z -> nat -> matrix F) : Lib F := {|
  np_pi := np_pi; np_abs := np_abs; np_angle := np_angle; np_log := np_log;
  np_roots := np_roots;
  librosa_load := librosa_load;
  librosa_lpc := librosa_lpc; librosa_mfcc := f;
  librosa_mfcc_S := librosa_mfcc_S; librosa_cqt := librosa_cqt;
  librosa_melspectrogram := librosa_melspectrogram;
  librosa_piptrack := librosa_piptrack;
  librosa_spectral_centroid := librosa_spectral_centroid;
  librosa_spectral_contrast := librosa_spectral_contrast;
  os_listdir := os_listdir; os_path_exists := os_path_exists;
  os_path_join := os_path_join; os_path_splitext := os_path_splitext;
  plt_savefig := plt_savefig
|}.

Definition with_mfcc_S (f : matrix F -> nat -> matrix F) : Lib F := {|
  np_pi := np_pi; np_abs := np_abs; np_angle := np_angle; np_log := np_log;
  np_roots := np_roots;
  librosa_load := librosa_load;
  librosa_lpc := librosa_lpc; librosa_mfcc := librosa_mfcc;
  librosa_mfcc_S := f; librosa_cqt := librosa_cqt;
  librosa_melspectrogram := librosa_melspectrogram;
  librosa_piptrack := librosa_piptrack;
  librosa_spectral_centroid := librosa_spectral_centroid;
  librosa_spectral_contrast := librosa_spectral_contrast;
  os_listdir := os_listdir; os_path_exists := os_path_exists;
  os_path_join := os_path_join; os_path_splitext := os_path_splitext;
  plt_savefig := plt_savefig
|}.

Definition with_melspectrogram (f : list F -> Z -> matrix F) : Lib F := {|
  np_pi := np_pi; np_abs := np_abs; np_angle := np_angle; np_log := np_log;
  np_roots := np_roots;
  librosa_load := librosa_load;
  librosa_lpc := librosa_lpc; librosa_mfcc := librosa_mfcc;
  librosa_mfcc_S := librosa_mfcc_S; librosa_cqt := librosa_cqt;
  librosa_melspectrogram := f;
  librosa_piptrack := librosa_piptrack;
  librosa_spectral_centroid := librosa_spectral_centroid;
  librosa_spectral_contrast := librosa_spectral_contrast;
  os_listdir := os_listdir; os_path_exists := os_path_exists;
  os_path_join := os_path_join; os_path_splitext := os_path_splitext;
  plt_savefig := plt_savefig
|}.
End Replace.
End Variant.

(** What a batch is expected to leave behind, file by file. *)
Module Expected.
Section Outputs.
Context {F : Type} {D : Dtype F} {L : Lib F}.

Definition is_wav (filename : string) : bool := endswith filename ".wav".

(** The image of a clip: its name with [.jpg] for the extension, in the
    output directory. *)
Definition image_name (filename : string) : string :=
  (fst (os_path_splitext filename) ++ ".jpg")%string.

Definition image_path (output_directory filename : string) : string :=
  os_path_join output_directory (image_name filename).

(** [process_audio] returns a feature tuple for the clip. *)
Definition yields_features (input_directory filename : string) : bool :=
  match outcome (PreProcess2.process_audio
                   (os_path_join input_directory filename) 256 512) with
  | Ok (Some _) => true
  | _ => false
  end.

(** The line [process_audio_directory] prints for a clip. *)
Definition report (input_directory output_directory filename : string)
  : string :=
  match outcome (PreProcess1.process_file
                   input_directory output_directory filename) with
  | Ok _ =>
      ("Successfully processed and saved feature image: "
         ++ image_name filename)%string
  | Raise e =>
      ("Error processing " ++ filename ++ ": " ++ exn_str e)%string
  end.

(** The clip decodes and [extract_audio_features] returns for it: the
    body of the [try] reaches [visualize_and_save_features]. *)
Definition extracts (input_directory filename : string) : bool :=
  match librosa_load (os_path_join input_directory filename) with
  | Ok (audio_data, sample_rate) =>
      is_ok (outcome (PreProcess1.extract_audio_features
                        audio_data sample_rate))
  | Raise _ => false
  end.

(** An event of reading and computing: nothing is drawn, saved or
    created. *)
Definition computes_only (ev : event F) : Prop :=
  match ev with
  | PltImshow _ | PltHist _ | PltSavefig _ | OsMakedirs _ | OsListdir _ =>
      False
  | _ => True
  end.
End Outputs.
End Expected.

(** ** The exceptions of [librosa.lpc] and [np.roots]

    [Lib] records what a routine returns.  Two of the routines that
    [compute_lsf] calls also raise: [librosa.lpc] raises [ParameterError]
    on a waveform that is not finite everywhere, and [np.roots] raises
    [LinAlgError] when the eigenvalues of the companion matrix do not
    converge.  [Raises] says on which arguments they raise, and what;
    where it says [None] the routine returns the answer of [Lib]. *)
Class Raises (F : Type) : Type := {
  librosa_lpc_raises : list F -> nat -> option exn;
  np_roots_raises : list F -> option exn
}.

Module Raising.
Section Script.
Context {F : Type} {D : Dtype F} {L : Lib F} {R : Raises F}.
Import PreProcess2.

(** A call that raises where the routine does and returns elsewhere. *)
Definition attempt {A} (ev : event F) (error : option exn) (answer : A)
  : M A :=
  call_fallible ev
    (match error with Some e => Raise e | None => Ok answer end).

(** [compute_lsf], lines 10 to 29, with the exceptions of its two
    routines.  Nothing in the function catches them. *)
Definition compute_lsf (audio_data : list F) (sample_rate : Z) (order : nat)
  : M (list F) :=
  lpc_coeffs <- attempt (LibrosaLpc audio_data 12)
                  (librosa_lpc_raises audio_data 12)
                  (librosa_lpc audio_data 12) ;;
  let p := polynomial lpc_coeffs in
  if degenerate_model p then
    print warn_polynomial ;;
    ret []
  else
    roots <- attempt (NpRoots p) (np_roots_raises p) (np_roots p) ;;
    if degenerate_roots roots then
      print warn_roots ;;
      ret []
    else
      let stable_roots := stable roots in
      if no_stable_roots roots then ret []
      else
        let lsf := map np_angle stable_roots in
        ret (Numpy.sort lsf).
End Script.
End Raising.

(** ** More recorded clips

    A directory [clips] with two clips that decode and are processed, a
    loud clip whose pre-emphasis overflows, and a text file; a clip without
    samples; an array with a NaN; and three cepstral arrays outside the
    range of use of the normalisation. *)
Module Clips.
Import IEEE Run.

Definition nan_clip : list spec_float := [f64 1 0; S754_nan; f64 2 0].

(** Sixty-four samples: sixteen periods of four. *)
Definition long_a : list spec_float := concat (repeat audio_a 16).
Definition long_c : list spec_float :=
  concat (repeat [f64 3 (-1); f64 1 (-2); f64 1 0; f64 (-1) (-1)] 16).

(** Finite samples, near the largest float64, of alternating sign: the
    second pre-emphasised sample is [3 * 2^1022 + 1.5 * 2^1022], above
    the largest float64. *)
Definition loud_clip : list spec_float :=
  concat (repeat [f64 (-3) 1022; f64 3 1022] 32).

(** The same in float32, near the largest float32. *)
Definition loud_clip32 : list spec_float :=
  concat (repeat [lit32 (-3) 126; lit32 3 126] 32).

Definition lib : Lib spec_float :=
  Variant.with_listdir
    (Variant.with_load Run.lib
       (fun path =>
          if String.eqb path "clips/a.wav" then Ok (long_a, 16000%Z)
          else if String.eqb path "clips/loud.wav" then Ok (loud_clip, 16000%Z)
          else if String.eqb path "clips/c.wav" then Ok (long_c, 16000%Z)
          else if String.eqb path "clips/empty.wav" then Ok ([], 16000%Z)
          else Raise (LibraryError "No such file or directory")))
    (fun d =>
       if String.eqb d "clips"
       then ["a.wav"; "loud.wav"; "notes.txt"; "c.wav"] else []).

(** [librosa.load] returns float32 samples. *)
Definition lib32 : Lib spec_float :=
  Variant.with_load Run.lib
    (fun path =>
       if String.eqb path "clips/loud.wav" then Ok (loud_clip32, 16000%Z)
       else Raise (LibraryError "No such file or directory")).

(** [librosa.lpc] checks its waveform with [valid_audio]; [np.roots] is
    taken to converge. *)
Definition raises : Raises spec_float := {|
  librosa_lpc_raises := fun y order =>
    if forallb is_finite y then None
    else Some (LibraryError "Audio buffer is not finite everywhere");
  np_roots_raises := fun p => None
|}.

Definition constant_cepstra : matrix spec_float :=
  [ [f64 3 0; f64 3 0]; [f64 3 0; f64 3 0] ].

Definition nan_cepstra : matrix spec_float :=
  [ [f64 3 0; S754_nan]; [f64 1 0; f64 2 0] ].


Definition lib_constant : Lib spec_float :=
  Variant.with_mfcc_S Run.lib (fun _ _ => constant_cepstra).

Definition lib_nan : Lib spec_float :=
  Variant.with_mfcc_S Run.lib (fun _ _ => nan_cepstra).

End Clips.

(** * Properties *)

(** ** The element types satisfy their laws *)

Module IEEELaws.
Import IEEE.

Ltac order_cases :=
  repeat match goal with
  | s : bool |- _ => destruct s
  | |- context [ (?a ?= ?b)%Z ] => destruct (Z.compare_spec a b)
  | H : context [ (?a ?= ?b)%Z ] |- _ => destruct (Z.compare_spec a b)
  | |- context [ Pos.compare_cont Eq ?a ?b ] =>
      change (Pos.compare_cont Eq a b) with (Pos.compare a b);
      destruct (Pos.compare_spec a b)
  | H : context [ Pos.compare_cont Eq ?a ?b ] |- _ =>
      change (Pos.compare_cont Eq a b) with (Pos.compare a b) in H;
      destruct (Pos.compare_spec a b)
  end; simpl in *; try discriminate; try reflexivity; try lia.

Ltac float_cases x y :=
  destruct x as [?s|?s| |?s ?m ?e], y as [?s|?s| |?s ?m ?e]; simpl;
  try discriminate; try reflexivity.

Lemma SFleb_total x y :
  is_nan x = false -> is_nan y = false -> SFleb x y = true \/ SFleb y x = true.
Proof.
  unfold SFleb. float_cases x y; intros _ _; order_cases; auto.
Qed.

Lemma SFleb_trans x y z :
  SFleb x y = true -> SFleb y z = true -> SFleb x z = true.
Proof.
  unfold SFleb. float_cases x y; destruct z as [sz|sz| |sz mz ez]; simpl;
    try discriminate; order_cases; auto.
Qed.

Lemma SFleb_number x y :
  SFleb x y = true -> is_nan x = false /\ is_nan y = false.
Proof. unfold SFleb. float_cases x y; auto. Qed.

Lemma SFltb_leb x y : SFltb x y = SFleb x y && negb (SFleb y x).
Proof. unfold SFleb, SFltb. float_cases x y; order_cases. Qed.

Lemma SFeqb_leb x y : SFeqb x y = SFleb x y && SFleb y x.
Proof. unfold SFleb, SFeqb. float_cases x y; order_cases. Qed.

(** The comparisons of every binary format are lawful. *)
Lemma ieee_order (prec emax : Z) : OrderLaws (ieee prec emax).
Proof.
  split; simpl.
  - apply SFleb_total.
  - apply SFleb_trans.
  - apply SFleb_number.
  - apply SFltb_leb.
  - apply SFeqb_leb.
Qed.

(** The literal [0.5] of the signature of [pre_emphasis], in float32 and
    in float64. *)
Example half32 : @half _ binary32 = S754_finite false 8388608 (-24).
Proof. reflexivity. Qed.

Example half64 : @half _ binary64 = S754_finite false 4503599627370496 (-53).
Proof. reflexivity. Qed.
End IEEELaws.

(** ** The rounding laws hold in every binary format

    [SFsub] and [SFdiv] round; the laws follow from what the rounding of
    [binary_round_aux] does to a mantissa and an exponent.  Values are
    measured in units of the smallest positive float of the format. *)

Module IEEERounding.
Import IEEE.
Local Open Scope Z_scope.
Local Unset Implicit Arguments.

(** *** The number of binary digits *)

(** Binary digits *)

Lemma digits2_pos_bounds (m : positive) :
  2 ^ (Zpos (digits2_pos m) - 1) <= Zpos m < 2 ^ Zpos (digits2_pos m).
Proof.
  induction m as [p IH|p IH|]; cbn [digits2_pos].
  - rewrite Pos2Z.inj_succ.
    replace (Z.succ (Zpos (digits2_pos p)) - 1) with (Z.succ (Zpos (digits2_pos p) - 1)) by lia.
    rewrite !Z.pow_succ_r by lia. lia.
  - rewrite Pos2Z.inj_succ.
    replace (Z.succ (Zpos (digits2_pos p)) - 1) with (Z.succ (Zpos (digits2_pos p) - 1)) by lia.
    rewrite !Z.pow_succ_r by lia. lia.
  - simpl. lia.
Qed.

Lemma Zdigits2_bounds (m : Z) :
  0 < m -> 2 ^ (Zdigits2 m - 1) <= m < 2 ^ Zdigits2 m.
Proof.
  destruct m as [|p|p]; try lia. intros _. apply digits2_pos_bounds.
Qed.

Lemma Zdigits2_pos (m : Z) : 0 < m -> 0 < Zdigits2 m.
Proof. destruct m; simpl; lia. Qed.

Lemma Zdigits2_nonneg (m : Z) : 0 <= Zdigits2 m.
Proof. destruct m; simpl; lia. Qed.

Lemma Zdigits2_unique (m d : Z) :
  0 < m -> 2 ^ (d - 1) <= m < 2 ^ d -> Zdigits2 m = d.
Proof.
  intros Hm [Hlo Hhi]. pose proof (Zdigits2_bounds m Hm) as [Hlo' Hhi'].
  pose proof (Zdigits2_pos m Hm) as Hd.
  assert (0 < d).
  { destruct (Z_lt_le_dec 0 d) as [H|H]; [exact H|].
    assert (2 ^ d <= 1)
      by (destruct (Z.eq_dec d 0) as [->|]; [simpl; lia|rewrite Z.pow_neg_r; lia]).
    lia. }
  assert (Zdigits2 m - 1 < d).
  { apply (Z.pow_lt_mono_r_iff 2); lia. }
  assert (d - 1 < Zdigits2 m).
  { apply (Z.pow_lt_mono_r_iff 2); lia. }
  lia.
Qed.

Lemma Zdigits2_le (m d : Z) : 0 < m -> m < 2 ^ d -> 0 <= d -> Zdigits2 m <= d.
Proof.
  intros Hm Hlt Hd. pose proof (Zdigits2_bounds m Hm) as [Hlo _].
  pose proof (Zdigits2_pos m Hm).
  assert (Zdigits2 m - 1 < d) by (apply (Z.pow_lt_mono_r_iff 2); lia).
  lia.
Qed.

Lemma Zdigits2_ge (m d : Z) : 2 ^ (d - 1) <= m -> 0 < d -> d <= Zdigits2 m.
Proof.
  intros Hlo Hd.
  assert (Hm : 0 < m) by (pose proof (Z.pow_pos_nonneg 2 (d - 1)); lia).
  pose proof (Zdigits2_bounds m Hm) as [_ Hhi].
  pose proof (Zdigits2_pos m Hm).
  assert (d - 1 < Zdigits2 m) by (apply (Z.pow_lt_mono_r_iff 2); lia).
  lia.
Qed.

Lemma Zdigits2_mul_pow (m n : Z) :
  0 < m -> 0 <= n -> Zdigits2 (m * 2 ^ n) = Zdigits2 m + n.
Proof.
  intros Hm Hn. pose proof (Zdigits2_bounds m Hm) as [Hlo Hhi].
  pose proof (Zdigits2_pos m Hm).
  pose proof (Z.pow_pos_nonneg 2 n ltac:(lia) Hn) as Hp.
  apply Zdigits2_unique; [nia|].
  replace (Zdigits2 m + n - 1) with (Zdigits2 m - 1 + n) by lia.
  rewrite !Z.pow_add_r by lia. split; nia.
Qed.

Lemma Zdigits2_div_pow (m n : Z) :
  0 < m -> 0 <= n < Zdigits2 m -> Zdigits2 (m / 2 ^ n) = Zdigits2 m - n
                                  /\ 0 < m / 2 ^ n.
Proof.
  intros Hm Hn. pose proof (Zdigits2_bounds m Hm) as [Hlo Hhi].
  pose proof (Z.pow_pos_nonneg 2 n ltac:(lia) ltac:(lia)) as Hp.
  assert (Hq : 2 ^ (Zdigits2 m - n - 1) <= m / 2 ^ n < 2 ^ (Zdigits2 m - n)).
  { split.
    - apply Z.div_le_lower_bound; [lia|].
      rewrite <- Z.pow_add_r by lia.
      now replace (n + (Zdigits2 m - n - 1)) with (Zdigits2 m - 1) by lia.
    - apply Z.div_lt_upper_bound; [lia|].
      rewrite <- Z.pow_add_r by lia.
      now replace (n + (Zdigits2 m - n)) with (Zdigits2 m) by lia. }
  assert (0 < m / 2 ^ n).
  { pose proof (Z.pow_pos_nonneg 2 (Zdigits2 m - n - 1) ltac:(lia) ltac:(lia)). lia. }
  split; [|assumption]. now apply Zdigits2_unique.
Qed.

Lemma div_pow_zero (m n : Z) :
  0 <= m -> Zdigits2 m <= n -> m / 2 ^ n = 0.
Proof.
  intros Hm Hn. destruct (Z.eq_dec m 0) as [->|Hne].
  - apply Z.div_0_l. pose proof (Zdigits2_nonneg 0). simpl in *.
    pose proof (Z.pow_pos_nonneg 2 n ltac:(lia) ltac:(lia)). lia.
  - pose proof (Zdigits2_bounds m ltac:(lia)) as [_ Hhi].
    pose proof (Zdigits2_pos m ltac:(lia)).
    apply Z.div_small. split; [lia|].
    eapply Z.lt_le_trans; [exact Hhi|]. apply Z.pow_le_mono_r; lia.
Qed.

Lemma Zdigits2_mono (a b : Z) : 0 <= a <= b -> Zdigits2 a <= Zdigits2 b.
Proof.
  intros [Ha Hab]. destruct (Z.eq_dec a 0) as [->|Hne].
  - apply Zdigits2_nonneg.
  - pose proof (Zdigits2_bounds a ltac:(lia)) as [Hlo _].
    apply Zdigits2_ge; [lia|]. apply Zdigits2_pos. lia.
Qed.

(** *** Shifting a mantissa to the right *)

(** Shifting right with a record of what was lost *)

Lemma iter_pos_nat {A : Type} (f : A -> A) (p : positive) (x : A) :
  iter_pos f p x = Nat.iter (Pos.to_nat p) f x.
Proof.
  revert x. induction p as [p IH|p IH|]; intros x; cbn [iter_pos].
  - rewrite !IH, Pos2Nat.inj_xI. cbn [Nat.mul].
    rewrite Nat.add_0_r, Nat.iter_succ_r, Nat.iter_add. reflexivity.
  - rewrite !IH, Pos2Nat.inj_xO. cbn [Nat.mul].
    rewrite Nat.add_0_r, Nat.iter_add. reflexivity.
  - reflexivity.
Qed.

Lemma shr_1_m (mrs : shr_record) :
  0 <= shr_m mrs -> shr_m (shr_1 mrs) = shr_m mrs / 2.
Proof.
  destruct mrs as [m r s]. cbn [shr_m]. intros Hm.
  destruct m as [|[p|p|]|p]; cbn; try lia.
  - apply Z.div_unique with (r := 1); lia.
  - apply Z.div_unique with (r := 0); lia.
Qed.

Lemma shr_iter_m (k : nat) (mrs : shr_record) :
  0 <= shr_m mrs ->
  shr_m (Nat.iter k shr_1 mrs) = shr_m mrs / 2 ^ Z.of_nat k.
Proof.
  intros Hm. induction k as [|k IH].
  - simpl. now rewrite Z.div_1_r.
  - rewrite Nat.iter_succ, shr_1_m.
    + rewrite IH, Nat2Z.inj_succ, Z.pow_succ_r by lia.
      rewrite Z.div_div by lia. now rewrite Z.mul_comm.
    + rewrite IH. apply Z.div_pos; lia.
Qed.

Lemma shr_1_exact (mrs : shr_record) :
  lossless mrs -> 0 <= shr_m mrs -> (2 | shr_m mrs) -> lossless (shr_1 mrs).
Proof.
  destruct mrs as [m r s]. unfold lossless. cbn [shr_m shr_r shr_s].
  intros [-> ->] Hm [c Hc].
  destruct m as [|[p|p|]|p]; cbn; try lia; auto.
Qed.

Lemma shr_iter_exact (k : nat) (mrs : shr_record) :
  lossless mrs -> 0 <= shr_m mrs -> (2 ^ Z.of_nat k | shr_m mrs) ->
  lossless (Nat.iter k shr_1 mrs).
Proof.
  revert mrs. induction k as [|k IH]; intros mrs He Hm Hd; [exact He|].
  rewrite Nat.iter_succ_r. rewrite Nat2Z.inj_succ, Z.pow_succ_r in Hd by lia.
  destruct Hd as [c Hc].
  apply IH.
  - apply shr_1_exact; auto. exists (c * 2 ^ Z.of_nat k). lia.
  - rewrite shr_1_m by exact Hm. apply Z.div_pos; lia.
  - rewrite shr_1_m by exact Hm. exists c.
    rewrite Hc. replace (c * (2 * 2 ^ Z.of_nat k)) with (c * 2 ^ Z.of_nat k * 2) by lia.
    now rewrite Z.div_mul by lia.
Qed.

Lemma shr_spec (mrs : shr_record) (e n : Z) :
  0 <= shr_m mrs -> 0 <= n ->
  snd (shr mrs e n) = e + n
  /\ shr_m (fst (shr mrs e n)) = shr_m mrs / 2 ^ n
  /\ (lossless mrs -> (2 ^ n | shr_m mrs) -> lossless (fst (shr mrs e n))).
Proof.
  intros Hm Hn. destruct n as [|p|p]; try lia; cbn [shr fst snd].
  - rewrite Z.add_0_r, Z.div_1_r. auto.
  - rewrite iter_pos_nat. split; [reflexivity|]. split.
    + rewrite shr_iter_m by exact Hm. now rewrite positive_nat_Z.
    + intros He Hd. apply shr_iter_exact; auto. now rewrite positive_nat_Z.
Qed.

Lemma shr_record_of_loc_m (m : Z) (l : location) :
  shr_m (shr_record_of_loc m l) = m.
Proof. destruct l as [|[]]; reflexivity. Qed.

Lemma shr_record_of_loc_exact (m : Z) : lossless (shr_record_of_loc m loc_Exact).
Proof. split; reflexivity. Qed.

Lemma loc_of_exact (mrs : shr_record) :
  lossless mrs -> loc_of_shr_record mrs = loc_Exact.
Proof. destruct mrs as [m r s]. intros [H1 H2]. cbn in *. now subst. Qed.

Lemma round_nearest_even_bounds (m : Z) (l : location) :
  m <= round_nearest_even m l <= m + 1.
Proof.
  destruct l as [|[]]; cbn; try lia. destruct (Z.even m); lia.
Qed.

Lemma round_nearest_even_exact (m : Z) : round_nearest_even m loc_Exact = m.
Proof. reflexivity. Qed.

Lemma shr_zero (mrs : shr_record) (e n : Z) :
  shr_m mrs = 0 -> shr_m (fst (shr mrs e n)) = 0.
Proof.
  intros H. destruct n as [|p|p]; cbn [shr fst]; try exact H.
  rewrite iter_pos_nat, shr_iter_m by lia. rewrite H. apply Z.div_0_l.
  pose proof (Z.pow_pos_nonneg 2 (Z.of_nat (Pos.to_nat p))). lia.
Qed.

(** *** The exponent of a format *)

Section Exponent.
Variables prec emax : Z.
Hypothesis Hprec : 1 < prec.
Hypothesis Hemax : prec < emax.

Local Abbreviation fexp := (SpecFloat.fexp prec emax) (only parsing).
Local Abbreviation emin := (SpecFloat.emin prec emax) (only parsing).

Lemma emin_eq : emin = 3 - emax - prec.
Proof. reflexivity. Qed.

Lemma fexp_eq (k : Z) : fexp k = Z.max (k - prec) emin.
Proof. reflexivity. Qed.

Lemma fexp_mono (a b : Z) : a <= b -> fexp a <= fexp b.
Proof. rewrite !fexp_eq. lia. Qed.

Lemma fexp_ge_emin (k : Z) : emin <= fexp k.
Proof. rewrite fexp_eq. lia. Qed.

Lemma fexp_succ_le (k : Z) : fexp (k + 1) <= fexp k + 1.
Proof. rewrite !fexp_eq. lia. Qed.

(** What the first shift leaves: a mantissa in canonical position, or
    nothing at the smallest exponent. *)
Lemma first_shift (mx ex : Z) :
  0 <= mx -> ex <= fexp (Zdigits2 mx + ex) ->
  let e1 := fexp (Zdigits2 mx + ex) in
  let m1 := mx / 2 ^ (e1 - ex) in
  0 <= m1
  /\ (0 < m1 -> fexp (Zdigits2 m1 + e1) = e1)
  /\ (m1 = 0 -> e1 = emin).
Proof.
  intros Hmx Hex e1 m1.
  assert (Hm1 : 0 <= m1) by (apply Z.div_pos; [lia|apply Z.pow_pos_nonneg; lia]).
  split; [exact Hm1|]. split.
  - intros Hpos.
    assert (Hmx' : 0 < mx).
    { destruct (Z.eq_dec mx 0) as [E|E]; [|lia].
      subst m1. rewrite E, Z.div_0_l in Hpos; [lia|].
      pose proof (Z.pow_pos_nonneg 2 (e1 - ex)). lia. }
    assert (Hn : e1 - ex < Zdigits2 mx).
    { destruct (Z_lt_le_dec (e1 - ex) (Zdigits2 mx)) as [H|H]; [exact H|].
      subst m1. rewrite div_pow_zero in Hpos; lia. }
    destruct (Zdigits2_div_pow mx (e1 - ex) Hmx' ltac:(lia)) as [Hd _].
    fold m1 in Hd. rewrite Hd.
    now replace (Zdigits2 mx - (e1 - ex) + e1) with (Zdigits2 mx + ex) by lia.
  - intros Hzero.
    destruct (Z.eq_dec mx 0) as [E|E].
    + subst e1. rewrite fexp_eq in *. rewrite E in *. simpl Zdigits2 in *. lia.
    + assert (Hd : Zdigits2 mx <= e1 - ex).
      { destruct (Z_lt_le_dec (e1 - ex) (Zdigits2 mx)) as [H|H]; [|exact H].
        assert (Hn : 0 <= e1 - ex < Zdigits2 mx) by (subst e1; lia).
        destruct (Zdigits2_div_pow mx (e1 - ex) ltac:(lia) Hn) as [_ Hp].
        fold m1 in Hp. lia. }
      subst e1. rewrite fexp_eq in *. lia.
Qed.

(** What the second shift does to the rounded mantissa. *)
Lemma second_shift (m1 e1 mr : Z) :
  0 <= m1 -> m1 <= mr <= m1 + 1 -> 0 < mr ->
  (0 < m1 -> fexp (Zdigits2 m1 + e1) = e1) ->
  (m1 = 0 -> e1 = emin) ->
  let e2 := fexp (Zdigits2 mr + e1) in
  let m2 := mr / 2 ^ (e2 - e1) in
  e1 <= e2 /\ 0 < m2 /\ m2 * 2 ^ (e2 - e1) = mr /\ fexp (Zdigits2 m2 + e2) = e2.
Proof.
  intros Hm1 Hmr Hpos Hcanon Hzero e2 m2.
  destruct (Z.eq_dec m1 0) as [E|E].
  - (* everything was shifted out and the rounding went up to 1 *)
    assert (mr = 1) by lia. subst mr. specialize (Hzero E).
    assert (Hf : fexp (1 + e1) = e1) by (rewrite fexp_eq; lia).
    subst m2 e2. change (Zdigits2 1) with 1. rewrite Hf, Z.sub_diag.
    change (1 / 2 ^ 0) with 1. change (Zdigits2 1) with 1.
    repeat split; try lia.
  - specialize (Hcanon ltac:(lia)).
    pose proof (Zdigits2_bounds m1 ltac:(lia)) as [Hlo Hhi].
    pose proof (Zdigits2_pos m1 ltac:(lia)) as Hd.
    assert (Hdr : Zdigits2 m1 <= Zdigits2 mr <= Zdigits2 m1 + 1).
    { split; [apply Zdigits2_mono; lia|].
      apply Zdigits2_le; [lia| |lia]. rewrite Z.pow_add_r by lia. lia. }
    assert (He : e1 <= e2 <= e1 + 1).
    { subst e2. split.
      - rewrite <- Hcanon at 1. apply fexp_mono. lia.
      - rewrite <- Hcanon at 2.
        etransitivity; [|apply fexp_succ_le]. apply fexp_mono. lia. }
    destruct (Z.eq_dec e2 e1) as [E2|E2].
    + subst m2. rewrite E2, Z.sub_diag. simpl. rewrite Z.div_1_r.
      repeat split; lia.
    + assert (He2 : e2 = e1 + 1) by lia.
      assert (Hd2 : Zdigits2 mr = Zdigits2 m1 + 1).
      { destruct (Z.eq_dec (Zdigits2 mr) (Zdigits2 m1)) as [Ed|Ed]; [|lia].
        subst e2. rewrite Ed in E2. congruence. }
      assert (Hmr2 : mr = 2 ^ Zdigits2 m1).
      { pose proof (Zdigits2_bounds mr Hpos) as [Hlo' _].
        rewrite Hd2 in Hlo'.
        replace (Zdigits2 m1 + 1 - 1) with (Zdigits2 m1) in Hlo' by lia. lia. }
      subst m2. rewrite He2.
      replace (e1 + 1 - e1) with 1 by lia. change (2 ^ 1) with 2.
      assert (Hhalf : mr / 2 = 2 ^ (Zdigits2 m1 - 1)).
      { rewrite Hmr2.
        replace (Zdigits2 m1) with (Zdigits2 m1 - 1 + 1) at 1 by lia.
        rewrite Z.pow_add_r by lia. change (2 ^ 1) with 2.
        now rewrite Z.div_mul by lia. }
      rewrite Hhalf.
      pose proof (Z.pow_pos_nonneg 2 (Zdigits2 m1 - 1) ltac:(lia) ltac:(lia)).
      repeat split; try lia.
      * rewrite Hmr2.
        replace (Zdigits2 m1) with (Zdigits2 m1 - 1 + 1) at 2 by lia.
        rewrite Z.pow_add_r by lia. reflexivity.
      * assert (Hdh : Zdigits2 (2 ^ (Zdigits2 m1 - 1)) = Zdigits2 m1).
        { apply Zdigits2_unique; [lia|]. split; [lia|].
          apply Z.pow_lt_mono_r; lia. }
        rewrite Hdh.
        replace (Zdigits2 m1 + (e1 + 1)) with (Zdigits2 mr + e1) by lia.
        exact He2.
Qed.
End Exponent.

(** *** Rounding to nearest, ties to even *)

Section Nearest.
Variables prec emax : Z.
Hypothesis Hprec : 1 < prec.
Hypothesis Hemax : prec < emax.

Local Abbreviation fexp := (SpecFloat.fexp prec emax) (only parsing).
Local Abbreviation emin := (SpecFloat.emin prec emax) (only parsing).

(** The result of rounding a non-negative mantissa that has enough digits. *)
Lemma binary_round_aux_spec (sx : bool) (mx ex : Z) (lx : location) :
  0 <= mx -> ex <= fexp (Zdigits2 mx + ex) ->
  let e1 := fexp (Zdigits2 mx + ex) in
  let m1 := mx / 2 ^ (e1 - ex) in
  let r := binary_round_aux prec emax sx mx ex lx in
  exists mr : Z,
    m1 <= mr <= m1 + 1
    /\ (lx = loc_Exact -> (2 ^ (e1 - ex) | mx) -> mr = m1)
    /\ ((mr = 0 /\ r = S754_zero sx)
        \/ (0 < mr
            /\ exists m2 : positive,
                 let e2 := fexp (Zdigits2 mr + e1) in
                 e1 <= e2
                 /\ Zpos m2 * 2 ^ (e2 - e1) = mr
                 /\ canonical_mantissa prec emax m2 e2 = true
                 /\ r = if e2 <=? emax - prec
                        then S754_finite sx m2 e2 else S754_infinity sx)).
Proof.
  intros Hmx Hex e1 m1 r.
  destruct (first_shift prec emax Hprec mx ex Hmx Hex) as [Hm1 [Hcanon Hzero]].
  change (0 <= m1) in Hm1.
  change (0 < m1 -> fexp (Zdigits2 m1 + e1) = e1) in Hcanon.
  change (m1 = 0 -> e1 = emin) in Hzero.
  subst r. unfold binary_round_aux, shr_fexp. fold e1.
  pose proof (shr_spec (shr_record_of_loc mx lx) ex (e1 - ex)) as H1.
  rewrite shr_record_of_loc_m in H1.
  specialize (H1 Hmx ltac:(lia)). destruct H1 as [He' [Hm' Hexact]].
  destruct (shr (shr_record_of_loc mx lx) ex (e1 - ex)) as [mrs' e'].
  cbn [fst snd] in He', Hm', Hexact.
  replace e' with e1 by lia. fold m1 in Hm'.
  set (mr := round_nearest_even (shr_m mrs') (loc_of_shr_record mrs')).
  exists mr.
  assert (Hmr : m1 <= mr <= m1 + 1)
    by (subst mr; rewrite <- Hm'; apply round_nearest_even_bounds).
  split; [exact Hmr|]. split.
  { intros -> Hdiv. subst mr.
    rewrite (loc_of_exact _ (Hexact (shr_record_of_loc_exact mx) Hdiv)).
    now rewrite round_nearest_even_exact. }
  destruct (Z.eq_dec mr 0) as [E0|E0].
  - left. split; [exact E0|]. rewrite E0.
    pose proof (shr_zero (shr_record_of_loc 0 loc_Exact) e1
                  (fexp (Zdigits2 0 + e1) - e1) eq_refl) as Hz.
    destruct (shr (shr_record_of_loc 0 loc_Exact) e1 _) as [mrs'' e''].
    cbn [fst] in Hz. now rewrite Hz.
  - right. assert (Hpos : 0 < mr) by lia. split; [exact Hpos|].
    destruct (second_shift prec emax Hprec m1 e1 mr Hm1 Hmr Hpos Hcanon Hzero)
      as [He2 [Hm2 [Hmul Hcan2]]].
    set (e2 := fexp (Zdigits2 mr + e1)) in *.
    pose proof (shr_spec (shr_record_of_loc mr loc_Exact) e1 (e2 - e1)) as H2.
    rewrite shr_record_of_loc_m in H2.
    specialize (H2 ltac:(lia) ltac:(lia)). destruct H2 as [He'' [Hm'' _]].
    destruct (shr (shr_record_of_loc mr loc_Exact) e1 (e2 - e1)) as [mrs'' e''].
    cbn [fst snd] in He'', Hm''.
    rewrite Hm''.
    destruct (mr / 2 ^ (e2 - e1)) as [|m2|m2] eqn:Em2; try lia.
    exists m2. cbv zeta. fold e2.
    split; [exact He2|]. split; [exact Hmul|]. split.
    + unfold canonical_mantissa. apply Z.eqb_eq. exact Hcan2.
    + replace e'' with e2 by lia. reflexivity.
Qed.
End Nearest.

(** *** Comparison is comparison of values *)

Section Comparison.
Variables prec emax : Z.
Hypothesis Hprec : 1 < prec.
Hypothesis Hemax : prec < emax.

Local Abbreviation fexp := (SpecFloat.fexp prec emax) (only parsing).
Local Abbreviation emin := (SpecFloat.emin prec emax) (only parsing).

(** A canonical mantissa has at most [prec] digits, and exactly [prec]
    above the smallest exponent. *)
Lemma canonical_facts (m : positive) (e : Z) :
  canonical_mantissa prec emax m e = true ->
  emin <= e
  /\ Zpos (digits2_pos m) <= prec
  /\ (emin < e -> Zpos (digits2_pos m) = prec).
Proof.
  unfold canonical_mantissa. intros H. apply Z.eqb_eq in H.
  rewrite (fexp_eq prec emax) in H. lia.
Qed.

Lemma scaled_pos (m : positive) (e : Z) : emin <= e -> 0 < scaled prec emax m e.
Proof.
  intros He. unfold scaled.
  pose proof (Z.pow_pos_nonneg 2 (e - emin) ltac:(lia) ltac:(lia)). lia.
Qed.

Lemma scaled_lt (m1 m2 : positive) (e1 e2 : Z) :
  canonical_mantissa prec emax m1 e1 = true ->
  canonical_mantissa prec emax m2 e2 = true ->
  e1 < e2 -> scaled prec emax m1 e1 < scaled prec emax m2 e2.
Proof.
  intros H1 H2 Hlt.
  destruct (canonical_facts m1 e1 H1) as [He1 [Hd1 _]].
  destruct (canonical_facts m2 e2 H2) as [He2 [_ Hd2]].
  specialize (Hd2 ltac:(lia)).
  pose proof (digits2_pos_bounds m1) as [_ Hhi1].
  pose proof (digits2_pos_bounds m2) as [Hlo2 _].
  rewrite Hd2 in Hlo2.
  assert (Hm1 : Zpos m1 < 2 ^ prec).
  { eapply Z.lt_le_trans; [exact Hhi1|]. apply Z.pow_le_mono_r; lia. }
  unfold scaled.
  replace (e2 - emin) with (1 + (e2 - e1 - 1) + (e1 - emin)) by lia.
  rewrite !Z.pow_add_r by lia. change (2 ^ 1) with 2.
  replace prec with (prec - 1 + 1) in Hm1 by lia.
  rewrite Z.pow_add_r in Hm1 by lia. change (2 ^ 1) with 2 in Hm1.
  pose proof (Z.pow_pos_nonneg 2 (e2 - e1 - 1) ltac:(lia) ltac:(lia)) as HQ.
  pose proof (Z.pow_pos_nonneg 2 (e1 - emin) ltac:(lia) ltac:(lia)) as HP.
  set (P := 2 ^ (e1 - emin)) in *. set (Q := 2 ^ (e2 - e1 - 1)) in *.
  assert (H12 : Zpos m1 < 2 * Zpos m2) by lia.
  apply Z.lt_le_trans with (2 * Zpos m2 * P).
  - apply Z.mul_lt_mono_pos_r; lia.
  - replace (Zpos m2 * (2 * Q * P)) with (2 * Zpos m2 * P * Q) by ring.
    rewrite <- (Z.mul_1_r (2 * Zpos m2 * P)) at 1.
    apply Z.mul_le_mono_nonneg_l; lia.
Qed.

Lemma compare_scaled (m1 m2 : positive) (e1 e2 : Z) :
  canonical_mantissa prec emax m1 e1 = true ->
  canonical_mantissa prec emax m2 e2 = true ->
  match e1 ?= e2 with
  | Lt => Lt
  | Gt => Gt
  | Eq => Pos.compare_cont Eq m1 m2
  end = (scaled prec emax m1 e1 ?= scaled prec emax m2 e2).
Proof.
  intros H1 H2. destruct (Z.compare_spec e1 e2) as [E|E|E].
  - subst e2. destruct (canonical_facts m1 e1 H1) as [He1 _].
    unfold scaled.
    pose proof (Z.pow_pos_nonneg 2 (e1 - emin) ltac:(lia) ltac:(lia)) as HP.
    change (Pos.compare_cont Eq m1 m2) with (Zpos m1 ?= Zpos m2).
    symmetry.
    destruct (Z.compare_spec (Zpos m1) (Zpos m2)) as [E|E|E].
    + apply Z.compare_eq_iff. now rewrite E.
    + apply Z.compare_lt_iff. apply Z.mul_lt_mono_pos_r; lia.
    + apply Z.compare_gt_iff. apply Z.mul_lt_mono_pos_r; lia.
  - symmetry. apply Z.compare_lt_iff. now apply scaled_lt.
  - symmetry. apply Z.compare_gt_iff. now apply scaled_lt.
Qed.

Lemma regular_finite_facts (s : bool) (m : positive) (e : Z) :
  regular prec emax (S754_finite s m e) = true ->
  canonical_mantissa prec emax m e = true /\ e <= emax - prec /\ emin <= e.
Proof.
  unfold regular, valid_binary, bounded. rewrite andb_true_r.
  intros H. apply andb_true_iff in H. destruct H as [Hc Hb].
  apply Z.leb_le in Hb. destruct (canonical_facts m e Hc) as [He _]. auto.
Qed.

(** On the finite floats of the format, comparison is comparison of values. *)
Lemma SFcompare_value (x y : spec_float) :
  regular prec emax x = true -> regular prec emax y = true ->
  SFcompare x y = Some (value prec emax x ?= value prec emax y).
Proof.
  intros Hx Hy.
  destruct x as [sx|sx| |sx mx ex], y as [sy|sy| |sy my ey];
    try discriminate Hx; try discriminate Hy; cbn [SFcompare value].
  - reflexivity.
  - destruct (regular_finite_facts _ _ _ Hy) as [_ [_ He]].
    pose proof (scaled_pos my ey He). f_equal. symmetry.
    destruct sy; cbn [cond_Zopp]; [apply Z.compare_gt_iff|apply Z.compare_lt_iff]; lia.
  - destruct (regular_finite_facts _ _ _ Hx) as [_ [_ He]].
    pose proof (scaled_pos mx ex He). f_equal. symmetry.
    destruct sx; cbn [cond_Zopp]; [apply Z.compare_lt_iff|apply Z.compare_gt_iff]; lia.
  - destruct (regular_finite_facts _ _ _ Hx) as [Hcx [_ Hex]].
    destruct (regular_finite_facts _ _ _ Hy) as [Hcy [_ Hey]].
    pose proof (scaled_pos mx ex Hex). pose proof (scaled_pos my ey Hey).
    pose proof (compare_scaled mx my ex ey Hcx Hcy) as Hc.
    f_equal. destruct sx, sy; cbn [cond_Zopp].
    + rewrite Z.compare_opp.
      rewrite (Z.compare_antisym (scaled prec emax mx ex) (scaled prec emax my ey)), <- Hc.
      destruct (ex ?= ey); reflexivity.
    + symmetry. apply Z.compare_lt_iff. lia.
    + symmetry. apply Z.compare_gt_iff. lia.
    + exact Hc.
Qed.

Lemma SFleb_value (x y : spec_float) :
  regular prec emax x = true -> regular prec emax y = true ->
  SFleb x y = true <-> value prec emax x <= value prec emax y.
Proof.
  intros Hx Hy. unfold SFleb. rewrite (SFcompare_value x y Hx Hy).
  destruct (Z.compare_spec (value prec emax x) (value prec emax y)); split; intros; try lia;
    try reflexivity; discriminate.
Qed.

Lemma SFltb_value (x y : spec_float) :
  regular prec emax x = true -> regular prec emax y = true ->
  SFltb x y = true <-> value prec emax x < value prec emax y.
Proof.
  intros Hx Hy. unfold SFltb. rewrite (SFcompare_value x y Hx Hy).
  destruct (Z.compare_spec (value prec emax x) (value prec emax y)); split; intros; try lia;
    try reflexivity; discriminate.
Qed.

Lemma SFeqb_value (x y : spec_float) :
  regular prec emax x = true -> regular prec emax y = true ->
  SFeqb x y = true <-> value prec emax x = value prec emax y.
Proof.
  intros Hx Hy. unfold SFeqb. rewrite (SFcompare_value x y Hx Hy).
  destruct (Z.compare_spec (value prec emax x) (value prec emax y)); split; intros; try lia;
    try reflexivity; discriminate.
Qed.
End Comparison.

(** *** Subtraction *)

Lemma iter_xO (m d : positive) : Zpos (Pos.iter xO m d) = Zpos m * 2 ^ Zpos d.
Proof.
  induction d as [|d IH] using Pos.peano_ind.
  - simpl. lia.
  - rewrite Pos.iter_succ, Pos2Z.inj_xO, IH, Pos2Z.inj_succ, Z.pow_succ_r by lia.
    ring.
Qed.

Lemma shl_align_spec (m : positive) (e e' : Z) :
  e' <= e ->
  snd (shl_align m e e') = e'
  /\ Zpos (fst (shl_align m e e')) = Zpos m * 2 ^ (e - e').
Proof.
  intros He. unfold shl_align.
  destruct (e' - e) as [|d|d] eqn:E; try lia; cbn [fst snd].
  - assert (e = e') by lia. subst. rewrite Z.sub_diag. simpl. lia.
  - split; [reflexivity|]. rewrite iter_xO. f_equal. f_equal. lia.
Qed.

Lemma shl_align_id (m : positive) (e e' : Z) :
  e <= e' -> shl_align m e e' = (m, e).
Proof.
  intros He. unfold shl_align.
  destruct (e' - e) as [|d|d] eqn:E; try lia; reflexivity.
Qed.

(** Sign classes of a result. *)
Section Subtraction.
Variables prec emax : Z.
Hypothesis Hprec : 1 < prec.
Hypothesis Hemax : prec < emax.

Local Abbreviation fexp := (SpecFloat.fexp prec emax) (only parsing).
Local Abbreviation emin := (SpecFloat.emin prec emax) (only parsing).

(** Rounding a positive integer multiple of a representable power of two
    gives a valid float that is not zero and carries the sign asked for. *)
Lemma binary_round_spec (s : bool) (p : positive) (e : Z) :
  emin <= e ->
  let r := binary_round prec emax s p e in
  valid_binary prec emax r = true
  /\ ((exists m' e', r = S754_finite s m' e') \/ r = S754_infinity s).
Proof.
  intros He r. subst r. unfold binary_round.
  set (et := fexp (Zpos (digits2_pos p) + e)).
  destruct (Z_lt_le_dec et e) as [Hlt|Hge].
  - (* too few digits: align to the left first *)
    destruct (shl_align_spec p e et ltac:(lia)) as [Hs Hf].
    destruct (shl_align p e et) as [mz ez]. cbn [fst snd] in Hs, Hf. subst ez.
    assert (Hd : Zdigits2 (Zpos mz) + et = Zpos (digits2_pos p) + e).
    { rewrite Hf. rewrite Zdigits2_mul_pow by lia. simpl Zdigits2. lia. }
    pose proof (binary_round_aux_spec prec emax Hprec s (Zpos mz) et loc_Exact
                  ltac:(lia)) as H.
    rewrite Hd in H. fold et in H. specialize (H ltac:(lia)).
    cbv zeta in H. rewrite Z.sub_diag in H. change (2 ^ 0) with 1 in H.
    rewrite Z.div_1_r in H.
    destruct H as [mr [Hmr [_ [[E _]|[Hpos [m2 [He2 [Hmul [Hcan Hr]]]]]]]]]; [lia|].
    rewrite Hr. destruct (_ <=? _) eqn:Eb.
    + split; [|left; eauto]. cbn. unfold bounded. now rewrite Hcan, Eb.
    + split; [reflexivity|now right].
  - rewrite (shl_align_id p e et Hge).
    pose proof (binary_round_aux_spec prec emax Hprec s (Zpos p) e loc_Exact
                  ltac:(lia)) as H.
    simpl Zdigits2 in H. fold et in H. specialize (H Hge). cbv zeta in H.
    assert (Hm1 : 0 < Zpos p / 2 ^ (et - e)).
    { assert (Hn : 0 <= et - e < Zdigits2 (Zpos p)).
      { split; [lia|]. simpl Zdigits2. subst et.
        rewrite (fexp_eq prec emax) in *. lia. }
      now destruct (Zdigits2_div_pow (Zpos p) (et - e) ltac:(lia) Hn). }
    destruct H as [mr [Hmr [_ [[E _]|[Hpos [m2 [He2 [Hmul [Hcan Hr]]]]]]]]]; [lia|].
    rewrite Hr. destruct (_ <=? _) eqn:Eb.
    + split; [|left; eauto]. cbn. unfold bounded. now rewrite Hcan, Eb.
    + split; [reflexivity|now right].
Qed.

Lemma aligned_value (s : bool) (m : positive) (e ez : Z) :
  emin <= ez -> ez <= e ->
  cond_Zopp s (Zpos (fst (shl_align m e ez))) * 2 ^ (ez - emin)
  = value prec emax (S754_finite s m e).
Proof.
  intros Hz He. destruct (shl_align_spec m e ez He) as [_ Hf].
  rewrite Hf. cbn [value]. unfold scaled.
  replace (e - emin) with (e - ez + (ez - emin)) by lia.
  rewrite Z.pow_add_r by lia. destruct s; cbn [cond_Zopp]; ring.
Qed.

(** Subtraction of two finite floats of the format: the result is a float
    of the format or an infinity, and its sign class is that of the
    difference of the values. *)
Lemma SFsub_spec (x y : spec_float) :
  regular prec emax x = true -> regular prec emax y = true ->
  let r := SFsub prec emax x y in
  valid_binary prec emax r = true
  /\ (value prec emax y < value prec emax x -> is_pos r = true)
  /\ (value prec emax y = value prec emax x -> is_zero r = true).
Proof.
  intros Hx Hy r. subst r.
  destruct x as [sx|sx| |sx mx ex], y as [sy|sy| |sy my ey];
    try discriminate Hx; try discriminate Hy.
  - cbn [value]. destruct sx, sy; cbn; repeat split; auto; lia.
  - destruct (regular_finite_facts prec emax _ _ _ Hy) as [Hc [Hb He]].
    pose proof (scaled_pos prec emax my ey He).
    cbn [SFsub value]. split; [|split].
    + unfold regular in Hy. now apply andb_true_iff in Hy.
    + destruct sy; cbn [cond_Zopp negb is_pos]; [reflexivity|lia].
    + destruct sy; cbn [cond_Zopp]; lia.
  - destruct (regular_finite_facts prec emax _ _ _ Hx) as [Hc [Hb He]].
    pose proof (scaled_pos prec emax mx ex He).
    cbn [SFsub value]. split; [|split].
    + unfold regular in Hx. now apply andb_true_iff in Hx.
    + destruct sx; cbn [cond_Zopp is_pos]; [lia|reflexivity].
    + destruct sx; cbn [cond_Zopp]; lia.
  - destruct (regular_finite_facts prec emax _ _ _ Hx) as [Hcx [Hbx Hex]].
    destruct (regular_finite_facts prec emax _ _ _ Hy) as [Hcy [Hby Hey]].
    cbn [SFsub].
    set (ez := Z.min ex ey).
    pose proof (aligned_value sx mx ex ez ltac:(lia) ltac:(lia)) as Hvx.
    pose proof (aligned_value sy my ey ez ltac:(lia) ltac:(lia)) as Hvy.
    set (X := cond_Zopp sx (Zpos (fst (shl_align mx ex ez)))) in *.
    set (Y := cond_Zopp sy (Zpos (fst (shl_align my ey ez)))) in *.
    pose proof (Z.pow_pos_nonneg 2 (ez - emin) ltac:(lia) ltac:(lia)) as HP.
    rewrite <- Hvx, <- Hvy.
    destruct (X - Y) as [|d|d] eqn:ED; cbn [binary_normalize].
    + split; [reflexivity|]. split; [nia|reflexivity].
    + destruct (binary_round_spec false d ez ltac:(lia)) as [Hv Hs].
      split; [exact Hv|]. split.
      * intros _. destruct Hs as [[m' [e' ->]]| ->]; reflexivity.
      * intros E. assert (X = Y) by nia. lia.
    + destruct (binary_round_spec true d ez ltac:(lia)) as [Hv Hs].
      split; [exact Hv|]. split.
      * intros Hlt. assert (Y < X) by nia. lia.
      * intros E. assert (X = Y) by nia. lia.
Qed.
End Subtraction.

(** *** The value of a rounded result; division before rounding *)

Section Rounded.
Variables prec emax : Z.
Hypothesis Hprec : 1 < prec.
Hypothesis Hemax : prec < emax.

Local Abbreviation fexp := (SpecFloat.fexp prec emax) (only parsing).
Local Abbreviation emin := (SpecFloat.emin prec emax) (only parsing).

(** The value of a rounded result that does not overflow. *)
Lemma binary_round_aux_value (sx : bool) (mx ex : Z) (lx : location) :
  0 <= mx -> ex <= fexp (Zdigits2 mx + ex) ->
  let e1 := fexp (Zdigits2 mx + ex) in
  let m1 := mx / 2 ^ (e1 - ex) in
  let r := binary_round_aux prec emax sx mx ex lx in
  exists mr : Z,
    m1 <= mr <= m1 + 1
    /\ (lx = loc_Exact -> (2 ^ (e1 - ex) | mx) -> mr = m1)
    /\ (fexp (Zdigits2 mr + e1) <= emax - prec ->
        regular prec emax r = true
        /\ value prec emax r = cond_Zopp sx (mr * 2 ^ (e1 - emin))).
Proof.
  intros Hmx Hex e1 m1 r.
  destruct (binary_round_aux_spec prec emax Hprec sx mx ex lx Hmx Hex)
    as [mr [Hmr [Hexact Hcases]]].
  exists mr. split; [exact Hmr|]. split; [exact Hexact|].
  intros Hfin. fold e1 in Hcases. fold r in Hcases.
  destruct Hcases as [[E0 Hr]|[Hpos [m2 [He2 [Hmul [Hcan Hr]]]]]].
  - rewrite Hr, E0. split; [reflexivity|]. destruct sx; reflexivity.
  - cbv zeta in Hr, He2, Hmul, Hcan.
    set (e2 := fexp (Zdigits2 mr + e1)) in *.
    apply Z.leb_le in Hfin. rewrite Hfin in Hr. rewrite Hr.
    split.
    + unfold regular. cbn. unfold bounded. now rewrite Hcan, Hfin.
    + cbn [value]. unfold scaled. f_equal. rewrite <- Hmul.
      pose proof (fexp_ge_emin prec emax (Zdigits2 mx + ex)) as Hge.
      change (emin <= e1) in Hge.
      replace (e2 - emin) with (e2 - e1 + (e1 - emin)) by lia.
      rewrite Z.pow_add_r by lia. ring.
Qed.

(** The literal 1. *)
Lemma one_spec :
  let one := binary_normalize prec emax 1 0 false in
  regular prec emax one = true /\ value prec emax one = 2 ^ (- emin).
Proof.
  cbv zeta. cbn [binary_normalize]. unfold binary_round.
  change (Zpos (digits2_pos 1) + 0) with 1.
  assert (Het : fexp 1 = 1 - prec).
  { rewrite (fexp_eq prec emax), (emin_eq prec emax). lia. }
  rewrite Het.
  destruct (shl_align_spec 1 0 (1 - prec) ltac:(lia)) as [Hs Hf].
  destruct (shl_align 1 0 (1 - prec)) as [mz ez]. cbn [fst snd] in Hs, Hf.
  subst ez. rewrite Z.mul_1_l in Hf.
  replace (0 - (1 - prec)) with (prec - 1) in Hf by lia.
  assert (Hd : Zdigits2 (Zpos mz) = prec).
  { rewrite Hf. apply Zdigits2_unique.
    - apply Z.pow_pos_nonneg; lia.
    - split; [lia|]. apply Z.pow_lt_mono_r; lia. }
  pose proof (binary_round_aux_value false (Zpos mz) (1 - prec) loc_Exact
                ltac:(lia)) as H.
  rewrite Hd in H. replace (prec + (1 - prec)) with 1 in H by lia.
  rewrite Het in H. specialize (H ltac:(lia)). cbv zeta in H.
  rewrite Z.sub_diag in H. change (2 ^ 0) with 1 in H. rewrite Z.div_1_r in H.
  destruct H as [mr [_ [Hexact Hval]]].
  specialize (Hexact eq_refl (Z.divide_1_l _)). subst mr.
  rewrite Hd in Hval. replace (prec + (1 - prec)) with 1 in Hval by lia.
  rewrite Het in Hval. specialize (Hval ltac:(lia)).
  destruct Hval as [Hreg Hval]. split; [exact Hreg|].
  rewrite Hval. cbn [cond_Zopp]. rewrite Hf, <- Z.pow_add_r.
  - f_equal. lia.
  - lia.
  - rewrite (emin_eq prec emax). lia.
Qed.

(** The quotient and the position the division core hands to the rounding. *)
Lemma SFdiv_core_spec (m1 m2 : positive) (e1 e2 : Z) :
  let e' := Z.min (fexp (Zpos (digits2_pos m1) + e1 - (Zpos (digits2_pos m2) + e2)))
                  (e1 - e2) in
  let s := e1 - e2 - e' in
  let N := Zpos m1 * 2 ^ s in
  exists l : location,
    SFdiv_core_binary prec emax (Zpos m1) e1 (Zpos m2) e2 = (N / Zpos m2, e', l)
    /\ (N mod Zpos m2 = 0 -> l = loc_Exact).
Proof.
  intros e' s N. unfold SFdiv_core_binary. cbn [Zdigits2]. fold e'. fold s.
  assert (Hs : 0 <= s) by (subst s e'; lia).
  assert (Hm : match s with
               | 0 => Zpos m1
               | Zpos _ => Z.shiftl (Zpos m1) s
               | Zneg _ => 0
               end = N).
  { subst N. clearbody s.
    destruct s as [|p|p];
      [change (2 ^ 0) with 1; ring|now rewrite Z.shiftl_mul_pow2 by lia|lia]. }
  rewrite Hm. unfold Z.div, Z.modulo.
  destruct (Z.div_eucl N (Zpos m2)) as [q r]. cbn [fst snd].
  eexists. split; [reflexivity|].
  intros ->. unfold new_location, new_location_even, new_location_odd.
  destruct (Z.even (Zpos m2)); reflexivity.
Qed.

(** The core leaves enough digits for the rounding. *)
Lemma SFdiv_core_digits (m1 m2 : positive) (e1 e2 : Z) :
  let e' := Z.min (fexp (Zpos (digits2_pos m1) + e1 - (Zpos (digits2_pos m2) + e2)))
                  (e1 - e2) in
  let s := e1 - e2 - e' in
  let q := Zpos m1 * 2 ^ s / Zpos m2 in
  0 <= q /\ e' <= fexp (Zdigits2 q + e').
Proof.
  intros e' s q.
  set (d1 := Zpos (digits2_pos m1)) in *. set (d2 := Zpos (digits2_pos m2)) in *.
  set (K := d1 + e1 - (d2 + e2)) in *.
  assert (Hs : 0 <= s) by (subst s e'; lia).
  pose proof (Z.pow_pos_nonneg 2 s ltac:(lia) Hs) as HP.
  pose proof (digits2_pos_bounds m1) as [Hlo1 Hhi1]. fold d1 in Hlo1, Hhi1.
  pose proof (digits2_pos_bounds m2) as [Hlo2 Hhi2]. fold d2 in Hlo2, Hhi2.
  assert (Hd1 : 0 < d1) by (subst d1; lia).
  assert (Hd2 : 0 < d2) by (subst d2; lia).
  assert (Hq : 0 <= q) by (apply Z.div_pos; lia).
  split; [exact Hq|].
  assert (HN : 2 ^ (d1 - 1 + s) <= Zpos m1 * 2 ^ s).
  { rewrite Z.pow_add_r by lia. apply Z.mul_le_mono_nonneg_r; lia. }
  pose proof (Z.div_mod (Zpos m1 * 2 ^ s) (Zpos m2) ltac:(lia)) as Hdm.
  pose proof (Z.mod_pos_bound (Zpos m1 * 2 ^ s) (Zpos m2) ltac:(lia)) as Hmod.
  fold q in Hdm.
  assert (Hlt : 2 ^ (d1 - 1 + s) < (q + 1) * 2 ^ d2).
  { assert (Zpos m1 * 2 ^ s < (q + 1) * Zpos m2) by nia.
    assert ((q + 1) * Zpos m2 < (q + 1) * 2 ^ d2)
      by (apply Z.mul_lt_mono_pos_l; lia).
    lia. }
  assert (He'K : e' <= fexp K) by (subst e'; lia).
  assert (HsK : s + e' = e1 - e2) by (subst s; lia).
  destruct (Z.eq_dec q 0) as [E|E].
  - (* the quotient is zero: the position is at most the smallest exponent *)
    rewrite E in *. simpl Zdigits2.
    assert (d1 - 1 + s < d2).
    { apply (Z.pow_lt_mono_r_iff 2); lia. }
    rewrite (fexp_eq prec emax) in *. lia.
  - assert (Hdq : d1 + s - d2 <= Zdigits2 q).
    { pose proof (Zdigits2_pos q ltac:(lia)).
      destruct (Z_le_gt_dec (d1 + s - d2) 0) as [Hle|Hgt]; [lia|].
      apply Zdigits2_ge; [|lia].
      replace (d1 - 1 + s) with (d1 + s - d2 - 1 + d2) in Hlt by lia.
      rewrite Z.pow_add_r in Hlt by lia.
      pose proof (Z.pow_pos_nonneg 2 d2 ltac:(lia) ltac:(lia)).
      pose proof (Z.pow_pos_nonneg 2 (d1 + s - d2 - 1) ltac:(lia) ltac:(lia)).
      nia. }
    etransitivity; [exact He'K|]. apply fexp_mono. subst K. lia.
Qed.
End Rounded.

(** *** Division *)

Section Division.
Variables prec emax : Z.
Hypothesis Hprec : 1 < prec.
Hypothesis Hemax : prec < emax.

Local Abbreviation fexp := (SpecFloat.fexp prec emax) (only parsing).
Local Abbreviation emin := (SpecFloat.emin prec emax) (only parsing).

Lemma Zdigits2_le_pow (q k : Z) : 0 <= q <= 2 ^ k -> 0 <= k -> Zdigits2 q <= k + 1.
Proof.
  intros [Hq Hle] Hk. destruct (Z.eq_dec q 0) as [->|E]; [simpl; lia|].
  apply Zdigits2_le; [lia| |lia].
  rewrite Z.pow_add_r by lia. change (2 ^ 1) with 2.
  pose proof (Z.pow_pos_nonneg 2 k ltac:(lia) Hk). lia.
Qed.

(** Division of a finite float of the format by a larger positive one:
    the quotient is a float of the format between 0 and 1, and it is 1
    when the operands are equal. *)
Lemma SFdiv_spec (x d : spec_float) :
  regular prec emax x = true -> regular prec emax d = true ->
  0 < value prec emax d ->
  0 <= value prec emax x <= value prec emax d ->
  let r := SFdiv prec emax x d in
  regular prec emax r = true
  /\ 0 <= value prec emax r <= 2 ^ (- emin)
  /\ (value prec emax x = value prec emax d -> value prec emax r = 2 ^ (- emin))
  /\ (value prec emax x = 0 -> value prec emax r = 0).
Proof.
  intros Hx Hd Hdpos [Hx0 Hxd] r. subst r.
  assert (Hemin : emin <= 0) by (rewrite (emin_eq prec emax); lia).
  pose proof (Z.pow_pos_nonneg 2 (- emin) ltac:(lia) ltac:(lia)) as Hone.
  destruct d as [sd|sd| |sd md ed]; try discriminate Hd; cbn [value] in Hdpos;
    [lia|].
  destruct (regular_finite_facts prec emax _ _ _ Hd) as [Hcd [Hbd Hed]].
  pose proof (scaled_pos prec emax md ed Hed) as Hsd.
  destruct sd; cbn [cond_Zopp] in Hdpos; [lia|]. cbn [value cond_Zopp] in Hxd.
  destruct x as [sx|sx| |sx mx ex]; try discriminate Hx.
  { cbn [SFdiv value cond_Zopp]. repeat split; try reflexivity; try lia. }

  destruct (regular_finite_facts prec emax _ _ _ Hx) as [Hcx [Hbx Hex]].
  pose proof (scaled_pos prec emax mx ex Hex) as Hsx.
  cbn [value] in Hx0, Hxd |- *.
  destruct sx; cbn [cond_Zopp] in Hx0, Hxd |- *; [lia|].
  cbn [SFdiv].
  destruct (SFdiv_core_spec prec emax mx md ex ed) as [l [Hcore Hl]].
  destruct (SFdiv_core_digits prec emax Hprec mx md ex ed) as [Hq Hpre].
  cbv zeta in Hcore, Hl, Hq, Hpre. rewrite Hcore. cbn [xorb].
  set (ec := Z.min (fexp (Zpos (digits2_pos mx) + ex - (Zpos (digits2_pos md) + ed)))
                   (ex - ed)) in *.
  set (s := ex - ed - ec) in *.
  set (N := Zpos mx * 2 ^ s) in *.
  set (q := N / Zpos md) in *.
  (* the exponents are ordered as the values are *)
  assert (Hexd : ex <= ed).
  { destruct (Z_le_gt_dec ex ed) as [H|H]; [exact H|].
    pose proof (scaled_lt prec emax Hprec md mx ed ex Hcd Hcx ltac:(lia)). lia. }
  assert (Hec : ec <= 0) by (subst ec; lia).
  assert (Hs : 0 <= s) by (subst s ec; lia).
  (* the numerator against the denominator times 2^(-ec) *)
  assert (HB : Zpos md * 2 ^ (- ec) * 2 ^ (ex - emin) = scaled prec emax md ed * 2 ^ s).
  { unfold scaled. rewrite <- !Z.mul_assoc, <- !Z.pow_add_r by lia.
    f_equal. f_equal. subst s. lia. }
  assert (HN : N * 2 ^ (ex - emin) = scaled prec emax mx ex * 2 ^ s).
  { unfold scaled. subst N. ring. }
  pose proof (Z.pow_pos_nonneg 2 s ltac:(lia) Hs) as HPs.
  pose proof (Z.pow_pos_nonneg 2 (ex - emin) ltac:(lia) ltac:(lia)) as HPe.
  pose proof (Z.pow_pos_nonneg 2 (- ec) ltac:(lia) ltac:(lia)) as HPc.
  assert (HNB : N <= Zpos md * 2 ^ (- ec)).
  { apply (Z.mul_le_mono_pos_r _ _ (2 ^ (ex - emin)) HPe).
    rewrite HN, HB. apply Z.mul_le_mono_nonneg_r; lia. }
  assert (HNlt : scaled prec emax mx ex <> scaled prec emax md ed ->
                 N < Zpos md * 2 ^ (- ec)).
  { intros E. apply (Z.mul_lt_mono_pos_r (2 ^ (ex - emin)) _ _ HPe).
    rewrite HN, HB. apply Z.mul_lt_mono_pos_r; lia. }
  assert (HNeq : scaled prec emax mx ex = scaled prec emax md ed ->
                 N = 2 ^ (- ec) * Zpos md).
  { intros E. apply (Z.mul_cancel_r _ _ (2 ^ (ex - emin))); [lia|].
    rewrite (Z.mul_comm (2 ^ (- ec))), HN, HB, E. reflexivity. }
  assert (HqB : q <= 2 ^ (- ec)).
  { subst q. apply Z.div_le_upper_bound; lia. }
  (* the position after the first shift *)
  destruct (binary_round_aux_value prec emax Hprec false q ec l Hq Hpre)
    as [mr [Hmr [Hexact Hval]]].
  set (e1 := fexp (Zdigits2 q + ec)) in *.
  assert (He1 : emin <= e1 <= 0).
  { split; [apply fexp_ge_emin|].
    pose proof (Zdigits2_le_pow q (- ec) ltac:(lia) ltac:(lia)).
    subst e1. rewrite (fexp_eq prec emax). lia. }
  set (n := e1 - ec) in *.
  assert (Hn : 0 <= n) by (subst n; lia).
  pose proof (Z.pow_pos_nonneg 2 n ltac:(lia) Hn) as HPn.
  pose proof (Z.pow_pos_nonneg 2 (- e1) ltac:(lia) ltac:(lia)) as HPt.
  assert (HBn : 2 ^ (- ec) = 2 ^ n * 2 ^ (- e1)).
  { rewrite <- Z.pow_add_r by lia. f_equal. subst n. lia. }
  assert (Hm1 : q / 2 ^ n <= 2 ^ (- e1)).
  { apply Z.div_le_upper_bound; lia. }
  assert (HmrT : mr <= 2 ^ (- e1)
                 /\ (scaled prec emax mx ex = scaled prec emax md ed ->
                     mr = 2 ^ (- e1))).
  { destruct (Z.eq_dec (scaled prec emax mx ex) (scaled prec emax md ed)) as [E|E].
    - specialize (HNeq E).
      assert (Hqeq : q = 2 ^ (- ec)) by (subst q; rewrite HNeq; apply Z.div_mul; lia).
      assert (Hmod : N mod Zpos md = 0) by (rewrite HNeq; apply Z.mod_mul; lia).
      assert (Hdiv : (2 ^ n | q)) by (exists (2 ^ (- e1)); lia).
      rewrite (Hexact (Hl Hmod) Hdiv).
      rewrite Hqeq, HBn, Z.mul_comm, Z.div_mul by lia. split; [lia|reflexivity].
    - split; [|intros; contradiction].
      specialize (HNlt E).
      assert (q < 2 ^ (- ec)) by (subst q; apply Z.div_lt_upper_bound; lia).
      assert (q / 2 ^ n < 2 ^ (- e1)) by (apply Z.div_lt_upper_bound; lia).
      lia. }
  destruct HmrT as [HmrT HmrE].
  assert (Hmr0 : 0 <= mr).
  { assert (0 <= q / 2 ^ n) by (apply Z.div_pos; lia). lia. }
  assert (Hfin : fexp (Zdigits2 mr + e1) <= emax - prec).
  { pose proof (Zdigits2_le_pow mr (- e1) ltac:(lia) ltac:(lia)).
    rewrite (fexp_eq prec emax), (emin_eq prec emax). lia. }
  destruct (Hval Hfin) as [Hreg Hv]. cbn [cond_Zopp] in Hv.
  pose proof (Z.pow_pos_nonneg 2 (e1 - emin) ltac:(lia) ltac:(lia)) as HPm.
  assert (HT : 2 ^ (- emin) = 2 ^ (- e1) * 2 ^ (e1 - emin)).
  { rewrite <- Z.pow_add_r by lia. f_equal. lia. }
  split; [exact Hreg|]. rewrite Hv, HT. split; [|split].
  - split; [nia|]. apply Z.mul_le_mono_nonneg_r; lia.
  - intros E. now rewrite (HmrE E).
  - intros E. lia.
Qed.
End Division.

(** *** The laws *)

Section Laws.
Variables prec emax : Z.
Hypothesis Hprec : 1 < prec.
Hypothesis Hemax : prec < emax.

Local Abbreviation fexp := (SpecFloat.fexp prec emax) (only parsing).
Local Abbreviation emin := (SpecFloat.emin prec emax) (only parsing).
Local Abbreviation fzero := (S754_zero false) (only parsing).
Local Abbreviation fone := (binary_normalize prec emax 1 0 false) (only parsing).

Lemma regular_zero : regular prec emax fzero = true.
Proof. reflexivity. Qed.

Lemma is_pos_above_zero (r : spec_float) :
  is_pos r = true -> SFltb fzero r = true /\ SFleb fzero r = true.
Proof. destruct r as [s|[|]| |[|] m e]; try discriminate; now split. Qed.

Lemma is_zero_equals_zero (r : spec_float) :
  is_zero r = true -> SFeqb r fzero = true /\ SFleb fzero r = true.
Proof. destruct r as [s|s| |s m e]; try discriminate; now split. Qed.

(** A difference of finite floats has the sign of the comparison of its
    operands: gradual underflow keeps a nonzero difference nonzero. *)
Lemma SFsub_nonneg (x m : spec_float) :
  regular prec emax x = true -> regular prec emax m = true ->
  SFleb m x = true -> SFleb fzero (SFsub prec emax x m) = true.
Proof.
  intros Hx Hm Hle. apply (SFleb_value prec emax Hprec m x Hm Hx) in Hle.
  destruct (SFsub_spec prec emax Hprec x m Hx Hm) as [_ [Hpos Hzero]].
  destruct (Z.eq_dec (value prec emax m) (value prec emax x)) as [E|E].
  - now apply is_zero_equals_zero, Hzero.
  - apply is_pos_above_zero, Hpos. lia.
Qed.

Lemma SFsub_pos (x m : spec_float) :
  regular prec emax x = true -> regular prec emax m = true ->
  SFltb m x = true -> SFltb fzero (SFsub prec emax x m) = true.
Proof.
  intros Hx Hm Hlt. apply (SFltb_value prec emax Hprec m x Hm Hx) in Hlt.
  destruct (SFsub_spec prec emax Hprec x m Hx Hm) as [_ [Hpos _]].
  now apply is_pos_above_zero, Hpos.
Qed.

Lemma SFsub_equal (x m : spec_float) :
  regular prec emax x = true -> regular prec emax m = true ->
  SFeqb x m = true -> SFeqb (SFsub prec emax x m) fzero = true.
Proof.
  intros Hx Hm He. apply (SFeqb_value prec emax Hprec x m Hx Hm) in He.
  destruct (SFsub_spec prec emax Hprec x m Hx Hm) as [_ [_ Hzero]].
  now apply is_zero_equals_zero, Hzero.
Qed.

Lemma SFsub_valid (x m : spec_float) :
  regular prec emax x = true -> regular prec emax m = true ->
  valid_binary prec emax (SFsub prec emax x m) = true.
Proof.
  intros Hx Hm. now destruct (SFsub_spec prec emax Hprec x m Hx Hm).
Qed.

(** A quotient of a non-negative float by a larger one is rounded into
    [[0, 1]]; equal operands divide to one, and zero divides to zero. *)
Lemma SFdiv_unit (x d : spec_float) :
  regular prec emax x = true -> regular prec emax d = true ->
  SFltb fzero d = true -> SFleb fzero x = true -> SFleb x d = true ->
  SFleb fzero (SFdiv prec emax x d) = true
  /\ SFleb (SFdiv prec emax x d) fone = true.
Proof.
  intros Hx Hd Hpos H0 Hle.
  apply (SFltb_value prec emax Hprec _ _ regular_zero Hd) in Hpos.
  apply (SFleb_value prec emax Hprec _ _ regular_zero Hx) in H0.
  apply (SFleb_value prec emax Hprec _ _ Hx Hd) in Hle.
  cbn [value] in Hpos, H0.
  destruct (SFdiv_spec prec emax Hprec Hemax x d Hx Hd Hpos (conj H0 Hle))
    as [Hr [Hv _]].
  destruct (one_spec prec emax Hprec Hemax) as [H1 V1]. cbv zeta in H1, V1.
  split.
  - apply (SFleb_value prec emax Hprec _ _ regular_zero Hr). cbn [value]. lia.
  - apply (SFleb_value prec emax Hprec _ _ Hr H1). rewrite V1. lia.
Qed.

Lemma SFdiv_equal (x d : spec_float) :
  regular prec emax x = true -> regular prec emax d = true ->
  SFltb fzero d = true -> SFeqb x d = true ->
  SFeqb (SFdiv prec emax x d) fone = true.
Proof.
  intros Hx Hd Hpos He.
  apply (SFltb_value prec emax Hprec _ _ regular_zero Hd) in Hpos.
  apply (SFeqb_value prec emax Hprec _ _ Hx Hd) in He.
  cbn [value] in Hpos.
  destruct (SFdiv_spec prec emax Hprec Hemax x d Hx Hd Hpos ltac:(lia))
    as [Hr [_ [Hv _]]].
  destruct (one_spec prec emax Hprec Hemax) as [H1 V1]. cbv zeta in H1, V1.
  apply (SFeqb_value prec emax Hprec _ _ Hr H1). rewrite V1. now apply Hv.
Qed.

Lemma SFdiv_zero (x d : spec_float) :
  regular prec emax x = true -> regular prec emax d = true ->
  SFltb fzero d = true -> SFeqb x fzero = true ->
  SFeqb (SFdiv prec emax x d) fzero = true.
Proof.
  intros Hx Hd Hpos He.
  apply (SFltb_value prec emax Hprec _ _ regular_zero Hd) in Hpos.
  apply (SFeqb_value prec emax Hprec _ _ Hx regular_zero) in He.
  cbn [value] in Hpos, He.
  destruct (SFdiv_spec prec emax Hprec Hemax x d Hx Hd Hpos ltac:(lia))
    as [Hr [_ [_ Hv]]].
  apply (SFeqb_value prec emax Hprec _ _ Hr regular_zero). cbn [value].
  now apply Hv.
Qed.
End Laws.

(** A stored value that [np.isfinite] accepts is a finite float of the
    format. *)
Lemma regular_intro (prec emax : Z) (x : spec_float) :
  valid_binary prec emax x = true ->
  negb (is_nan x) && negb (is_inf x) = true ->
  regular prec emax x = true.
Proof.
  intros Hv Hf. unfold regular. rewrite Hv.
  destruct x; try discriminate Hf; reflexivity.
Qed.

(** Subtraction and division of every binary format with at least two
    bits of precision are lawful; float32 and float64 are such formats. *)
Lemma ieee_rounding (prec emax : Z) :
  1 < prec -> prec < emax -> RoundingLaws (ieee prec emax).
Proof.
  intros Hprec Hemax. split; intros x y Vx Vy Fx Fy;
    pose proof (regular_intro prec emax x Vx Fx) as Rx;
    pose proof (regular_intro prec emax y Vy Fy) as Ry.
  - now apply SFsub_valid.
  - now apply SFsub_nonneg.
  - now apply SFsub_pos.
  - now apply SFsub_equal.
  - now apply SFdiv_unit.
  - now apply SFdiv_equal.
  - now apply SFdiv_zero.
Qed.

Lemma binary32_rounding : RoundingLaws binary32.
Proof. now apply ieee_rounding. Qed.

Lemma binary64_rounding : RoundingLaws binary64.
Proof. now apply ieee_rounding. Qed.
End IEEERounding.

(** ** Pre-emphasis *)

Section PreEmphasis.
Context {F : Type} {D : Dtype F}.
Import PreProcess2.

Lemma pre_emphasis_cons (x0 : F) (xs : list F) (coeff : F) :
  pre_emphasis (x0 :: xs) coeff
  = Ok (x0 :: map (fun ab => subtract (fst ab) (multiply coeff (snd ab)))
                  (combine xs (firstn (length xs) (x0 :: xs)))).
Proof.
  unfold pre_emphasis. cbn [skipn length].
  now replace (S (length xs) - 1) with (length xs) by lia.
Qed.

Lemma shifted_length (x0 : F) (xs : list F) :
  length (combine xs (firstn (length xs) (x0 :: xs))) = length xs.
Proof.
  rewrite length_combine, length_firstn. simpl length. lia.
Qed.

(** C6, amended: on a waveform with at least one sample, pre-emphasis with
    the default coefficient returns an array of the same length whose
    first entry is the first sample and whose entry [i >= 1] is
    [x[i] - 0.5 * x[i-1]].  On the empty waveform it raises. *)
Theorem pre_emphasis_spec (audio_data : list F) (d : F) :
  audio_data <> [] ->
  exists y : list F,
    pre_emphasis audio_data default_coeff = Ok y
    /\ default_coeff = half
    /\ length y = length audio_data
    /\ nth 0 y d = nth 0 audio_data d
    /\ forall i : nat,
         1 <= i < length audio_data ->
         nth i y d
         = subtract (nth i audio_data d)
                    (multiply half (nth (i - 1) audio_data d)).
Proof.
  destruct audio_data as [|x0 xs]; [congruence|]. intros _.
  eexists. split; [apply pre_emphasis_cons|].
  split; [reflexivity|]. split; [|split].
  - simpl. now rewrite length_map, shifted_length.
  - reflexivity.
  - intros i [Hi Hlt]. simpl in Hlt.
    destruct i as [|i]; [lia|]. simpl nth at 1 2.
    replace (S i - 1) with i by lia.
    set (f := fun ab : F * F => subtract (fst ab) (multiply default_coeff (snd ab))).
    rewrite (nth_indep _ d (f (d, d)))
      by (rewrite length_map, shifted_length; lia).
    rewrite (map_nth f), combine_nth
      by (rewrite length_firstn; simpl length; lia).
    unfold f. cbn [fst snd]. unfold default_coeff.
    rewrite nth_firstn.
    destruct (i <? length xs)%nat eqn:E; [reflexivity|].
    apply Nat.ltb_ge in E. lia.
Qed.
End PreEmphasis.

Section Float32.
Import IEEE Run PreProcess2.
#[local] Existing Instance binary32.

(** The clip [1, 2, 4] becomes [1, 1.5, 3]. *)
Example pre_emphasis_float32 :
  pre_emphasis clip32 half = Ok [lit32 1 0; lit32 3 (-1); lit32 3 0].
Proof. reflexivity. Qed.

Lemma pre_emphasis_spec_witness :
  clip32 <> []
  /\ exists y : list spec_float,
       pre_emphasis clip32 default_coeff = Ok y
       /\ default_coeff = half
       /\ length y = length clip32
       /\ nth 0 y zero = nth 0 clip32 zero
       /\ forall i : nat,
            1 <= i < length clip32 ->
            nth i y zero
            = subtract (nth i clip32 zero)
                       (multiply half (nth (i - 1) clip32 zero)).
Proof.
  assert (H : clip32 <> []) by discriminate.
  split; [exact H|].
  exact (pre_emphasis_spec zero H).
Defined.

(** C6 as stated fails on the empty waveform: [audio_data[0]] raises
    [IndexError], so there is no output whose length could equal that of
    the input. *)
Lemma pre_emphasis_empty_raises :
  pre_emphasis [] default_coeff
  = Raise (IndexError "index 0 is out of bounds for axis 0 with size 0")
  /\ ~ exists y : list spec_float,
         pre_emphasis [] default_coeff = Ok y
         /\ length y = length (@nil spec_float).
Proof.
  split; [reflexivity|]. intros [y [E _]]. discriminate E.
Qed.
End Float32.

(** ** [np.sort] *)

Section SortFacts.
Context {F : Type} {D : Dtype F} {O : OrderLaws D}.

Lemma sort_insert_perm (x : F) (l : list F) :
  Permutation (x :: l) (Numpy.sort_insert x l).
Proof.
  induction l as [|y ys IH]; simpl; [reflexivity|].
  destruct (Numpy.sort_lt y x); [|reflexivity].
  rewrite perm_swap. now apply perm_skip.
Qed.

Lemma sort_perm (l : list F) : Permutation l (Numpy.sort l).
Proof.
  induction l as [|x xs IH]; simpl; [constructor|].
  rewrite <- sort_insert_perm. now apply perm_skip.
Qed.

Lemma sort_length (l : list F) : length (Numpy.sort l) = length l.
Proof. symmetry. apply Permutation_length, sort_perm. Qed.

Lemma sort_nil_iff (l : list F) : Numpy.sort l = [] <-> l = [].
Proof.
  split; intros E.
  - apply length_zero_iff_nil. rewrite <- sort_length, E. reflexivity.
  - subst l. reflexivity.
Qed.

Lemma sort_lt_number (x y : F) :
  isnan x = false -> Numpy.sort_lt y x = true -> less_equal y x = true.
Proof.
  unfold Numpy.sort_lt. intros Hx. rewrite Hx, andb_false_l, orb_false_r.
  rewrite ltb_leb. intros E. now apply andb_true_iff in E.
Qed.

Lemma sort_not_lt_number (x y : F) :
  isnan x = false -> isnan y = false ->
  Numpy.sort_lt y x = false -> less_equal x y = true.
Proof.
  unfold Numpy.sort_lt. intros Hx Hy E. apply orb_false_iff in E.
  destruct E as [E _]. rewrite ltb_leb in E.
  destruct (leb_total x y Hx Hy) as [H|H]; [exact H|].
  rewrite H in E. simpl in E. now apply negb_false_iff in E.
Qed.

Lemma sort_insert_hd (y x : F) (l : list F) :
  less_equal y x = true ->
  HdRel (fun a b : F => less_equal a b = true) y l ->
  HdRel (fun a b : F => less_equal a b = true) y (Numpy.sort_insert x l).
Proof.
  intros Hyx Hl. destruct l as [|z zs]; simpl.
  - now constructor.
  - inversion Hl; subst. destruct (Numpy.sort_lt z x); now constructor.
Qed.

Lemma sort_insert_ascending (x : F) (l : list F) :
  isnan x = false -> Forall (fun v => isnan v = false) l ->
  Numpy.ascending l -> Numpy.ascending (Numpy.sort_insert x l).
Proof.
  intros Hx Hl Hs. induction Hs as [|y ys Hys IH Hhd]; simpl.
  - repeat constructor.
  - inversion Hl as [|? ? Hy Hys']; subst.
    destruct (Numpy.sort_lt y x) eqn:E.
    + constructor; [now apply IH|].
      apply sort_insert_hd; [now apply sort_lt_number | exact Hhd].
    + constructor; [now constructor|].
      constructor. now apply sort_not_lt_number.
Qed.

(** Sorting an array without NaN leaves it in ascending order. *)
Lemma sort_ascending (l : list F) :
  Forall (fun v => isnan v = false) l -> Numpy.ascending (Numpy.sort l).
Proof.
  induction 1 as [|x xs Hx Hxs IH]; simpl; [constructor|].
  apply sort_insert_ascending; [exact Hx| |exact IH].
  now rewrite <- (sort_perm xs).
Qed.
End SortFacts.

(** ** The line-spectrum extractor *)

Section Lsf.
Context {F : Type} {D : Dtype F} {L : Lib F}.
Import PreProcess2.

(** The four ways through [compute_lsf], each with the calls and prints
    it makes. *)
Lemma compute_lsf_cases (audio_data : list F) (sample_rate : Z) (order : nat) :
  let p := polynomial (librosa_lpc audio_data 12) in
  let roots := np_roots p in
  compute_lsf audio_data sample_rate order
  = if degenerate_model p then
      ([LibrosaLpc audio_data 12; Stdout warn_polynomial], Ok [])
    else if degenerate_roots roots then
      ([LibrosaLpc audio_data 12; NpRoots p; Stdout warn_roots], Ok [])
    else if no_stable_roots roots then
      ([LibrosaLpc audio_data 12; NpRoots p], Ok [])
    else
      ([LibrosaLpc audio_data 12; NpRoots p],
       Ok (Numpy.sort (map np_angle (stable roots)))).
Proof.
  intros p roots. unfold compute_lsf, bind, call, print, emit, ret.
  cbn [fst snd]. fold p.
  destruct (degenerate_model p); [reflexivity|].
  cbn [fst snd]. fold roots.
  destruct (degenerate_roots roots); [reflexivity|].
  destruct (no_stable_roots roots); reflexivity.
Qed.

(** No root survives the filter exactly when no root has modulus
    strictly below 1. *)
Lemma no_stable_roots_iff (roots : list (complex F)) :
  no_stable_roots roots = true
  <-> forall r, In r roots -> less (np_abs r) one = false.
Proof.
  unfold no_stable_roots, stable. rewrite Nat.eqb_eq, length_zero_iff_nil.
  induction roots as [|r rs IH]; simpl.
  - split; [intros _ r []|reflexivity].
  - destruct (less (np_abs r) one) eqn:E.
    + split; [discriminate|]. intros H.
      specialize (H r (or_introl eq_refl)). congruence.
    + rewrite IH. split.
      * intros H r' [<-|Hin]; [exact E|now apply H].
      * intros H r' Hin. apply H. now right.
Qed.

Lemma compute_lsf_returns (audio_data : list F) (sample_rate : Z) (order : nat) :
  exists lsf : list F,
    outcome (compute_lsf audio_data sample_rate order) = Ok lsf.
Proof.
  rewrite compute_lsf_cases. cbv zeta.
  destruct (degenerate_model _); [|destruct (degenerate_roots _);
    [|destruct (no_stable_roots _)]]; eexists; reflexivity.
Qed.

End Lsf.

(** ** The tests on finiteness *)

Section Finiteness.
Context {F : Type} {D : Dtype F} {L : Lib F}.
Import PreProcess2 Observe.

Lemma not_isfinite_iff (v : F) :
  isfinite v = false <-> isnan v = true \/ isinf v = true.
Proof.
  unfold isfinite. destruct (isnan v), (isinf v); cbn; intuition congruence.
Qed.

(** The test of line 64, [np.any(np.isnan(a)) or np.any(np.isinf(a))]. *)
Lemma guard_true_iff (y : list F) :
  existsb isnan y || existsb isinf y = true
  <-> Exists (fun v => isfinite v = false) y.
Proof.
  rewrite orb_true_iff, !existsb_exists, Exists_exists. split.
  - intros [[v [Hin Hv]]|[v [Hin Hv]]]; exists v; split; auto;
      apply not_isfinite_iff; auto.
  - intros [v [Hin Hv]]. apply not_isfinite_iff in Hv.
    destruct Hv as [Hv|Hv]; [left|right]; exists v; auto.
Qed.

Lemma guard_false_iff (y : list F) :
  existsb isnan y || existsb isinf y = false <-> all_isfinite y.
Proof.
  unfold all_isfinite. split.
  - intros E. apply Forall_forall. intros v Hin.
    destruct (isfinite v) eqn:Ev; [reflexivity|].
    assert (H : existsb isnan y || existsb isinf y = true)
      by (apply guard_true_iff, Exists_exists; eauto).
    congruence.
  - intros Hall. destruct (existsb isnan y || existsb isinf y) eqn:E;
      [|reflexivity].
    apply guard_true_iff, Exists_exists in E. destruct E as [v [Hin Hv]].
    rewrite Forall_forall in Hall. rewrite (Hall v Hin) in Hv. discriminate.
Qed.

Lemma degenerate_model_false_iff (p : list F) :
  degenerate_model p = false <-> all_isfinite p.
Proof.
  unfold degenerate_model. rewrite orb_comm. apply guard_false_iff.
Qed.

Lemma degenerate_model_true_iff (p : list F) :
  degenerate_model p = true <-> Exists (fun v => isfinite v = false) p.
Proof.
  unfold degenerate_model. rewrite orb_comm. apply guard_true_iff.
Qed.

Lemma cisfinite_false_iff (r : complex F) :
  cisfinite r = false <-> cisinf r = true \/ cisnan r = true.
Proof.
  unfold cisfinite, cisinf, cisnan, isfinite.
  destruct (isnan (fst r)), (isinf (fst r)), (isnan (snd r)), (isinf (snd r));
    cbn; intuition congruence.
Qed.

(** The test of line 22, [np.any(np.isinf(roots)) or np.any(np.isnan(roots))],
    finds a root exactly when some root is not finite. *)
Lemma degenerate_roots_true_iff (roots : list (complex F)) :
  degenerate_roots roots = true
  <-> Exists (fun r => cisfinite r = false) roots.
Proof.
  unfold degenerate_roots.
  rewrite orb_true_iff, !existsb_exists, Exists_exists. split.
  - intros [[r [Hin Hr]]|[r [Hin Hr]]]; exists r; split; auto;
      apply cisfinite_false_iff; auto.
  - intros [r [Hin Hr]]. apply cisfinite_false_iff in Hr.
    destruct Hr as [Hr|Hr]; [left|right]; exists r; auto.
Qed.

Lemma degenerate_roots_false_iff (roots : list (complex F)) :
  degenerate_roots roots = false
  <-> Forall (fun r => cisfinite r = true) roots.
Proof.
  split.
  - intros E. apply Forall_forall. intros r Hin.
    destruct (cisfinite r) eqn:Er; [reflexivity|].
    assert (H : degenerate_roots roots = true)
      by (apply degenerate_roots_true_iff, Exists_exists; eauto).
    congruence.
  - intros Hall. destruct (degenerate_roots roots) eqn:E; [|reflexivity].
    apply degenerate_roots_true_iff, Exists_exists in E.
    destruct E as [r [Hin Hr]].
    rewrite Forall_forall in Hall. rewrite (Hall r Hin) in Hr. discriminate.
Qed.
End Finiteness.

(** ** The line-spectrum extractor and the exceptions of its routines *)

Section LsfRaising.
Context {F : Type} {D : Dtype F} {L : Lib F} {R : Raises F}.
Import PreProcess2 Observe.

(** The six ways through [compute_lsf]: an exception of [librosa.lpc] or
    of [np.roots] leaves the function, after the call and before anything
    is printed. *)
Lemma compute_lsf_raising_cases (audio_data : list F) (sample_rate : Z)
  (order : nat) :
  let p := polynomial (librosa_lpc audio_data 12) in
  let roots := np_roots p in
  Raising.compute_lsf audio_data sample_rate order
  = match librosa_lpc_raises audio_data 12 with
    | Some e => ([LibrosaLpc audio_data 12], Raise e)
    | None =>
        if degenerate_model p then
          ([LibrosaLpc audio_data 12; Stdout warn_polynomial], Ok [])
        else
          match np_roots_raises p with
          | Some e => ([LibrosaLpc audio_data 12; NpRoots p], Raise e)
          | None =>
              if degenerate_roots roots then
                ([LibrosaLpc audio_data 12; NpRoots p; Stdout warn_roots],
                 Ok [])
              else if no_stable_roots roots then
                ([LibrosaLpc audio_data 12; NpRoots p], Ok [])
              else
                ([LibrosaLpc audio_data 12; NpRoots p],
                 Ok (Numpy.sort (map np_angle (stable roots))))
          end
    end.
Proof.
  intros p roots.
  unfold Raising.compute_lsf, Raising.attempt, bind, call_fallible, print,
    emit, ret.
  cbn [fst snd].
  destruct (librosa_lpc_raises audio_data 12); [reflexivity|].
  cbn [fst snd]. fold p.
  destruct (degenerate_model p); [reflexivity|].
  cbn [fst snd].
  destruct (np_roots_raises p); [reflexivity|].
  cbn [fst snd]. fold roots.
  destruct (degenerate_roots roots); [reflexivity|].
  destruct (no_stable_roots roots); reflexivity.
Qed.

(** Where neither routine raises, the run is the one of
    [PreProcess2.compute_lsf]. *)
Lemma compute_lsf_raising_returns (audio_data : list F) (sample_rate : Z)
  (order : nat) :
  let p := polynomial (librosa_lpc audio_data 12) in
  librosa_lpc_raises audio_data 12 = None ->
  (all_isfinite p -> np_roots_raises p = None) ->
  Raising.compute_lsf audio_data sample_rate order
  = compute_lsf audio_data sample_rate order.
Proof.
  intros p Hlpc Hroots.
  rewrite compute_lsf_raising_cases, compute_lsf_cases. fold p.
  rewrite Hlpc. destruct (degenerate_model p) eqn:Ep; [reflexivity|].
  now rewrite Hroots by now apply degenerate_model_false_iff.
Qed.

(** An exception of either routine is the outcome of [compute_lsf]. *)
Lemma compute_lsf_propagates (audio_data : list F) (sample_rate : Z)
  (order : nat) (e : exn) :
  let p := polynomial (librosa_lpc audio_data 12) in
  let run := Raising.compute_lsf audio_data sample_rate order in
  (librosa_lpc_raises audio_data 12 = Some e ->
   run = ([LibrosaLpc audio_data 12], Raise e))
  /\ (librosa_lpc_raises audio_data 12 = None -> all_isfinite p ->
      np_roots_raises p = Some e ->
      run = ([LibrosaLpc audio_data 12; NpRoots p], Raise e)).
Proof.
  intros p run. subst run. rewrite compute_lsf_raising_cases. fold p. split.
  - now intros ->.
  - intros -> Hp ->. apply degenerate_model_false_iff in Hp. now rewrite Hp.
Qed.

(** C1, as the code has it: when [librosa.lpc] and [np.roots] return,
    [compute_lsf] returns; its result is empty exactly when some
    coefficient of the polynomial is not finite, or some root is not
    finite, or no root has modulus strictly below 1; otherwise it is the
    non-empty sorted array of the angles of the roots of modulus below 1.
    The three tests run in that order: a polynomial with a coefficient
    that is not finite is reported before the root finder is called, and a
    root that is not finite before the filter. *)
Theorem compute_lsf_guards (audio_data : list F) (sample_rate : Z)
  (order : nat) :
  let p := polynomial (librosa_lpc audio_data 12) in
  let roots := np_roots p in
  let inside := filter (fun r => less (np_abs r) one) roots in
  let run := Raising.compute_lsf audio_data sample_rate order in
  librosa_lpc_raises audio_data 12 = None ->
  (Forall (fun v => isfinite v = true) p -> np_roots_raises p = None) ->
  exists lsf : list F,
    outcome run = Ok lsf
    /\ (lsf = [] <->
        Exists (fun v => isfinite v = false) p
        \/ Exists (fun r => cisfinite r = false) roots
        \/ (forall r, In r roots -> less (np_abs r) one = false))
    /\ (lsf <> [] ->
        lsf = Numpy.sort (map np_angle inside)
        /\ Permutation lsf (map np_angle inside))
    /\ (Exists (fun v => isfinite v = false) p ->
        trace run = [LibrosaLpc audio_data 12; Stdout warn_polynomial])
    /\ (Forall (fun v => isfinite v = true) p ->
        Exists (fun r => cisfinite r = false) roots ->
        trace run = [LibrosaLpc audio_data 12; NpRoots p; Stdout warn_roots])
    /\ (Forall (fun v => isfinite v = true) p ->
        Forall (fun r => cisfinite r = true) roots ->
        trace run = [LibrosaLpc audio_data 12; NpRoots p]).
Proof.
  intros p roots inside run Hlpc Hroots. subst run.
  rewrite (compute_lsf_raising_returns audio_data sample_rate order Hlpc Hroots).
  rewrite compute_lsf_cases. fold p. fold roots.
  change (stable roots) with inside.
  pose proof (no_stable_roots_iff roots) as [Hs1 Hs2].
  pose proof (degenerate_model_true_iff p) as [Hp1 Hp2].
  pose proof (degenerate_roots_true_iff roots) as [Hr1 Hr2].
  assert (Hpf : Forall (fun v => isfinite v = true) p ->
                degenerate_model p = false)
    by apply degenerate_model_false_iff.
  assert (Hrf : Forall (fun r => cisfinite r = true) roots ->
                degenerate_roots roots = false)
    by apply degenerate_roots_false_iff.
  destruct (degenerate_model p) eqn:Ep.
  { exists []. cbn [outcome trace fst snd].
    split; [reflexivity|]. split; [|split; [|split; [|split]]].
    - split; [intros _; left; exact (Hp1 eq_refl)|reflexivity].
    - intros Hn. now contradiction Hn.
    - reflexivity.
    - intros Hf. specialize (Hpf Hf). discriminate.
    - intros Hf. specialize (Hpf Hf). discriminate. }
  destruct (degenerate_roots roots) eqn:Er.
  { exists []. cbn [outcome trace fst snd].
    split; [reflexivity|]. split; [|split; [|split; [|split]]].
    - split; [intros _; right; left; exact (Hr1 eq_refl)|reflexivity].
    - intros Hn. now contradiction Hn.
    - intros Hf. specialize (Hp2 Hf). discriminate.
    - reflexivity.
    - intros _ Hf. specialize (Hrf Hf). discriminate. }
  destruct (no_stable_roots roots) eqn:Es.
  { exists []. cbn [outcome trace fst snd].
    split; [reflexivity|]. split; [|split; [|split; [|split]]].
    - split; [intros _; right; right; exact (Hs1 eq_refl)|reflexivity].
    - intros Hn. now contradiction Hn.
    - intros Hf. specialize (Hp2 Hf). discriminate.
    - intros _ Hf. specialize (Hr2 Hf). discriminate.
    - reflexivity. }
  exists (Numpy.sort (map np_angle inside)). cbn [outcome trace fst snd].
  assert (Hne : Numpy.sort (map np_angle inside) <> []).
  { intros E. apply (proj1 (sort_nil_iff _)) in E. apply map_eq_nil in E.
    unfold no_stable_roots in Es. fold inside in Es. unfold stable in Es.
    fold inside in Es. rewrite E in Es. discriminate. }
  split; [reflexivity|]. split; [|split; [|split; [|split]]].
  - split; [intros E; contradiction (Hne E)|].
    intros [H|[H|H]].
    + specialize (Hp2 H). discriminate.
    + specialize (Hr2 H). discriminate.
    + specialize (Hs2 H). discriminate.
  - intros _. split; [reflexivity|]. symmetry. apply sort_perm.
  - intros H. specialize (Hp2 H). discriminate.
  - intros _ H. specialize (Hr2 H). discriminate.
  - reflexivity.
Qed.
End LsfRaising.

Section LsfRaisingRun.
Import IEEE Run Clips PreProcess2.
#[local] Existing Instance binary64.
#[local] Existing Instance Run.lib.
#[local] Existing Instance Clips.raises.

(** On the recorded waveform, which is finite, both routines return. *)
Lemma compute_lsf_guards_witness :
  let p := polynomial (librosa_lpc audio_a 12) in
  let roots := np_roots p in
  let inside := filter (fun r => less (np_abs r) one) roots in
  let run := Raising.compute_lsf audio_a 16000 10 in
  exists lsf : list spec_float,
    outcome run = Ok lsf
    /\ (lsf = [] <->
        Exists (fun v => isfinite v = false) p
        \/ Exists (fun r => cisfinite r = false) roots
        \/ (forall r, In r roots -> less (np_abs r) one = false))
    /\ (lsf <> [] ->
        lsf = Numpy.sort (map np_angle inside)
        /\ Permutation lsf (map np_angle inside))
    /\ (Exists (fun v => isfinite v = false) p ->
        trace run = [LibrosaLpc audio_a 12; Stdout warn_polynomial])
    /\ (Forall (fun v => isfinite v = true) p ->
        Exists (fun r => cisfinite r = false) roots ->
        trace run = [LibrosaLpc audio_a 12; NpRoots p; Stdout warn_roots])
    /\ (Forall (fun v => isfinite v = true) p ->
        Forall (fun r => cisfinite r = true) roots ->
        trace run = [LibrosaLpc audio_a 12; NpRoots p]).
Proof.
  apply (compute_lsf_guards audio_a 16000 10).
  - reflexivity.
  - intros _. reflexivity.
Defined.

(** On a waveform with a NaN, [librosa.lpc] raises and so does
    [compute_lsf]: it returns neither an empty array nor angles. *)
Lemma compute_lsf_raises_on_nan :
  Raising.compute_lsf nan_clip 16000 10
  = ([LibrosaLpc nan_clip 12],
     Raise (LibraryError "Audio buffer is not finite everywhere"))
  /\ ~ (exists lsf : list spec_float,
          outcome (Raising.compute_lsf nan_clip 16000 10) = Ok lsf).
Proof.
  assert (H : Raising.compute_lsf nan_clip 16000 10
              = ([LibrosaLpc nan_clip 12],
                 Raise (LibraryError "Audio buffer is not finite everywhere")))
    by (vm_compute; reflexivity).
  split; [exact H|]. rewrite H. intros [lsf E]. discriminate.
Qed.
End LsfRaisingRun.

Section LsfOrder.
Context {F : Type} {D : Dtype F} {L : Lib F}.
Import PreProcess2.

(** C4, as the code has it: the [order] argument of [compute_lsf] is never
    read.  Whatever the caller passes, and in particular with the default
    [order=10], the one linear-prediction call is made with [order=12]. *)
Theorem compute_lsf_ignores_order (audio_data : list F) (sample_rate : Z)
  (order : nat) :
  default_order = 10
  /\ compute_lsf audio_data sample_rate order
     = compute_lsf audio_data sample_rate default_order
  /\ exists rest : list (event F),
       trace (compute_lsf audio_data sample_rate default_order)
       = LibrosaLpc audio_data 12 :: rest
       /\ forall y n, ~ In (LibrosaLpc y n) rest.
Proof.
  split; [reflexivity|]. split; [reflexivity|].
  rewrite compute_lsf_cases.
  destruct (degenerate_model _); [|destruct (degenerate_roots _);
    [|destruct (no_stable_roots _)]];
    (eexists; split; [reflexivity|]);
    intros y n; simpl; intros H;
    repeat (destruct H as [H|H]; [discriminate H|]); exact H.
Qed.

(** C3, as the code has it: [librosa.lpc(y, order=12)] already returns the
    13 coefficients [1, a_1, ..., a_12], so the polynomial handed to the
    root finder is [1, -1, -a_1, ..., -a_12]: 14 coefficients, degree 13,
    and its coefficient of [z^12] is [-1], not [-a_1]. *)
Theorem compute_lsf_polynomial (audio_data : list F) (sample_rate : Z)
  (order : nat) (a : list F) :
  librosa_lpc audio_data 12 = one :: a ->
  length a = 12 ->
  let p := one :: negative one :: map negative a in
  polynomial (librosa_lpc audio_data 12) = p
  /\ length p = 14
  /\ nth_error p 1 = Some (negative one)
  /\ (degenerate_model p = false ->
      In (NpRoots p) (trace (compute_lsf audio_data sample_rate order))).
Proof.
  intros Ha Hlen p.
  assert (Hp : polynomial (librosa_lpc audio_data 12) = p)
    by (rewrite Ha; reflexivity).
  split; [exact Hp|]. split; [|split; [reflexivity|]].
  - subst p. simpl. rewrite length_map, Hlen. reflexivity.
  - intros Hfin. rewrite compute_lsf_cases, Hp, Hfin.
    destruct (degenerate_roots _); [|destruct (no_stable_roots _)];
      simpl; auto.
Qed.

(** C10: under the contracts of [librosa.lpc] and [np.roots], the
    polynomial handed to the root finder has 14 coefficients with leading
    coefficient 1 (degree 13), and [compute_lsf] returns at most 13
    values. *)
Theorem compute_lsf_at_most_13 (audio_data : list F) (sample_rate : Z)
  (order : nat) :
  lpc_contract -> roots_contract ->
  let p := polynomial (librosa_lpc audio_data 12) in
  length p = 14
  /\ hd_error p = Some one
  /\ exists lsf : list F,
       outcome (compute_lsf audio_data sample_rate order) = Ok lsf
       /\ length lsf <= 13.
Proof.
  intros Hlpc Hroots p.
  destruct (Hlpc audio_data 12) as [a [Ha Hlen]].
  assert (Hp : length p = 14).
  { subst p. rewrite Ha. unfold polynomial. simpl.
    rewrite length_map, Hlen. reflexivity. }
  split; [exact Hp|]. split; [reflexivity|].
  rewrite compute_lsf_cases. fold p.
  destruct (degenerate_model p); [exists []; simpl; split; [reflexivity|lia]|].
  destruct (degenerate_roots _); [exists []; simpl; split; [reflexivity|lia]|].
  destruct (no_stable_roots _); [exists []; simpl; split; [reflexivity|lia]|].
  eexists. split; [reflexivity|].
  rewrite sort_length, length_map. unfold stable.
  pose proof (filter_length_le (fun r => less (np_abs r) one) (np_roots p)) as Hf.
  pose proof (Hroots p) as Hr. lia.
Qed.

Lemma degenerate_roots_number (roots : list (complex F)) :
  degenerate_roots roots = false ->
  forall r, In r roots -> cisnan r = false.
Proof.
  unfold degenerate_roots. intros E r Hin.
  apply orb_false_iff in E. destruct E as [_ E].
  destruct (cisnan r) eqn:Er; [|reflexivity].
  assert (H : existsb cisnan roots = true)
    by (apply existsb_exists; now exists r).
  congruence.
Qed.

(** C2, amended: with lawful comparisons and [np.angle] answering within
    [[-np.pi, np.pi]], [compute_lsf] returns an array in ascending order
    all of whose values lie in the closed interval [[-np.pi, np.pi]].
    The bound [np.pi] is attained on the recorded run. *)
Theorem compute_lsf_sorted_in_closed_range (audio_data : list F)
  (sample_rate : Z) (order : nat) :
  OrderLaws D -> angle_contract ->
  exists lsf : list F,
    outcome (compute_lsf audio_data sample_rate order) = Ok lsf
    /\ Numpy.ascending lsf
    /\ Forall in_closed_range lsf.
Proof.
  intros O Hangle. rewrite compute_lsf_cases.
  set (roots := np_roots _).
  destruct (degenerate_model _);
    [exists []; repeat split; constructor|].
  destruct (degenerate_roots roots) eqn:Er;
    [exists []; repeat split; constructor|].
  destruct (no_stable_roots roots);
    [exists []; repeat split; constructor|].
  eexists. split; [reflexivity|].
  assert (Hrange : Forall in_closed_range (map np_angle (stable roots))).
  { apply Forall_forall. intros v Hv. apply in_map_iff in Hv.
    destruct Hv as [r [<- Hr]]. apply Hangle.
    apply (degenerate_roots_number _ Er).
    unfold stable in Hr. apply filter_In in Hr. tauto. }
  split.
  - apply sort_ascending. revert Hrange. apply Forall_impl.
    intros v [_ Hv]. now apply leb_number in Hv.
  - now rewrite <- (sort_perm (map np_angle (stable roots))).
Qed.
End LsfOrder.

(** ** The recorded run honours the contracts *)

Section RunContracts.
Import IEEE Run.
#[local] Existing Instance binary64.
#[local] Existing Instance lib.

Lemma same_list_length (l l' : list spec_float) :
  same_list l l' = true -> length l = length l'.
Proof.
  revert l'. induction l as [|x xs IH]; intros [|y ys]; simpl;
    try discriminate; [reflexivity|].
  intros E. apply andb_true_iff in E. destruct E as [_ E].
  now rewrite (IH ys E).
Qed.

Lemma run_lpc_contract : lpc_contract.
Proof.
  intros y order. eexists. split; [reflexivity|].
  rewrite length_firstn. simpl length. rewrite repeat_length. lia.
Qed.

Lemma run_roots_contract : roots_contract.
Proof.
  intros p. simpl np_roots.
  destruct (same_list p _) eqn:E; [|simpl; lia].
  apply same_list_length in E. rewrite E. vm_compute. lia.
Qed.

Lemma run_angle_contract : angle_contract.
Proof.
  intros [re im] H. unfold in_closed_range. simpl np_angle. simpl np_pi.
  destruct re as [[]|[]| |[] mr er], im as [[]|[]| |[] mi ei];
    try discriminate H; split; reflexivity.
Qed.
End RunContracts.

Section Float64.
Import IEEE Run PreProcess2.
#[local] Existing Instance binary64.
#[local] Existing Instance lib.

(** The run of [compute_lsf] on the pre-emphasised first clip: the root
    [1.5] is dropped, the eleven zero roots have angle 0 and the root
    [-0.5] has angle [np.pi]. *)
Example compute_lsf_run :
  compute_lsf audio_a 16000 default_order
  = ([LibrosaLpc audio_a 12;
      NpRoots (f64 1 0 :: map SFopp lpc_answer)],
     Ok (repeat (S754_zero false) 11 ++ [pi64])).
Proof. vm_compute. reflexivity. Qed.

Lemma compute_lsf_sorted_in_closed_range_witness :
  exists lsf : list spec_float,
    outcome (compute_lsf audio_a 16000 default_order) = Ok lsf
    /\ Numpy.ascending lsf
    /\ Forall in_closed_range lsf.
Proof.
  exact (compute_lsf_sorted_in_closed_range audio_a 16000 default_order
           (IEEELaws.ieee_order 53 1024) run_angle_contract).
Defined.

(** C2 as stated fails: the stable root [-0.5] lies on the negative real
    axis, its angle is [np.pi] itself, and [np.pi < np.pi] is false.  The
    returned array is not inside the open interval. *)
Lemma compute_lsf_reaches_pi :
  exists lsf : list spec_float,
    outcome (compute_lsf audio_a 16000 default_order) = Ok lsf
    /\ lsf <> []
    /\ In np_pi lsf
    /\ ~ Forall in_open_range lsf.
Proof.
  eexists. split; [vm_compute; reflexivity|].
  split; [discriminate|]. split.
  - vm_compute. do 11 right. left. reflexivity.
  - intros H. rewrite Forall_forall in H.
    assert (Hin : In pi64 (repeat (S754_zero false) 11 ++ [pi64]))
      by (apply in_or_app; right; left; reflexivity).
    destruct (H pi64 Hin) as [_ Hlt]. vm_compute in Hlt. discriminate Hlt.
Qed.

Lemma compute_lsf_polynomial_witness :
  let a := f64 3 (-2) :: repeat (S754_zero false) 11 in
  let p := one :: negative one :: map negative a in
  polynomial (librosa_lpc audio_a 12) = p
  /\ length p = 14
  /\ nth_error p 1 = Some (negative one)
  /\ (degenerate_model p = false ->
      In (NpRoots p) (trace (compute_lsf audio_a 16000 default_order))).
Proof.
  exact (compute_lsf_polynomial audio_a 16000 default_order
           (a := f64 3 (-2) :: repeat (S754_zero false) 11)
           eq_refl eq_refl).
Defined.

Lemma compute_lsf_at_most_13_witness :
  let p := polynomial (librosa_lpc audio_a 12) in
  length p = 14
  /\ hd_error p = Some one
  /\ exists lsf : list spec_float,
       outcome (compute_lsf audio_a 16000 default_order) = Ok lsf
       /\ length lsf <= 13.
Proof.
  exact (compute_lsf_at_most_13 audio_a 16000 default_order
           run_lpc_contract run_roots_contract).
Defined.
End Float64.

(** ** The fundamental period *)

Section Pitch.
Context {F : Type} {D : Dtype F} {L : Lib F}.
Import PreProcess1.

Lemma periods_valid (fundamental_frequencies : list F) :
  Forall (fun v => isfinite v = true /\ less zero v = true)
         (periods fundamental_frequencies).
Proof.
  unfold periods. apply Forall_forall. intros v Hv.
  apply filter_In in Hv. destruct Hv as [Hv Hpos].
  apply filter_In in Hv. tauto.
Qed.

Lemma periods_length (fundamental_frequencies : list F) :
  length (periods fundamental_frequencies) <= length fundamental_frequencies.
Proof.
  unfold periods.
  etransitivity; [apply filter_length_le|].
  etransitivity; [apply filter_length_le|].
  now rewrite length_map.
Qed.

Lemma take_per_frame_length (pitches : nat -> nat -> F) (frames : nat)
  (pick : nat -> nat) :
  length (take_per_frame pitches frames (map pick (seq 0 frames))) = frames.
Proof.
  unfold take_per_frame.
  rewrite length_map, length_combine, length_map, length_seq. lia.
Qed.

(** C8: when the pitch tracker has at least one frequency bin, the feature
    extractor returns, and every fundamental period it returns is finite
    and strictly positive; the periods are what the two masks keep of the
    per-frame values [1 / f0], so there are at most as many as frames. *)
Theorem fundamental_period_finite_positive (audio_data : list F)
  (sample_rate : Z) :
  0 < pt_bins (librosa_piptrack audio_data sample_rate) ->
  exists (fbank : matrix F) (f0 period : list F) (centroid contrast : matrix F),
    outcome (extract_audio_features audio_data sample_rate)
    = Ok (fbank, period, centroid, contrast)
    /\ length f0 = pt_frames (librosa_piptrack audio_data sample_rate)
    /\ period = filter (fun x => less zero x)
                       (filter isfinite (map (fun f => divide one f) f0))
    /\ Forall (fun v => isfinite v = true /\ less zero v = true) period
    /\ length period <= pt_frames (librosa_piptrack audio_data sample_rate).
Proof.
  intros Hbins. unfold extract_audio_features, bind, call, lift, argmax_axis0.
  cbn [fst snd].
  set (pt := librosa_piptrack audio_data sample_rate) in *.
  destruct (pt_bins pt) as [|n]; [lia|]. cbn [fst snd].
  set (pick := fun j : nat =>
                 Numpy.argmax_nonempty (pt_magnitudes pt 0 j)
                   (map (fun i => pt_magnitudes pt i j) (seq 1 n))).
  set (f0 := take_per_frame (pt_pitches pt) (pt_frames pt)
               (map pick (seq 0 (pt_frames pt)))).
  exists (librosa_melspectrogram audio_data sample_rate), f0, (periods f0),
    (librosa_spectral_centroid audio_data sample_rate),
    (librosa_spectral_contrast audio_data sample_rate).
  assert (Hlen : length f0 = pt_frames pt) by apply take_per_frame_length.
  split; [reflexivity|]. split; [exact Hlen|]. split; [reflexivity|].
  split; [apply periods_valid|].
  rewrite <- Hlen. apply periods_length.
Qed.
End Pitch.

Section PitchRun.
Import IEEE Run PreProcess1.
#[local] Existing Instance binary64.
#[local] Existing Instance lib.

(** Four frames: a silent one ([1/0] is infinite), two voiced ones, and one
    with a negative estimate.  Two periods remain, [1/100] and [1/200]. *)
Example periods_run :
  outcome (extract_audio_features audio_a 16000)
  = Ok (librosa_melspectrogram audio_a 16000,
        [divide one (f64 100 0); divide one (f64 200 0)],
        librosa_spectral_centroid audio_a 16000,
        librosa_spectral_contrast audio_a 16000).
Proof. vm_compute. reflexivity. Qed.

Lemma fundamental_period_finite_positive_witness :
  exists (fbank : matrix spec_float) (f0 period : list spec_float)
         (centroid contrast : matrix spec_float),
    outcome (extract_audio_features audio_a 16000)
    = Ok (fbank, period, centroid, contrast)
    /\ length f0 = pt_frames (librosa_piptrack audio_a 16000)
    /\ period = filter (fun x => less zero x)
                       (filter isfinite (map (fun f => divide one f) f0))
    /\ Forall (fun v => isfinite v = true /\ less zero v = true) period
    /\ length period <= pt_frames (librosa_piptrack audio_a 16000).
Proof.
  apply (fundamental_period_finite_positive audio_a 16000).
  simpl. lia.
Defined.
End PitchRun.

(** ** Loops and exceptions *)

Section EffectFacts.
Context {F : Type}.

Lemma bind_ok {A B} (m : M (F := F) A) (k : A -> M B) (a : A) :
  outcome m = Ok a ->
  bind m k = (trace m ++ trace (k a), outcome (k a)).
Proof. unfold bind, outcome, trace. now intros ->. Qed.

Lemma bind_raise {A B} (m : M (F := F) A) (k : A -> M B) (e : exn) :
  outcome m = Raise e -> bind m k = (trace m, Raise e).
Proof. unfold bind, outcome, trace. now intros ->. Qed.

Lemma for_each_ok {A} (body : A -> M (F := F) unit) (l : list A) :
  (forall x, In x l -> is_ok (outcome (body x)) = true) ->
  outcome (for_each l body) = Ok tt.
Proof.
  induction l as [|x xs IH]; intros H; [reflexivity|].
  simpl for_each.
  destruct (outcome (body x)) as [[]|e] eqn:E.
  - rewrite (bind_ok _ _ E). apply IH. intros y Hy. apply H. now right.
  - specialize (H x (or_introl eq_refl)). rewrite E in H. discriminate.
Qed.

(** A loop whose body raises on [x] stops there: what it did is what it did
    on the items before [x] and then on [x]; the items after [x] are never
    reached. *)
Lemma for_each_raise {A} (body : A -> M (F := F) unit)
  (before after : list A) (x : A) (e : exn) :
  (forall y, In y before -> is_ok (outcome (body y)) = true) ->
  outcome (body x) = Raise e ->
  for_each (before ++ x :: after) body
  = (trace (for_each before body) ++ trace (body x), Raise e).
Proof.
  intros Hbefore Hx. induction before as [|y ys IH]; simpl.
  - now rewrite (bind_raise _ _ Hx).
  - destruct (outcome (body y)) as [[]|e'] eqn:E.
    + rewrite !(bind_ok _ _ E), IH by (intros z Hz; apply Hbefore; now right).
      unfold trace. cbn [fst snd]. now rewrite app_assoc.
    + specialize (Hbefore y (or_introl eq_refl)). rewrite E in Hbefore.
      discriminate.
Qed.

(** Every item of a loop whose body never raises is visited. *)
Lemma for_each_visits {A} (body : A -> M (F := F) unit) (l : list A) (x : A)
  (ev : event F) :
  (forall y, In y l -> is_ok (outcome (body y)) = true) ->
  In x l -> In ev (trace (body x)) -> In ev (trace (for_each l body)).
Proof.
  induction l as [|y ys IH]; intros H Hin Hev; [contradiction|].
  simpl for_each.
  destruct (outcome (body y)) as [[]|e] eqn:E.
  - rewrite (bind_ok _ _ E). unfold trace at 1. cbn [fst].
    apply in_or_app. destruct Hin as [<-|Hin]; [now left|right].
    apply IH; auto. intros z Hz. apply H. now right.
  - specialize (H y (or_introl eq_refl)). rewrite E in H. discriminate.
Qed.

Lemma try_except_ok {A} (body : M (F := F) A) (handler : exn -> M A) :
  (forall e, is_ok (outcome (handler e)) = true) ->
  is_ok (outcome (try_except body handler)) = true.
Proof.
  intros H. unfold try_except, outcome.
  destruct (snd body) as [a|e] eqn:E; [now rewrite E|apply H].
Qed.
End EffectFacts.

(** ** The two directory loops *)

Section Batch.
Context {F : Type} {D : Dtype F} {L : Lib F}.

(** *** [process_audio_directory]: every clip is its own unit *)

Lemma process_file_loads (input_directory output_directory filename : string) :
  exists rest : list (event F),
    trace (PreProcess1.process_file input_directory output_directory filename)
    = LibrosaLoad (os_path_join input_directory filename) :: rest.
Proof.
  unfold PreProcess1.process_file, bind, call_fallible, trace. cbn [fst snd].
  destruct (librosa_load _) as [loaded|e]; cbn [fst snd]; eexists; reflexivity.
Qed.

Lemma process_file_decode_failure (input_directory output_directory filename : string)
  (e : exn) :
  librosa_load (os_path_join input_directory filename) = Raise e ->
  PreProcess1.process_file input_directory output_directory filename
  = ([LibrosaLoad (os_path_join input_directory filename)], Raise e).
Proof.
  intros E. unfold PreProcess1.process_file, bind, call_fallible.
  cbn [fst snd]. now rewrite E.
Qed.

Lemma directory_file_ok (input_directory output_directory filename : string) :
  is_ok (outcome (PreProcess1.directory_file (F := F)
                    input_directory output_directory filename)) = true.
Proof.
  unfold PreProcess1.directory_file.
  destruct (endswith filename ".wav"); [|reflexivity].
  apply try_except_ok. reflexivity.
Qed.

(** The loop of [pre_process_1.py] never raises, whatever the libraries
    answer: each [.wav] file is loaded, and a clip whose decoding raises [e]
    is reported with its name and [str(e)], after which the loop goes on. *)
Lemma process_audio_directory_isolates (input_directory output_directory : string) :
  let run := PreProcess1.process_audio_directory (F := F)
               input_directory output_directory in
  outcome run = Ok tt
  /\ (forall filename,
        In filename (os_listdir input_directory) ->
        endswith filename ".wav" = true ->
        In (LibrosaLoad (os_path_join input_directory filename)) (trace run))
  /\ (forall filename e,
        In filename (os_listdir input_directory) ->
        endswith filename ".wav" = true ->
        librosa_load (os_path_join input_directory filename) = Raise e ->
        In (Stdout ("Error processing " ++ filename ++ ": " ++ exn_str e)%string)
           (trace run)).
Proof.
  intros run. subst run. unfold PreProcess1.process_audio_directory.
  unfold bind at 1 2. unfold emit, call, outcome, trace. cbn [fst snd].
  set (body := PreProcess1.directory_file input_directory output_directory).
  assert (Hok : forall y, In y (os_listdir input_directory) ->
                          is_ok (outcome (body y)) = true)
    by (intros y _; apply directory_file_ok).
  split; [exact (for_each_ok body _ Hok)|]. split.
  - intros filename Hin Hwav. right. right.
    apply (for_each_visits body _ filename _ Hok Hin).
    unfold body, PreProcess1.directory_file. rewrite Hwav.
    destruct (process_file_loads input_directory output_directory filename)
      as [rest Hrest].
    unfold try_except, trace in *.
    destruct (snd (PreProcess1.process_file _ _ _)); cbn [fst];
      rewrite Hrest; now left.
  - intros filename e Hin Hwav Hload. right. right.
    apply (for_each_visits body _ filename _ Hok Hin).
    unfold body, PreProcess1.directory_file. rewrite Hwav.
    rewrite (process_file_decode_failure _ output_directory _ Hload).
    unfold try_except, print, emit, trace. cbn. right. now left.
Qed.

(** *** [turn]: the first failure ends the batch *)

Lemma turn_file_decode_failure (input_directory output_directory filename : string)
  (e : exn) :
  endswith filename ".wav" = true ->
  librosa_load (os_path_join input_directory filename) = Raise e ->
  PreProcess2.turn_file input_directory output_directory filename
  = ([LibrosaLoad (os_path_join input_directory filename)], Raise e).
Proof.
  intros Hwav E. unfold PreProcess2.turn_file. rewrite Hwav.
  unfold PreProcess2.process_audio, bind, call_fallible. cbn [fst snd].
  now rewrite E.
Qed.

(** C5, as the code has it: [turn] has no [try] around a clip.  When the
    decoding of a [.wav] file raises [e] and the files listed before it went
    through, [turn] itself ends with [e]; the last thing it did was the
    failed [librosa.load], so no file listed after it is touched and nothing
    is logged for the failed clip. *)
Theorem turn_aborts_on_decode_failure (input_directory output_directory : string)
  (before after : list string) (bad : string) (e : exn) :
  os_listdir input_directory = before ++ bad :: after ->
  endswith bad ".wav" = true ->
  librosa_load (os_path_join input_directory bad) = Raise e ->
  (forall filename, In filename before ->
     is_ok (outcome (PreProcess2.turn_file (F := F)
                       input_directory output_directory filename)) = true) ->
  let run := PreProcess2.turn (F := F) input_directory output_directory in
  outcome run = Raise e
  /\ trace run
     = (if negb (os_path_exists output_directory)
        then [OsMakedirs output_directory] else [])
       ++ OsListdir input_directory
       :: trace (for_each before
                   (PreProcess2.turn_file input_directory output_directory))
       ++ [LibrosaLoad (os_path_join input_directory bad)].
Proof.
  intros Hlist Hwav Hload Hbefore run. subst run.
  unfold PreProcess2.turn.
  pose proof (for_each_raise
                (PreProcess2.turn_file input_directory output_directory)
                before after bad Hbefore
                (f_equal snd (turn_file_decode_failure
                                input_directory output_directory bad Hwav Hload)))
    as Hloop.
  rewrite (turn_file_decode_failure _ output_directory _ Hwav Hload) in Hloop.
  unfold trace at 2 in Hloop. cbn [fst] in Hloop.
  unfold outcome, trace, bind, call, emit, ret.
  destruct (os_path_exists output_directory); cbn [negb fst snd app];
    rewrite Hlist, Hloop; cbn [fst snd]; split; reflexivity.
Qed.
End Batch.

(** ** The per-clip pipeline of [pre_process_2.py] *)

Ltac simpl_run := unfold outcome, trace; cbn [fst snd app].
Ltac step_ok := erewrite bind_ok by reflexivity; simpl_run.
Ltac step_raise := erewrite bind_raise by reflexivity; simpl_run.

Section Flow.
Context {F : Type} {D : Dtype F} {L : Lib F}.
Import PreProcess2.

Lemma compute_cqcc_run (audio_data : list F) (sample_rate : Z)
  (n_bands n_coeffs hop_length : nat) :
  let S := log_magnitude (librosa_cqt audio_data sample_rate n_bands hop_length) in
  compute_cqcc audio_data sample_rate n_bands n_coeffs hop_length
  = ([LibrosaCqt audio_data sample_rate n_bands hop_length;
      LibrosaMfccS S n_coeffs],
     normalize (librosa_mfcc_S S n_coeffs)).
Proof. reflexivity. Qed.

(** C9, as the code has it: whenever [process_audio] returns a feature
    tuple, its calls are, in order: the load, those of [compute_lsf] on the
    pre-emphasised audio, the MFCC and the LPC on the pre-emphasised audio,
    and then the constant-Q transform on [audio_data], the waveform as
    loaded.  The CQCC entry of the tuple is the normalised cepstrum of that
    transform of the raw waveform. *)
Theorem process_audio_cqcc_input (file_path : string)
  (hop_length win_length : nat) (feats : features) :
  outcome (process_audio file_path hop_length win_length) = Ok (Some feats) ->
  exists (audio_data : list F) (sample_rate : Z) (pre_emphasized_audio : list F),
    librosa_load file_path = Ok (audio_data, sample_rate)
    /\ pre_emphasis audio_data default_coeff = Ok pre_emphasized_audio
    /\ trace (process_audio file_path hop_length win_length)
       = LibrosaLoad file_path
         :: trace (compute_lsf pre_emphasized_audio sample_rate default_order)
         ++ [LibrosaMfcc pre_emphasized_audio sample_rate 1;
             LibrosaLpc pre_emphasized_audio 12;
             LibrosaCqt audio_data sample_rate 6 2048;
             LibrosaMfccS
               (log_magnitude (librosa_cqt audio_data sample_rate 6 2048)) 6]
    /\ outcome (compute_cqcc audio_data sample_rate 6 6 2048) = Ok (snd feats).
Proof.
  unfold process_audio.
  destruct (librosa_load file_path) as [[audio_data sample_rate]|e] eqn:Eload;
    [|step_raise; discriminate].
  step_ok.
  destruct (pre_emphasis audio_data default_coeff) as [pre|e] eqn:Epre;
    [|step_raise; discriminate].
  step_ok.
  destruct (existsb isnan pre || existsb isinf pre); [discriminate|].
  destruct (compute_lsf_returns pre sample_rate default_order) as [lsf Hlsf].
  rewrite (bind_ok _ _ Hlsf). simpl_run.
  destruct (length lsf =? 0)%nat; [discriminate|].
  unfold compute_mfcc, compute_lpc. do 2 step_ok.
  rewrite compute_cqcc_run. cbv zeta.
  destruct (normalize _) as [cqcc|e] eqn:En; [|step_raise; discriminate].
  step_ok. intros H. injection H as <-.
  exists audio_data, sample_rate, pre.
  split; [reflexivity|]. split; [exact Epre|]. split; [reflexivity|].
  rewrite compute_cqcc_run. exact En.
Qed.
End Flow.

Section BatchRun.
Import IEEE Run.
#[local] Existing Instance binary64.
#[local] Existing Instance lib.

(** What [process_audio] computes on the first clip. *)
Example process_audio_run :
  exists feats : PreProcess2.features,
    outcome (PreProcess2.process_audio "wav/a.wav" 256 512) = Ok (Some feats).
Proof. eexists. vm_compute. reflexivity. Qed.

(** On that clip the waveform handed to the constant-Q transform,
    [1, 2, 4, 1], is not the pre-emphasised one, [1, 1.5, 3, -1], that the
    three other extractors receive. *)
Example raw_is_not_pre_emphasized :
  PreProcess2.pre_emphasis audio_a PreProcess2.default_coeff
  = Ok [f64 1 0; f64 3 (-1); f64 3 0; f64 (-1) 0]
  /\ audio_a <> [f64 1 0; f64 3 (-1); f64 3 0; f64 (-1) 0].
Proof. split; [vm_compute; reflexivity|discriminate]. Qed.

Lemma process_audio_cqcc_input_witness :
  exists feats : PreProcess2.features,
    outcome (PreProcess2.process_audio "wav/a.wav" 256 512) = Ok (Some feats)
    /\ exists (audio_data : list spec_float) (sample_rate : Z)
              (pre_emphasized_audio : list spec_float),
         librosa_load "wav/a.wav" = Ok (audio_data, sample_rate)
         /\ PreProcess2.pre_emphasis audio_data PreProcess2.default_coeff
            = Ok pre_emphasized_audio
         /\ trace (PreProcess2.process_audio "wav/a.wav" 256 512)
            = LibrosaLoad "wav/a.wav"
              :: trace (PreProcess2.compute_lsf pre_emphasized_audio sample_rate
                          PreProcess2.default_order)
              ++ [LibrosaMfcc pre_emphasized_audio sample_rate 1;
                  LibrosaLpc pre_emphasized_audio 12;
                  LibrosaCqt audio_data sample_rate 6 2048;
                  LibrosaMfccS
                    (PreProcess2.log_magnitude
                       (librosa_cqt audio_data sample_rate 6 2048)) 6]
         /\ outcome (PreProcess2.compute_cqcc audio_data sample_rate 6 6 2048)
            = Ok (snd feats).
Proof.
  eexists. split; [vm_compute; reflexivity|].
  apply (process_audio_cqcc_input "wav/a.wav" 256 512).
  vm_compute. reflexivity.
Defined.

(** The run of [turn('wav', 'wav-feature')]: the first clip is saved, the
    corrupted second one ends the script, the third is never opened. *)
Example turn_run :
  outcome (PreProcess2.main (F := spec_float)) = Raise decode_error
  /\ In (PltSavefig "wav-feature/a.jpg") (trace (PreProcess2.main (F := spec_float)))
  /\ ~ In (LibrosaLoad "wav/c.wav") (trace (PreProcess2.main (F := spec_float)))
  /\ forall line, ~ In (Stdout ("Skipping b.wav" ++ line)%string)
                       (trace (PreProcess2.main (F := spec_float))).
Proof.
  split; [vm_compute; reflexivity|]. split; [|split].
  - vm_compute. tauto.
  - intros H. vm_compute in H.
    repeat (destruct H as [H|H]; [discriminate H|]). exact H.
  - intros line H. vm_compute in H.
    repeat (destruct H as [H|H]; [discriminate H|]). exact H.
Qed.

(** The run of [process_audio_directory('wav', 'wav_features')] on the
    same directory: all three clips are opened, the corrupted one is
    reported, the two others are saved. *)
Example process_audio_directory_run :
  outcome (PreProcess1.main (F := spec_float)) = Ok tt
  /\ In (PltSavefig "wav_features/a.jpg") (trace (PreProcess1.main (F := spec_float)))
  /\ In (Stdout "Error processing b.wav: Error opening 'wav/b.wav': Format not recognised.")
        (trace (PreProcess1.main (F := spec_float)))
  /\ In (PltSavefig "wav_features/c.jpg") (trace (PreProcess1.main (F := spec_float))).
Proof.
  split; [vm_compute; reflexivity|]. repeat split; vm_compute; tauto.
Qed.

Lemma turn_aborts_on_decode_failure_witness :
  outcome (PreProcess2.turn (F := spec_float) "wav" "wav-feature")
  = Raise decode_error
  /\ trace (PreProcess2.turn (F := spec_float) "wav" "wav-feature")
     = (if negb (os_path_exists "wav-feature")
        then [OsMakedirs "wav-feature"] else [])
       ++ OsListdir "wav"
       :: trace (for_each ["a.wav"; "notes.txt"]
                   (PreProcess2.turn_file "wav" "wav-feature"))
       ++ [LibrosaLoad (os_path_join "wav" "b.wav")].
Proof.
  apply (turn_aborts_on_decode_failure (L := lib) "wav" "wav-feature"
           ["a.wav"; "notes.txt"] ["c.wav"] "b.wav").
  - reflexivity.
  - reflexivity.
  - reflexivity.
  - intros filename [<-|[<-|[]]]; vm_compute; reflexivity.
Defined.
End BatchRun.

(** ** Minimum and maximum of an array *)

Section OrderFacts.
Context {F : Type} {D : Dtype F} {O : OrderLaws D}.


Lemma leb_refl (x : F) : isnan x = false -> less_equal x x = true.
Proof. intros H. now destruct (leb_total x x H H). Qed.










End OrderFacts.

(** ** The normalisation of the CQCC array *)

Section Normalize.
Context {F : Type} {D : Dtype F} {L : Lib F}.
Context {O : OrderLaws D} {R : RoundingLaws D}.
Import PreProcess2.

Lemma concat_map_map {A B} (f : A -> B) (a : list (list A)) :
  concat (map (map f) a) = map f (concat a).
Proof. now rewrite concat_map. Qed.





End Normalize.

Section Float64Run.
Import IEEE Run PreProcess2.
#[local] Existing Instance binary64.
#[local] Existing Instance lib.


End Float64Run.

Section FloatRun.
Import IEEE Run PreProcess2.

(** In float64, on the recorded run: the normalised array has minimum
    [+0.0] and maximum [1.0]. *)
Example compute_cqcc_float64 :
  exists cqcc : matrix spec_float,
    outcome (compute_cqcc (D := binary64) (L := lib) audio_a 16000 6 6 2048)
    = Ok cqcc
    /\ Numpy.min2 (H := binary64) cqcc = Ok (S754_zero false)
    /\ Numpy.max2 (H := binary64) cqcc = Ok (f64 1 0).
Proof. eexists. repeat split; vm_compute; reflexivity. Qed.

(** In float32, on an array of eight entries between -21 and 3. *)
Example normalize_float32 :
  exists cqcc : matrix spec_float,
    normalize (D := binary32)
      [ [lit32 (-21) 0; lit32 3 0; lit32 5 (-1); lit32 1 (-3)];
        [lit32 0 0; lit32 (-1) (-2); lit32 1 0; lit32 (-20) 0] ]
    = Ok cqcc
    /\ Numpy.min2 (H := binary32) cqcc = Ok (S754_zero false)
    /\ Numpy.max2 (H := binary32) cqcc = Ok (lit32 1 0).
Proof. eexists. repeat split; vm_compute; reflexivity. Qed.
End FloatRun.

(** * Further properties of the two scripts *)

Section PreEmphasisMore.
Context {F : Type} {D : Dtype F}.
Import PreProcess2.

(** The tail of the output, entry by entry. *)
Lemma shifted_cons (x0 x : F) (xs : list F) :
  combine (x :: xs) (firstn (length (x :: xs)) (x0 :: x :: xs))
  = (x, x0) :: combine xs (firstn (length xs) (x :: xs)).
Proof. reflexivity. Qed.

Lemma shifted_firstn (f : F * F -> F) (k : nat) (x0 : F) (xs : list F) :
  map f (combine (firstn k xs)
                 (firstn (length (firstn k xs)) (x0 :: firstn k xs)))
  = firstn k (map f (combine xs (firstn (length xs) (x0 :: xs)))).
Proof.
  revert k x0. induction xs as [|x xs IH]; intros k x0.
  - rewrite !firstn_nil. reflexivity.
  - destruct k as [|k]; [reflexivity|].
    rewrite firstn_cons, !shifted_cons. cbn [map firstn].
    now rewrite IH.
Qed.

(** X1: Pre-emphasis is causal: the first [n] entries of the output are the
    output on the first [n] samples. *)
Theorem pre_emphasis_causal (audio_data y : list F) (coeff : F) (n : nat) :
  pre_emphasis audio_data coeff = Ok y -> 0 < n ->
  pre_emphasis (firstn n audio_data) coeff = Ok (firstn n y).
Proof.
  destruct audio_data as [|x0 xs]; [discriminate|].
  rewrite pre_emphasis_cons. intros E Hn. injection E as <-.
  destruct n as [|k]; [lia|].
  rewrite !firstn_cons, pre_emphasis_cons. do 2 f_equal.
  apply shifted_firstn.
Qed.
End PreEmphasisMore.

Section PreEmphasisMoreRun.
Import IEEE Run PreProcess2.
#[local] Existing Instance binary32.

Lemma pre_emphasis_causal_witness :
  pre_emphasis (firstn 2 clip32) half = Ok (firstn 2 [lit32 1 0; lit32 3 (-1); lit32 3 0]).
Proof.
  apply (pre_emphasis_causal clip32 half (n := 2)); [reflexivity|lia].
Defined.
End PreEmphasisMoreRun.

(** ** Non-finite samples *)

Ltac events :=
  unfold call_fallible, call, lift, print, emit, ret, bind, trace;
  cbn [fst snd app].

Ltac each_event :=
  repeat match goal with
  | |- Forall _ (_ :: _) => apply Forall_cons
  | |- Forall _ [] => apply Forall_nil
  | |- Forall _ (_ ++ _) => apply Forall_app; split
  end.

Section Guards.
Context {F : Type} {D : Dtype F} {L : Lib F}.
Import PreProcess2 Observe.

(** [compute_lsf] hands finite numbers to [librosa.lpc] when it receives
    them, and to [np.roots] in any case. *)
Lemma compute_lsf_finite_input (audio_data : list F) (sample_rate : Z)
  (order : nat) :
  all_isfinite audio_data ->
  Forall finite_input (trace (compute_lsf audio_data sample_rate order)).
Proof.
  intros Hfin. rewrite compute_lsf_cases. cbv zeta.
  destruct (degenerate_model _) eqn:Ep.
  { simpl_run. each_event; cbn; auto. }
  apply degenerate_model_false_iff in Ep.
  destruct (degenerate_roots _); [|destruct (no_stable_roots _)];
    simpl_run; each_event; cbn; auto.
Qed.

Lemma compute_mfcc_run (audio_data : list F) (sample_rate : Z) (n_mfcc : nat) :
  compute_mfcc audio_data sample_rate n_mfcc
  = ([LibrosaMfcc audio_data sample_rate n_mfcc],
     Ok (librosa_mfcc audio_data sample_rate n_mfcc)).
Proof. reflexivity. Qed.

Lemma compute_lpc_run (audio_data : list F) :
  compute_lpc audio_data
  = ([LibrosaLpc audio_data 12],
     Ok (map (fun c => [c]) (librosa_lpc audio_data 12))).
Proof. reflexivity. Qed.

(** The ways through [process_audio], each with the calls and prints it
    makes and with what it returns. *)
Lemma process_audio_cases (file_path : string) (hop_length win_length : nat) :
  process_audio file_path hop_length win_length
  = match librosa_load file_path with
    | Raise e => ([LibrosaLoad file_path], Raise e)
    | Ok (audio_data, sample_rate) =>
        match pre_emphasis audio_data default_coeff with
        | Raise e => ([LibrosaLoad file_path], Raise e)
        | Ok pre =>
            if existsb isnan pre || existsb isinf pre then
              ([LibrosaLoad file_path; Stdout (warn_audio file_path)], Ok None)
            else
              let lsf_run := compute_lsf pre sample_rate default_order in
              match outcome lsf_run with
              | Raise e => (LibrosaLoad file_path :: trace lsf_run, Raise e)
              | Ok lsf =>
                  if (length lsf =? 0)%nat then
                    (LibrosaLoad file_path
                       :: trace lsf_run ++ [Stdout (warn_lsf file_path)],
                     Ok None)
                  else
                    let S := log_magnitude
                               (librosa_cqt audio_data sample_rate 6 2048) in
                    let calls :=
                      LibrosaLoad file_path
                        :: trace lsf_run
                        ++ [LibrosaMfcc pre sample_rate 1;
                            LibrosaLpc pre 12;
                            LibrosaCqt audio_data sample_rate 6 2048;
                            LibrosaMfccS S 6] in
                    match normalize (librosa_mfcc_S S 6) with
                    | Raise e => (calls, Raise e)
                    | Ok cqcc =>
                        (calls,
                         Ok (Some (lsf, librosa_mfcc pre sample_rate 1,
                                   map (fun c => [c]) (librosa_lpc pre 12),
                                   cqcc)))
                    end
              end
        end
    end.
Proof.
  unfold process_audio.
  destruct (librosa_load file_path) as [[audio_data sample_rate]|e];
    [|now step_raise].
  step_ok.
  destruct (pre_emphasis audio_data default_coeff) as [pre|e];
    [|now step_raise].
  step_ok.
  destruct (existsb isnan pre || existsb isinf pre); [reflexivity|].
  cbv zeta.
  unfold outcome, trace.
  destruct (snd (compute_lsf pre sample_rate default_order))
    as [lsf|e] eqn:Elsf;
    [|rewrite (bind_raise _ _ Elsf); simpl_run; reflexivity].
  rewrite (bind_ok _ _ Elsf). simpl_run.
  destruct (length lsf =? 0)%nat; [reflexivity|].
  rewrite compute_mfcc_run, compute_lpc_run, compute_cqcc_run. cbv zeta.
  do 2 step_ok.
  destruct (normalize _) as [cqcc|e]; [step_ok|step_raise]; reflexivity.
Qed.

(** X2: A clip without samples: [audio_data[0]] raises, in [process_audio] and,
    nothing catching it, in the loop body of [turn]. *)
Theorem empty_clip_raises (input_directory output_directory filename : string)
  (sample_rate : Z) (hop_length win_length : nat) :
  let file_path := os_path_join input_directory filename in
  let error := IndexError "index 0 is out of bounds for axis 0 with size 0" in
  librosa_load file_path = Ok ([], sample_rate) ->
  process_audio file_path hop_length win_length
  = ([LibrosaLoad file_path], Raise error)
  /\ (endswith filename ".wav" = true ->
      turn_file input_directory output_directory filename
      = ([LibrosaLoad file_path], Raise error)).
Proof.
  intros file_path error Hload.
  assert (H : forall h w, process_audio file_path h w
                          = ([LibrosaLoad file_path], Raise error)).
  { intros h w. unfold process_audio, bind, call_fallible, lift.
    cbn [fst snd]. rewrite Hload. reflexivity. }
  split; [apply H|]. intros Hwav. unfold turn_file. rewrite Hwav.
  fold file_path. now rewrite (bind_raise _ _ (f_equal snd (H 256 512))), H.
Qed.

(** Two consecutive samples [a], [b] give the output entry
    [b - coeff * a]. *)
Lemma shifted_in (coeff a b : F) (before after : list F) (x0 : F) :
  let xs := before ++ a :: b :: after in
  In (subtract b (multiply coeff a))
     (map (fun ab => subtract (fst ab) (multiply coeff (snd ab)))
          (combine xs (firstn (length xs) (x0 :: xs)))).
Proof.
  cbv zeta. revert x0. induction before as [|y bs IH]; intros x0;
    cbn [app length firstn combine map fst snd].
  - right. left. reflexivity.
  - right. apply IH.
Qed.

Lemma pre_emphasis_consecutive (before after : list F) (a b coeff : F)
  (y : list F) :
  pre_emphasis (before ++ a :: b :: after) coeff = Ok y ->
  In (subtract b (multiply coeff a)) y.
Proof.
  destruct before as [|x0 bs]; cbn [app]; rewrite pre_emphasis_cons;
    intros E; injection E as <-; right.
  - cbn [length firstn combine map fst snd]. left. reflexivity.
  - apply shifted_in.
Qed.

(** X4: A clip whose pre-emphasis overflows is skipped.  When two consecutive
    samples [a], [b] of the loaded waveform, finite or not, give a
    difference [b - 0.5 * a] that is not finite, [process_audio] prints
    its warning and returns [None] without calling an extractor, and the
    loop body of [turn] reports the clip and returns. *)
Theorem overflowing_clip_is_skipped
  (input_directory output_directory filename : string)
  (before after : list F) (a b : F) (sample_rate : Z)
  (hop_length win_length : nat) :
  let file_path := os_path_join input_directory filename in
  librosa_load file_path = Ok (before ++ a :: b :: after, sample_rate) ->
  isfinite (subtract b (multiply half a)) = false ->
  process_audio file_path hop_length win_length
  = ([LibrosaLoad file_path; Stdout (warn_audio file_path)], Ok None)
  /\ (endswith filename ".wav" = true ->
      turn_file input_directory output_directory filename
      = ([LibrosaLoad file_path; Stdout (warn_audio file_path);
          Stdout ("Skipping " ++ filename ++ " due to errors in processing.")],
         Ok tt)).
Proof.
  intros file_path Hload Hbad.
  assert (H : forall h w, process_audio file_path h w
              = ([LibrosaLoad file_path; Stdout (warn_audio file_path)],
                 Ok None)).
  { intros h w. rewrite process_audio_cases, Hload.
    destruct (pre_emphasis (before ++ a :: b :: after) default_coeff)
      as [pre|e] eqn:Epre.
    - apply pre_emphasis_consecutive in Epre.
      assert (Hex : Exists (fun v => isfinite v = false) pre)
        by (apply Exists_exists; eexists; split; [exact Epre|exact Hbad]).
      now rewrite (proj2 (guard_true_iff pre) Hex).
    - destruct before; cbn [app] in Epre; rewrite pre_emphasis_cons in Epre;
        discriminate. }
  split; [apply H|]. intros Hwav. unfold turn_file. rewrite Hwav.
  fold file_path. rewrite (bind_ok _ _ (f_equal snd (H 256 512))), H.
  reflexivity.
Qed.
End Guards.

Section FloatGuards.
Import IEEE PreProcess2 Observe.
Variables prec emax : Z.
Context {L : Lib spec_float}.
Let format : Dtype spec_float := ieee prec emax.
#[local] Existing Instance format.

(** A difference whose left operand is a NaN or an infinity is one. *)
Lemma subtract_not_finite (x z : spec_float) :
  isfinite x = false -> isfinite (subtract x z) = false.
Proof.
  destruct x as [s|[|]| |s m e], z as [s'|[|]| |s' m' e'];
    try discriminate; reflexivity.
Qed.

Lemma shifted_not_finite (coeff x0 : spec_float) (xs : list spec_float) :
  Forall2 (fun x v => isfinite x = false -> isfinite v = false) xs
    (map (fun ab => subtract (fst ab) (multiply coeff (snd ab)))
         (combine xs (firstn (length xs) (x0 :: xs)))).
Proof.
  revert x0. induction xs as [|x xs IH]; intros x0; [constructor|].
  rewrite shifted_cons. cbn [map fst snd]. constructor; [|apply IH].
  apply subtract_not_finite.
Qed.

Lemma pre_emphasis_pointwise (audio_data y : list spec_float)
  (coeff : spec_float) :
  pre_emphasis audio_data coeff = Ok y ->
  Forall2 (fun x v => isfinite x = false -> isfinite v = false) audio_data y.
Proof.
  destruct audio_data as [|x0 xs]; [discriminate|].
  rewrite pre_emphasis_cons. intros E. injection E as <-.
  constructor; [auto|apply shifted_not_finite].
Qed.

Lemma pre_emphasis_exists (audio_data y : list spec_float)
  (coeff : spec_float) :
  pre_emphasis audio_data coeff = Ok y ->
  Exists (fun v => isfinite v = false) audio_data ->
  Exists (fun v => isfinite v = false) y.
Proof.
  intros E. apply pre_emphasis_pointwise in E.
  induction E as [|x v xs vs Hxv _ IH]; intros H; inversion H; subst.
  - left. auto.
  - right. auto.
Qed.

(** X3: In every binary format, pre-emphasis keeps a NaN or an infinity where
    it is: a sample that is not finite gives an output entry that is not
    finite at the same index, so the test of line 64 sees it. *)
Theorem pre_emphasis_keeps_nonfinite (audio_data y : list spec_float)
  (coeff : spec_float) :
  pre_emphasis audio_data coeff = Ok y ->
  Forall2 (fun x v => isfinite x = false -> isfinite v = false) audio_data y
  /\ (Exists (fun v => isfinite v = false) audio_data ->
      existsb isnan y || existsb isinf y = true).
Proof.
  intros E. split; [exact (pre_emphasis_pointwise _ _ E)|].
  intros H. apply guard_true_iff. now apply (pre_emphasis_exists _ E).
Qed.

(** X5: Whatever the clip, [process_audio] calls [librosa.lpc],
    [librosa.feature.mfcc], [librosa.cqt] and [np.roots] on finite numbers
    only.  The constant-Q transform receives the waveform as loaded, which
    line 64 does not test; it is finite because the pre-emphasised one is. *)
Theorem process_audio_calls_on_finite_input (file_path : string)
  (hop_length win_length : nat) :
  Forall finite_input (trace (process_audio file_path hop_length win_length)).
Proof.
  unfold process_audio.
  destruct (librosa_load file_path) as [[audio_data sample_rate]|e] eqn:Eload;
    [|step_raise; events; each_event; exact I].
  step_ok.
  destruct (pre_emphasis audio_data default_coeff) as [pre|e] eqn:Epre;
    [|step_raise; events; each_event; exact I].
  step_ok.
  destruct (existsb isnan pre || existsb isinf pre) eqn:Eg.
  { events. each_event; exact I. }
  assert (Hpre : all_isfinite pre) by now apply guard_false_iff.
  assert (Hraw : all_isfinite audio_data).
  { apply Forall_forall. intros v Hin.
    destruct (isfinite v) eqn:Ev; [reflexivity|].
    assert (Hex : Exists (fun v => isfinite v = false) audio_data)
      by (apply Exists_exists; eauto).
    apply (pre_emphasis_exists _ Epre), guard_true_iff in Hex. congruence. }
  destruct (compute_lsf_returns pre sample_rate default_order) as [lsf Hlsf].
  pose proof (compute_lsf_finite_input sample_rate default_order Hpre) as Hcalls.
  rewrite (bind_ok _ _ Hlsf). simpl_run.
  destruct (length lsf =? 0)%nat.
  { events. each_event; try exact I; try exact Hcalls. }
  unfold compute_mfcc, compute_lpc. do 2 step_ok.
  rewrite compute_cqcc_run. cbv zeta.
  destruct (normalize _) as [cqcc|e];
    events; each_event; try exact I; try exact Hcalls; assumption.
Qed.
End FloatGuards.

(** ** What the loops leave behind *)

Section Loops.
Context {F : Type} {D : Dtype F} {L : Lib F}.
Import Observe Expected.

Lemma bind_ret_tt (m : M (F := F) unit) : (ret tt ;; m) = m.
Proof. unfold bind, ret. cbn [fst snd app]. now destruct m. Qed.

Lemma for_each_filter {A} (keep : A -> bool) (body : A -> M (F := F) unit)
  (l : list A) :
  (forall x, keep x = false -> body x = ret tt) ->
  for_each l body = for_each (filter keep l) body.
Proof.
  intros H. induction l as [|x xs IH]; [reflexivity|]. cbn [filter for_each].
  destruct (keep x) eqn:E; cbn [for_each]; rewrite IH; [reflexivity|].
  rewrite (H x E). apply bind_ret_tt.
Qed.

Lemma for_each_ext {A} (body body' : A -> M (F := F) unit) (l : list A) :
  (forall x, body x = body' x) -> for_each l body = for_each l body'.
Proof.
  intros H. induction l as [|x xs IH]; [reflexivity|].
  cbn [for_each]. now rewrite H, IH.
Qed.

(** X6: Both loops pass over a name that does not end in [.wav]: the run on a
    listing is the run on its [.wav] names. *)
Theorem loops_skip_other_files (input_directory output_directory : string)
  (filenames : list string) :
  for_each filenames (PreProcess2.turn_file input_directory output_directory)
  = for_each (filter is_wav filenames)
             (PreProcess2.turn_file input_directory output_directory)
  /\ for_each filenames
       (PreProcess1.directory_file input_directory output_directory)
     = for_each (filter is_wav filenames)
         (PreProcess1.directory_file input_directory output_directory).
Proof.
  split; apply for_each_filter; intros filename E;
    unfold PreProcess2.turn_file, PreProcess1.directory_file;
    unfold is_wav in E; now rewrite E.
Qed.
End Loops.

Section DirectoryLog.
Context {F : Type} {D : Dtype F} {L : Lib F}.
Import Observe Expected PreProcess1.

Lemma loads_app (tr tr' : list (event F)) :
  loads (tr ++ tr') = loads tr ++ loads tr'.
Proof. apply flat_map_app. Qed.

Lemma stdout_lines_app (tr tr' : list (event F)) :
  stdout_lines (tr ++ tr') = stdout_lines tr ++ stdout_lines tr'.
Proof. apply flat_map_app. Qed.

Lemma savefig_paths_app (tr tr' : list (event F)) :
  savefig_paths (tr ++ tr') = savefig_paths tr ++ savefig_paths tr'.
Proof. apply flat_map_app. Qed.

(** The body of the [try]: one load, and one line when it gets through. *)
Lemma process_file_log (input_directory output_directory filename : string) :
  let run := process_file input_directory output_directory filename in
  loads (trace run) = [os_path_join input_directory filename]
  /\ stdout_lines (trace run)
     = match outcome run with
       | Ok _ => [("Successfully processed and saved feature image: "
                     ++ image_name filename)%string]
       | Raise _ => []
       end.
Proof.
  unfold process_file, extract_audio_features, visualize_and_save_features,
    image_name.
  unfold bind, call, call_fallible, lift, emit, print, ret, trace, outcome.
  cbn [fst snd].
  destruct (librosa_load _) as [[audio_data sample_rate]|e]; cbn [fst snd];
    [|split; reflexivity].
  destruct (argmax_axis0 _ _ _) as [pitch_indices|e]; cbn [fst snd];
    [|split; reflexivity].
  destruct (0 <? _)%nat; cbn [fst snd];
    destruct (plt_savefig _) as [[]|e]; cbn [fst snd]; split; reflexivity.
Qed.

Lemma directory_file_log (input_directory output_directory filename : string) :
  is_wav filename = true ->
  let run := directory_file input_directory output_directory filename in
  outcome run = Ok tt
  /\ loads (trace run) = [os_path_join input_directory filename]
  /\ stdout_lines (trace run)
     = [report input_directory output_directory filename].
Proof.
  intros Hwav. unfold directory_file. unfold is_wav in Hwav. rewrite Hwav.
  destruct (process_file_log input_directory output_directory filename)
    as [Hloads Hlines].
  unfold report, try_except. unfold outcome, trace in *.
  destruct (snd (process_file _ _ _)) as [[]|e] eqn:E.
  - rewrite E. auto.
  - cbn [fst snd]. rewrite loads_app, stdout_lines_app, Hloads, Hlines.
    split; [reflexivity|]. split; reflexivity.
Qed.

(** X7: The loop of [process_audio_directory], on any listing: it never
    raises; it loads every [.wav] file once, in the order of the listing;
    and it prints one line per [.wav] file, the success line or the error
    line with the message of the exception. *)
Theorem directory_loop_log (input_directory output_directory : string)
  (filenames : list string) :
  let run := for_each filenames
               (directory_file input_directory output_directory) in
  outcome run = Ok tt
  /\ loads (trace run)
     = map (os_path_join input_directory) (filter is_wav filenames)
  /\ stdout_lines (trace run)
     = map (report input_directory output_directory)
           (filter is_wav filenames).
Proof.
  induction filenames as [|filename rest IH]; [repeat split|].
  destruct IH as [IHok [IHloads IHlines]]. cbn [for_each filter].
  destruct (is_wav filename) eqn:Hwav.
  - destruct (directory_file_log input_directory output_directory filename Hwav)
      as [Hok [Hloads Hlines]].
    rewrite (bind_ok _ _ Hok). unfold outcome, trace in *. cbn [fst snd].
    rewrite loads_app, stdout_lines_app, Hloads, Hlines, IHloads, IHlines.
    repeat split; assumption.
  - unfold directory_file at 1 3 5. unfold is_wav in Hwav. rewrite Hwav.
    rewrite bind_ret_tt. repeat split; assumption.
Qed.
(** The body of the [try] calls [plt.savefig] once, on the image of the
    clip, when the clip decodes and its features are extracted, and not at
    all otherwise. *)
Lemma process_file_saves (input_directory output_directory filename : string) :
  savefig_paths
    (trace (process_file input_directory output_directory filename))
  = if extracts input_directory filename
    then [image_path output_directory filename] else [].
Proof.
  unfold process_file, extracts, extract_audio_features,
    visualize_and_save_features, image_path, image_name.
  unfold bind, call, call_fallible, lift, emit, print, ret, trace, outcome.
  cbn [fst snd].
  destruct (librosa_load _) as [[audio_data sample_rate]|e]; cbn [fst snd];
    [|reflexivity].
  destruct (argmax_axis0 _ _ _) as [pitch_indices|e]; cbn [fst snd];
    [|reflexivity].
  destruct (0 <? _)%nat; cbn [fst snd];
    destruct (plt_savefig _) as [[]|e]; cbn [fst snd]; reflexivity.
Qed.

(** A clip whose [try] body runs to its end has decoded and had its
    features extracted. *)
Lemma process_file_ok_extracts
  (input_directory output_directory filename : string) :
  is_ok (outcome (process_file input_directory output_directory filename))
  = true ->
  extracts input_directory filename = true.
Proof.
  unfold process_file, extracts, extract_audio_features,
    visualize_and_save_features.
  unfold bind, call, call_fallible, lift, emit, print, ret, trace, outcome.
  cbn [fst snd].
  destruct (librosa_load _) as [[audio_data sample_rate]|e]; cbn [fst snd];
    [|discriminate].
  destruct (argmax_axis0 _ _ _) as [pitch_indices|e]; cbn [fst snd];
    [reflexivity|discriminate].
Qed.

Lemma directory_saves (input_directory output_directory : string)
  (filenames : list string) :
  savefig_paths
    (trace (for_each filenames
              (directory_file input_directory output_directory)))
  = map (image_path output_directory)
        (filter (fun f => is_wav f && extracts input_directory f) filenames).
Proof.
  induction filenames as [|filename rest IH]; [reflexivity|].
  cbn [for_each filter].
  destruct (is_wav filename) eqn:Hwav; cbn [andb].
  - destruct (directory_file_log input_directory output_directory filename
                Hwav) as [Hok _].
    rewrite (bind_ok _ _ Hok). unfold trace in *. cbn [fst].
    rewrite savefig_paths_app, IH.
    unfold directory_file. unfold is_wav in Hwav. rewrite Hwav.
    pose proof (process_file_saves input_directory output_directory filename)
      as Hfile.
    unfold try_except, trace in *.
    destruct (snd (process_file _ _ _)) as [[]|e]; cbn [fst].
    + rewrite Hfile. now destruct (extracts input_directory filename).
    + rewrite savefig_paths_app, Hfile. cbn.
      rewrite app_nil_r. now destruct (extracts input_directory filename).
  - unfold directory_file at 1. unfold is_wav in Hwav. rewrite Hwav.
    now rewrite bind_ret_tt.
Qed.

(** X8: What the loop of [process_audio_directory] hands to [plt.savefig], on
    any listing: images of listed [.wav] names and nothing else, in the
    order of the listing, the same clips at every occurrence of a name,
    and among them every clip whose [try] body runs to its end, which is
    every clip whose success line is printed. *)
Theorem directory_saved_images (input_directory output_directory : string)
  (filenames : list string) :
  exists reached : string -> bool,
    savefig_paths
      (trace (for_each filenames
                (directory_file input_directory output_directory)))
    = map (image_path output_directory)
          (filter (fun f => is_wav f && reached f) filenames)
    /\ forall filename : string,
         is_ok (outcome (process_file input_directory output_directory
                           filename)) = true ->
         reached filename = true.
Proof.
  exists (extracts input_directory). split.
  - apply directory_saves.
  - apply process_file_ok_extracts.
Qed.
End DirectoryLog.

Section TurnImages.
Context {F : Type} {D : Dtype F} {L : Lib F}.
Import Observe Expected PreProcess2.

Lemma compute_lsf_computes_only (audio_data : list F) (sample_rate : Z)
  (order : nat) :
  Forall computes_only (trace (compute_lsf audio_data sample_rate order)).
Proof.
  rewrite compute_lsf_cases. cbv zeta.
  destruct (degenerate_model _); [|destruct (degenerate_roots _);
    [|destruct (no_stable_roots _)]];
    simpl_run; each_event; exact I.
Qed.

(** [process_audio] reads and computes; it draws nothing, saves nothing
    and creates no directory. *)
Lemma process_audio_computes_only (file_path : string)
  (hop_length win_length : nat) :
  Forall computes_only (trace (process_audio file_path hop_length win_length)).
Proof.
  unfold process_audio.
  destruct (librosa_load file_path) as [[audio_data sample_rate]|e];
    [|step_raise; events; each_event; exact I].
  step_ok.
  destruct (pre_emphasis audio_data default_coeff) as [pre|e];
    [|step_raise; events; each_event; exact I].
  step_ok.
  destruct (existsb isnan pre || existsb isinf pre).
  { events. each_event; exact I. }
  destruct (compute_lsf_returns pre sample_rate default_order) as [lsf Hlsf].
  pose proof (compute_lsf_computes_only pre sample_rate default_order)
    as Hcalls.
  rewrite (bind_ok _ _ Hlsf). simpl_run.
  destruct (length lsf =? 0)%nat.
  { events. each_event; try exact I; exact Hcalls. }
  unfold compute_mfcc, compute_lpc. do 2 step_ok.
  rewrite compute_cqcc_run. cbv zeta.
  destruct (normalize _) as [cqcc|e];
    events; each_event; try exact I; exact Hcalls.
Qed.

Lemma savefig_paths_computes_only (tr : list (event F)) :
  Forall computes_only tr -> savefig_paths tr = [].
Proof.
  induction 1 as [|ev tr Hev _ IH]; [reflexivity|].
  cbn [savefig_paths flat_map]. fold (savefig_paths tr). rewrite IH.
  destruct ev; try reflexivity; contradiction.
Qed.

(** The loop body of [turn], when it returns: one image for a [.wav] clip
    with features, none otherwise. *)
Lemma turn_file_saves (input_directory output_directory filename : string) :
  let run := turn_file input_directory output_directory filename in
  outcome run = Ok tt ->
  savefig_paths (trace run)
  = if is_wav filename && yields_features input_directory filename
    then [image_path output_directory filename] else [].
Proof.
  unfold turn_file, is_wav, yields_features, image_path, image_name.
  destruct (endswith filename ".wav"); [|reflexivity]. cbn [andb].
  pose proof (process_audio_computes_only
                (os_path_join input_directory filename) 256 512) as Hpa.
  apply savefig_paths_computes_only in Hpa.
  destruct (outcome (process_audio _ 256 512)) as [[feats|]|e] eqn:E.
  - rewrite (bind_ok _ _ E). destruct feats as [[[lsf mfccs] lpc] cqcc].
    unfold save_spectrograms. events. rewrite savefig_paths_app.
    unfold trace in Hpa. rewrite Hpa.
    destruct (plt_savefig _) as [[]|e]; [reflexivity|discriminate].
  - rewrite (bind_ok _ _ E). events. rewrite savefig_paths_app.
    unfold trace in Hpa. now rewrite Hpa.
  - rewrite (bind_raise _ _ E). discriminate.
Qed.

Lemma turn_loop_saves (input_directory output_directory : string)
  (filenames : list string) :
  let run := for_each filenames (turn_file input_directory output_directory) in
  outcome run = Ok tt ->
  savefig_paths (trace run)
  = map (image_path output_directory)
        (filter (fun f => is_wav f && yields_features input_directory f)
                filenames).
Proof.
  induction filenames as [|filename rest IH]; [reflexivity|].
  cbn [for_each filter].
  destruct (outcome (turn_file input_directory output_directory filename))
    as [[]|e] eqn:E.
  - pose proof (turn_file_saves input_directory output_directory filename E)
      as Hfile.
    rewrite (bind_ok _ _ E). unfold outcome, trace in *. cbn [fst snd].
    intros Hrest. rewrite savefig_paths_app, (IH Hrest), Hfile.
    now destruct (is_wav filename && yields_features input_directory filename).
  - rewrite (bind_raise _ _ E). discriminate.
Qed.

(** X9: When [turn] returns, the images it saved are those of the [.wav] clips
    for which [process_audio] returned features, one each, in the order of
    the listing; a clip for which it returned [None] has no image and does
    not stop the loop. *)
Theorem turn_saved_images (input_directory output_directory : string) :
  let run := turn input_directory output_directory in
  outcome run = Ok tt ->
  savefig_paths (trace run)
  = map (image_path output_directory)
        (filter (fun f => is_wav f && yields_features input_directory f)
                (os_listdir input_directory)).
Proof.
  unfold turn. cbv zeta.
  set (loop := for_each (os_listdir input_directory)
                        (turn_file input_directory output_directory)).
  assert (Hsplit : forall pre : M (F := F) unit,
             outcome pre = Ok tt ->
             savefig_paths (trace pre) = [] ->
             outcome (pre ;; filenames <- call (OsListdir input_directory)
                                              (os_listdir input_directory) ;;
                      for_each filenames
                        (turn_file input_directory output_directory))
             = outcome loop
             /\ savefig_paths
                  (trace (pre ;; filenames <- call (OsListdir input_directory)
                                                   (os_listdir input_directory) ;;
                          for_each filenames
                            (turn_file input_directory output_directory)))
                = savefig_paths (trace loop)).
  { intros pre Hok Hnone. rewrite (bind_ok _ _ Hok). step_ok.
    rewrite !savefig_paths_app. unfold trace in Hnone. rewrite Hnone.
    split; reflexivity. }
  destruct (os_path_exists output_directory); cbn [negb].
  - destruct (Hsplit (ret tt) eq_refl eq_refl) as [-> ->].
    apply turn_loop_saves.
  - destruct (Hsplit (emit (OsMakedirs output_directory)) eq_refl eq_refl)
      as [-> ->].
    apply turn_loop_saves.
Qed.
End TurnImages.

(** ** Features that are computed and never drawn *)

Section Unused.
Context {F : Type} {D : Dtype F} {L : Lib F}.
Import Variant.

(** X10: The mel spectrogram that [extract_audio_features] returns reaches no
    plot: whatever [librosa.feature.melspectrogram] answers, the run of
    [process_audio_directory] is the same, event for event. *)
Theorem melspectrogram_is_never_drawn (answer : list F -> Z -> matrix F)
  (input_directory output_directory : string) :
  PreProcess1.process_audio_directory (L := with_melspectrogram L answer)
    input_directory output_directory
  = PreProcess1.process_audio_directory (L := L)
      input_directory output_directory.
Proof.
  assert (Hloop : forall filenames,
             for_each filenames
               (PreProcess1.directory_file (L := with_melspectrogram L answer)
                  input_directory output_directory)
             = for_each filenames
                 (PreProcess1.directory_file (L := L)
                    input_directory output_directory));
    [|unfold PreProcess1.process_audio_directory;
      unfold bind at 1 2 3 4; unfold emit, call;
      cbn [fst snd os_listdir with_melspectrogram]; now rewrite Hloop].
  intros filenames. apply for_each_ext. intros filename.
  unfold PreProcess1.directory_file.
  destruct (endswith filename ".wav"); [|reflexivity]. f_equal.
  unfold PreProcess1.process_file, PreProcess1.extract_audio_features,
    PreProcess1.visualize_and_save_features.
  cbn [os_path_join os_path_splitext librosa_load librosa_melspectrogram
       librosa_piptrack librosa_spectral_centroid librosa_spectral_contrast
       plt_savefig with_melspectrogram].
  unfold bind, call, call_fallible, lift, emit, print, ret.
  cbn [fst snd].
  destruct (librosa_load _) as [[audio_data sample_rate]|e]; cbn [fst snd];
    [|reflexivity].
  destruct (PreProcess1.argmax_axis0 _ _ _) as [pitch_indices|e];
    cbn [fst snd]; reflexivity.
Qed.

(** Under another answer for the MFCC, [process_audio] makes the same
    calls and returns the same LSF, LPC and CQCC. *)
Lemma process_audio_with_mfcc (answer : list F -> Z -> nat -> matrix F)
  (file_path : string) (hop_length win_length : nat) :
  let run' := PreProcess2.process_audio (L := with_mfcc L answer)
                file_path hop_length win_length in
  let run := PreProcess2.process_audio (L := L)
               file_path hop_length win_length in
  trace run' = trace run
  /\ match outcome run', outcome run with
     | Ok (Some (lsf', _, lpc', cqcc')), Ok (Some (lsf, _, lpc, cqcc)) =>
         lsf' = lsf /\ lpc' = lpc /\ cqcc' = cqcc
     | Ok None, Ok None => True
     | Raise e', Raise e => e' = e
     | _, _ => False
     end.
Proof.
  cbv zeta. rewrite !process_audio_cases.
  cbn [librosa_load librosa_lpc librosa_mfcc librosa_mfcc_S librosa_cqt
       with_mfcc].
  change (@PreProcess2.compute_lsf F D (with_mfcc L answer))
    with (@PreProcess2.compute_lsf F D L).
  change (@PreProcess2.log_magnitude F D (with_mfcc L answer))
    with (@PreProcess2.log_magnitude F D L).
  destruct (librosa_load file_path) as [[audio_data sample_rate]|e];
    [|cbn; auto].
  destruct (PreProcess2.pre_emphasis audio_data PreProcess2.default_coeff)
    as [pre|e]; [|cbn; auto].
  destruct (existsb isnan pre || existsb isinf pre); [cbn; auto|].
  cbv zeta.
  destruct (outcome (PreProcess2.compute_lsf pre sample_rate _)) as [lsf|e];
    [|cbn; auto].
  destruct (length lsf =? 0)%nat; [cbn; auto|].
  destruct (PreProcess2.normalize _) as [cqcc|e]; cbn; auto.
Qed.

(** X11: Likewise the MFCC array in [pre_process_2.py]: [save_spectrograms]
    draws the LSF and the LPC panel only, so the run of [turn] is the same
    whatever [librosa.feature.mfcc(y=...)] answers. *)
Theorem mfcc_is_never_drawn (answer : list F -> Z -> nat -> matrix F)
  (input_directory output_directory : string) :
  PreProcess2.turn (L := with_mfcc L answer) input_directory output_directory
  = PreProcess2.turn (L := L) input_directory output_directory.
Proof.
  assert (Hloop : forall filenames,
             for_each filenames
               (PreProcess2.turn_file (L := with_mfcc L answer)
                  input_directory output_directory)
             = for_each filenames
                 (PreProcess2.turn_file (L := L)
                    input_directory output_directory));
    [|unfold PreProcess2.turn;
      cbn [os_path_exists os_listdir with_mfcc];
      destruct (os_path_exists output_directory); cbn [negb];
      unfold bind at 1 2 3 4; unfold emit, call, ret;
      cbn [fst snd]; now rewrite Hloop].
  intros filenames. apply for_each_ext. intros filename.
  unfold PreProcess2.turn_file.
  destruct (endswith filename ".wav"); [|reflexivity].
  cbn [os_path_join os_path_splitext with_mfcc].
  destruct (process_audio_with_mfcc answer
              (os_path_join input_directory filename) 256 512)
    as [Htrace Hout].
  destruct (outcome (PreProcess2.process_audio (L := with_mfcc L answer) _ _ _))
    as [[[[[lsf' mfccs'] lpc'] cqcc']|]|e'] eqn:E';
    destruct (outcome (PreProcess2.process_audio (L := L) _ _ _))
      as [[[[[lsf mfccs] lpc] cqcc]|]|e] eqn:E;
    try contradiction.
  - destruct Hout as [-> [-> ->]].
    rewrite (bind_ok _ _ E'), (bind_ok _ _ E), Htrace. reflexivity.
  - rewrite (bind_ok _ _ E'), (bind_ok _ _ E), Htrace. reflexivity.
  - subst e'. rewrite (bind_raise _ _ E'), (bind_raise _ _ E), Htrace.
    reflexivity.
Qed.
End Unused.

(** ** Shapes *)

Section Shapes.
Context {F : Type} {D : Dtype F} {L : Lib F}.
Import PreProcess2.

Lemma compute_lsf_length (audio_data : list F) (sample_rate : Z) (order : nat)
  (lsf : list F) :
  lpc_contract -> roots_contract ->
  outcome (compute_lsf audio_data sample_rate order) = Ok lsf ->
  length lsf <= 13.
Proof.
  intros Hlpc Hroots. rewrite compute_lsf_cases. cbv zeta.
  destruct (Hlpc audio_data 12) as [a [Ha Hlen]].
  set (p := polynomial (librosa_lpc audio_data 12)).
  assert (Hp : length p = 14).
  { subst p. rewrite Ha. unfold polynomial. simpl.
    rewrite length_map, Hlen. reflexivity. }
  destruct (degenerate_model p);
    [intros E; injection E as <-; simpl; lia|].
  destruct (degenerate_roots _);
    [intros E; injection E as <-; simpl; lia|].
  destruct (no_stable_roots _);
    [intros E; injection E as <-; simpl; lia|].
  intros E. injection E as <-.
  rewrite sort_length, length_map. unfold stable.
  pose proof (filter_length_le (fun r => less (np_abs r) one) (np_roots p)) as Hf.
  pose proof (Hroots p) as Hr. lia.
Qed.

(** X12: What [save_spectrograms] is given to draw: under the contracts of
    [librosa.lpc] and [np.roots], every feature tuple [process_audio]
    returns has between 1 and 13 line-spectrum values (the test of line 69
    keeps an empty result out) and an LPC panel of 13 rows of one entry,
    the first of which is 1. *)
Theorem process_audio_feature_shapes (file_path : string)
  (hop_length win_length : nat) (lsf : list F) (mfccs lpc cqcc : matrix F) :
  lpc_contract -> roots_contract ->
  outcome (process_audio file_path hop_length win_length)
  = Ok (Some (lsf, mfccs, lpc, cqcc)) ->
  1 <= length lsf <= 13
  /\ length lpc = 13
  /\ Forall (fun row => length row = 1) lpc
  /\ hd_error lpc = Some [one].
Proof.
  intros Hlpc Hroots. rewrite process_audio_cases.
  destruct (librosa_load file_path) as [[audio_data sample_rate]|e];
    [|discriminate].
  destruct (pre_emphasis audio_data default_coeff) as [pre|e];
    [|discriminate].
  destruct (existsb isnan pre || existsb isinf pre); [discriminate|].
  cbv zeta.
  destruct (outcome (compute_lsf pre sample_rate default_order))
    as [lsf'|e] eqn:Elsf; [|discriminate].
  destruct (length lsf' =? 0)%nat eqn:Elen; [discriminate|].
  destruct (normalize _) as [cqcc'|e]; [|discriminate].
  unfold outcome. cbn [snd]. intros E. injection E as <- _ <- _.
  apply Nat.eqb_neq in Elen.
  pose proof (@compute_lsf_length _ _ _ _ Hlpc Hroots Elsf) as Hle.
  destruct (Hlpc pre 12) as [a [Ha Hlen]]. rewrite Ha.
  split; [lia|]. split; [|split].
  - rewrite length_map. simpl. lia.
  - apply Forall_forall. intros row Hrow. apply in_map_iff in Hrow.
    now destruct Hrow as [c [<- _]].
  - reflexivity.
Qed.

Lemma map_length_map_map {A B} (f : A -> B) (a : list (list A)) :
  map (@length B) (map (map f) a) = map (@length A) a.
Proof.
  induction a as [|row rows IH]; [reflexivity|].
  cbn [map]. now rewrite length_map, IH.
Qed.

Lemma normalize_nonempty (cqcc : matrix F) :
  concat cqcc <> [] ->
  exists lo hi,
    Numpy.min_flat (concat cqcc) = Ok lo
    /\ Numpy.max_flat (map (fun v => subtract v lo) (concat cqcc)) = Ok hi
    /\ normalize cqcc
       = Ok (map (map (fun v => divide v hi))
                 (map (map (fun v => subtract v lo)) cqcc)).
Proof.
  intros Hne. unfold normalize, Numpy.min2, Numpy.max2.
  destruct (concat cqcc) as [|x xs] eqn:E; [congruence|].
  cbn [Numpy.min_flat]. cbv zeta.
  rewrite concat_map_map, E. cbn [map Numpy.max_flat].
  do 2 eexists. repeat split.
Qed.

(** X13: The two in-place lines of [compute_cqcc]: on a cepstral array without
    entries [np.min] raises [ValueError]; on any other array they raise
    nothing, whatever the values (a division by zero is no exception), and
    the result has the shape of the array. *)
Theorem compute_cqcc_shape (audio_data : list F) (sample_rate : Z)
  (n_bands n_coeffs hop_length : nat) :
  let cepstrum :=
    librosa_mfcc_S
      (log_magnitude (librosa_cqt audio_data sample_rate n_bands hop_length))
      n_coeffs in
  let run := compute_cqcc audio_data sample_rate n_bands n_coeffs hop_length in
  (concat cepstrum = [] ->
   outcome run
   = Raise (ValueError
       "zero-size array to reduction operation minimum which has no identity"))
  /\ (concat cepstrum <> [] ->
      exists cqcc : matrix F,
        outcome run = Ok cqcc
        /\ map (@length F) cqcc = map (@length F) cepstrum).
Proof.
  intros cepstrum run. subst run. rewrite compute_cqcc_run. fold cepstrum.
  unfold outcome. cbn [snd]. split.
  - intros E. unfold normalize, Numpy.min2. now rewrite E.
  - intros Hne.
    destruct (normalize_nonempty _ Hne) as [lo [hi [_ [_ ->]]]].
    eexists. split; [reflexivity|]. now rewrite !map_length_map_map.
Qed.
End Shapes.

(** ** The normalisation outside its range of use *)

Section Choice.
Context {F : Type}.

(** A fold that keeps one of its two arguments returns an entry. *)
Lemma fold_left_choice (f : F -> F -> F) (l : list F) (x : F) :
  (forall a b, f a b = a \/ f a b = b) -> In (fold_left f l x) (x :: l).
Proof.
  intros Hf. revert x. induction l as [|y ys IH]; intros x; [now left|].
  cbn [fold_left]. destruct (IH (f x y)) as [E|Hin].
  - rewrite <- E. destruct (Hf x y) as [-> | ->]; [now left|right; now left].
  - right. now right.
Qed.
End Choice.

Section Degenerate.
Import IEEE PreProcess2.
Variables prec emax : Z.
Context {L : Lib spec_float}.
Let format : Dtype spec_float := ieee prec emax.
#[local] Existing Instance format.

Lemma minimum_choice (a b : spec_float) :
  Numpy.minimum a b = a \/ Numpy.minimum a b = b.
Proof. unfold Numpy.minimum. destruct (_ || _); auto. Qed.

Lemma maximum_choice (a b : spec_float) :
  Numpy.maximum a b = a \/ Numpy.maximum a b = b.
Proof. unfold Numpy.maximum. destruct (_ || _); auto. Qed.

Lemma min_flat_in (l : list spec_float) (m : spec_float) :
  Numpy.min_flat l = Ok m -> In m l.
Proof.
  destruct l as [|x xs]; [discriminate|]. intros E. injection E as <-.
  apply fold_left_choice, minimum_choice.
Qed.

Lemma max_flat_in (l : list spec_float) (m : spec_float) :
  Numpy.max_flat l = Ok m -> In m l.
Proof.
  destruct l as [|x xs]; [discriminate|]. intros E. injection E as <-.
  apply fold_left_choice, maximum_choice.
Qed.

(** [np.min] propagates a NaN. *)
Lemma fold_minimum_nan (l : list spec_float) (acc : spec_float) :
  is_nan acc = true \/ Exists (fun v => is_nan v = true) l ->
  is_nan (fold_left Numpy.minimum l acc) = true.
Proof.
  revert acc. induction l as [|x xs IH]; intros acc H.
  - destruct H as [H|H]; [exact H|inversion H].
  - cbn [fold_left]. apply IH.
    destruct H as [H|H].
    + left. unfold Numpy.minimum. cbn [isnan format ieee].
      rewrite H, orb_true_r. exact H.
    + inversion H as [? ? Hx|? ? Hxs]; subst; [|now right].
      left. unfold Numpy.minimum. cbn [isnan less format ieee].
      destruct acc, x; try discriminate Hx; reflexivity.
Qed.

Lemma min_flat_nan (l : list spec_float) (m : spec_float) :
  Exists (fun v => is_nan v = true) l ->
  Numpy.min_flat l = Ok m -> is_nan m = true.
Proof.
  destruct l as [|x xs]; [discriminate|]. intros H E. injection E as <-.
  apply fold_minimum_nan. inversion H; subst; auto.
Qed.

Lemma subtract_nan (x m : spec_float) :
  is_nan m = true -> is_nan (subtract x m) = true.
Proof. destruct m; try discriminate. now destruct x. Qed.

Lemma divide_nan (s h : spec_float) :
  is_nan h = true -> is_nan (divide s h) = true.
Proof. destruct h; try discriminate. now destruct s. Qed.

Lemma divide_zero_zero (s h : spec_float) :
  is_zero s = true -> is_zero h = true -> is_nan (divide s h) = true.
Proof. destruct s, h; try discriminate; reflexivity. Qed.

(** What the two in-place lines return once every shifted entry and the
    divisor are of a kind that divides to NaN. *)
Lemma normalize_all_nan (cqcc : matrix spec_float)
  (bad : spec_float -> bool) :
  concat cqcc <> [] ->
  (forall lo, Numpy.min_flat (concat cqcc) = Ok lo ->
     forall x, In x (concat cqcc) -> bad (subtract x lo) = true) ->
  (forall s h, bad s = true -> bad h = true -> is_nan (divide s h) = true) ->
  exists out : matrix spec_float,
    normalize cqcc = Ok out
    /\ map (@length spec_float) out = map (@length spec_float) cqcc
    /\ Forall (fun v => isnan v = true) (concat out).
Proof.
  intros Hne Hshift Hdiv.
  destruct (normalize_nonempty _ Hne) as [lo [hi [Hlo [Hhi ->]]]].
  eexists. split; [reflexivity|]. split; [now rewrite !map_length_map_map|].
  rewrite !concat_map_map. apply Forall_forall. intros v Hv.
  apply in_map_iff in Hv. destruct Hv as [s [<- Hs]].
  apply max_flat_in in Hhi.
  apply in_map_iff in Hs, Hhi.
  destruct Hs as [x' [<- Hx']], Hhi as [y' [<- Hy']].
  apply Hdiv; eapply Hshift; eauto.
Qed.

(** X14: One NaN among the cepstral coefficients turns every entry of the
    result into NaN: [np.min] returns NaN, each difference with it is NaN,
    and so is each quotient. *)
Theorem compute_cqcc_nan_spreads (audio_data : list spec_float)
  (sample_rate : Z) (n_bands n_coeffs hop_length : nat) :
  let cepstrum :=
    librosa_mfcc_S
      (log_magnitude (librosa_cqt audio_data sample_rate n_bands hop_length))
      n_coeffs in
  Exists (fun v => isnan v = true) (concat cepstrum) ->
  exists cqcc : matrix spec_float,
    outcome (compute_cqcc audio_data sample_rate n_bands n_coeffs hop_length)
    = Ok cqcc
    /\ map (@length spec_float) cqcc = map (@length spec_float) cepstrum
    /\ Forall (fun v => isnan v = true) (concat cqcc).
Proof.
  intros cepstrum Hnan. rewrite compute_cqcc_run. fold cepstrum.
  unfold outcome. cbn [snd].
  apply (normalize_all_nan cepstrum is_nan).
  - intros E. rewrite E in Hnan. inversion Hnan.
  - intros lo Hlo x _. apply subtract_nan. exact (min_flat_nan Hnan Hlo).
  - intros s h _ Hh. now apply divide_nan.
Qed.
Import IEEERounding.
Hypothesis Hprec : (1 < prec)%Z.

(** X15: The constant case: when the cepstral coefficients are finite and all
    equal, every entry of the result is NaN.  Each difference with the
    minimum is zero, so is their maximum, and zero divided by zero is NaN;
    nothing is raised. *)
Theorem compute_cqcc_constant_is_nan (audio_data : list spec_float)
  (sample_rate : Z) (n_bands n_coeffs hop_length : nat) :
  let cepstrum :=
    librosa_mfcc_S
      (log_magnitude (librosa_cqt audio_data sample_rate n_bands hop_length))
      n_coeffs in
  concat cepstrum <> [] ->
  all_valid cepstrum -> all_finite cepstrum ->
  (forall x y, In x (concat cepstrum) -> In y (concat cepstrum) ->
               equal x y = true) ->
  exists cqcc : matrix spec_float,
    outcome (compute_cqcc audio_data sample_rate n_bands n_coeffs hop_length)
    = Ok cqcc
    /\ map (@length spec_float) cqcc = map (@length spec_float) cepstrum
    /\ Forall (fun v => isnan v = true) (concat cqcc).
Proof.
  intros cepstrum Hne Hval Hfin Hconst. rewrite compute_cqcc_run.
  fold cepstrum. unfold outcome. cbn [snd].
  apply (normalize_all_nan cepstrum is_zero Hne).
  - intros lo Hlo x Hx. apply min_flat_in in Hlo.
    unfold all_valid, all_finite in Hval, Hfin.
    rewrite Forall_forall in Hval, Hfin.
    pose proof (regular_intro prec emax x (Hval x Hx) (Hfin x Hx)) as Rx.
    pose proof (regular_intro prec emax lo (Hval lo Hlo) (Hfin lo Hlo)) as Rlo.
    destruct (SFsub_spec prec emax Hprec x lo Rx Rlo) as [_ [_ Hzero]].
    apply Hzero. symmetry.
    apply (SFeqb_value prec emax Hprec x lo Rx Rlo). now apply Hconst.
  - intros s h. apply divide_zero_zero.
Qed.
End Degenerate.

(** ** The fundamental period, value by value *)

Section FilterFacts.
Context {A B : Type}.

Lemma filter_map_swap (g : A -> B) (keep : B -> bool) (l : list A) :
  filter keep (map g l) = map g (filter (fun a => keep (g a)) l).
Proof.
  induction l as [|a l IH]; [reflexivity|]. cbn [map filter].
  destruct (keep (g a)); cbn [map]; now rewrite IH.
Qed.

Lemma filter_filter (p q : A -> bool) (l : list A) :
  filter q (filter p l) = filter (fun a => p a && q a) l.
Proof.
  induction l as [|a l IH]; [reflexivity|]. cbn [filter].
  destruct (p a); cbn [filter andb]; [destruct (q a)|]; now rewrite IH.
Qed.
End FilterFacts.

Section Periods.
Import IEEE PreProcess1.
Variables prec emax : Z.
Let format : Dtype spec_float := ieee prec emax.
#[local] Existing Instance format.

(** A rounded result has the sign it was given. *)
Lemma binary_round_aux_sign (sx : bool) (mx ex : Z) (lx : location) :
  match binary_round_aux prec emax sx mx ex lx with
  | S754_zero s | S754_infinity s | S754_finite s _ _ => s = sx
  | S754_nan => True
  end.
Proof.
  unfold binary_round_aux.
  destruct (shr_fexp prec emax mx ex lx) as [mrs e].
  destruct (shr_fexp prec emax _ e loc_Exact) as [mrs' e'].
  destruct (shr_m mrs'); [reflexivity| |exact I].
  destruct (e' <=? emax - prec)%Z; reflexivity.
Qed.

Lemma one_sign :
  match @one _ format with
  | S754_zero s | S754_infinity s | S754_finite s _ _ => s = false
  | S754_nan => True
  end.
Proof.
  cbn [one format ieee]. unfold of_Z, binary_normalize, binary_round.
  destruct (shl_align _ _ _) as [mz ez].
  apply binary_round_aux_sign.
Qed.

(** A reciprocal that is finite and above zero is that of a finite float
    above zero. *)
Lemma reciprocal_kept (f : spec_float) :
  isfinite (divide one f) && less zero (divide one f) = true ->
  exists m e, f = S754_finite false m e.
Proof.
  pose proof one_sign as H1. cbn [divide format ieee].
  cbn [one format ieee] in *.
  destruct (of_Z prec emax 1) as [s1|s1| |s1 m1 e1]; subst;
    destruct f as [s|s| |s m e]; try discriminate; cbn [SFdiv xorb].
  destruct (SFdiv_core_binary prec emax (Z.pos m1) e1 (Z.pos m) e)
    as [[mz ez] lz].
  pose proof (binary_round_aux_sign s mz ez lz) as Hs.
  destruct (binary_round_aux prec emax s mz ez lz) as [s'|s'| |s' m' e'];
    try discriminate; subst; destruct s; try discriminate.
  intros _. eauto.
Qed.

(** X16: Lines 27 to 29: the fundamental periods are the reciprocals [1 / f0],
    in frame order, of the frames whose reciprocal is finite and above
    zero, and every such [f0] is itself finite and above zero.  A frame
    without pitch ([f0 = 0], reciprocal infinite), a negative, an infinite
    or a NaN [f0] leaves no entry. *)
Theorem periods_are_reciprocals (fundamental_frequencies : list spec_float) :
  let kept := fun f => isfinite (divide one f) && less zero (divide one f) in
  periods fundamental_frequencies
  = map (fun f => divide one f) (filter kept fundamental_frequencies)
  /\ forall f, kept f = true -> exists m e, f = S754_finite false m e.
Proof.
  intros kept. split; [|apply reciprocal_kept].
  unfold periods. now rewrite filter_map_swap, filter_map_swap, filter_filter.
Qed.
End Periods.

(** ** The first guard of [compute_lsf] *)

Section ModelGuard.
Import IEEE PreProcess2 IEEERounding.
Variables prec emax : Z.
Hypothesis Hprec : (1 < prec)%Z.
Hypothesis Hemax : (prec < emax)%Z.
Context {L : Lib spec_float}.
Let format : Dtype spec_float := ieee prec emax.
#[local] Existing Instance format.

Lemma one_is_finite : isfinite (@one _ format) = true.
Proof.
  destruct (one_spec prec emax Hprec Hemax) as [H _]. cbv zeta in H.
  unfold regular in H. apply andb_true_iff in H. destruct H as [_ H].
  cbn [one format ieee]. unfold of_Z.
  now destruct (binary_normalize prec emax 1 0 false).
Qed.

Lemma negative_isfinite (v : spec_float) :
  isfinite (negative v) = isfinite v.
Proof. now destruct v. Qed.

Lemma polynomial_guard (lpc_coeffs : list spec_float) :
  degenerate_model (polynomial lpc_coeffs) = true
  <-> Exists (fun v => isfinite v = false) lpc_coeffs.
Proof.
  unfold degenerate_model. rewrite orb_comm, guard_true_iff.
  unfold polynomial. split.
  - intros H. inversion H as [? ? H1|? ? Hrest]; subst.
    + exfalso. exact (eq_true_false_abs _ one_is_finite H1).
    + apply Exists_exists in Hrest. destruct Hrest as [v [Hin Hv]].
      apply in_map_iff in Hin. destruct Hin as [c [<- Hc]].
      cbv beta in Hv. rewrite negative_isfinite in Hv.
      apply Exists_exists. eauto.
  - intros H. right. apply Exists_exists in H. destruct H as [c [Hc Hv]].
    apply Exists_exists. exists (negative c). split.
    + now apply in_map.
    + now rewrite negative_isfinite.
Qed.

(** X17: In float32 and float64 the warning of line 16 is printed exactly when
    [librosa.lpc] has returned a coefficient that is not finite: the 1 put
    in front and the change of sign neither trip the test nor hide a NaN
    or an infinity from it.  When it is printed the root finder is not
    called. *)
Theorem lpc_warning_iff (audio_data : list spec_float) (sample_rate : Z)
  (order : nat) :
  let run := compute_lsf audio_data sample_rate order in
  (In (Stdout warn_polynomial) (trace run)
   <-> Exists (fun v => isfinite v = false) (librosa_lpc audio_data 12))
  /\ (In (Stdout warn_polynomial) (trace run) ->
      run = ([LibrosaLpc audio_data 12; Stdout warn_polynomial], Ok [])).
Proof.
  cbv zeta. rewrite compute_lsf_cases. cbv zeta.
  rewrite <- polynomial_guard.
  destruct (degenerate_model _).
  { simpl_run. split; [split; [reflexivity|]|reflexivity].
    intros _. right. now left. }
  assert (Hno : forall tr : list (event spec_float) * result (list spec_float),
            (tr = ([LibrosaLpc audio_data 12;
                    NpRoots (polynomial (librosa_lpc audio_data 12));
                    Stdout warn_roots], Ok [])
             \/ fst tr = [LibrosaLpc audio_data 12;
                          NpRoots (polynomial (librosa_lpc audio_data 12))]) ->
            ~ In (Stdout warn_polynomial) (trace tr)).
  { intros tr [-> |E]; unfold trace; [|rewrite E]; cbn [fst];
      intros H; repeat (destruct H as [H|H]; [discriminate H|]); exact H. }
  destruct (degenerate_roots _); [|destruct (no_stable_roots _)];
    (split; [split; [intros H; exfalso; revert H; apply Hno; auto
                    |discriminate]
            |intros H; exfalso; revert H; apply Hno; auto]).
Qed.
End ModelGuard.

(** ** The pitch of a frame *)

Section Argmax.
Context {F : Type} {D : Dtype F} {O : OrderLaws D}.

Lemma not_le_less (x mp : F) :
  isnan x = false -> isnan mp = false ->
  less_equal x mp = false -> less mp x = true.
Proof.
  intros Hx Hmp E. rewrite ltb_leb, E.
  destruct (leb_total mp x Hmp Hx) as [H|H]; [now rewrite H|congruence].
Qed.

Lemma le_less_trans (y mp x : F) :
  less_equal y mp = true -> less mp x = true -> less y x = true.
Proof.
  intros Hy Hlt. rewrite ltb_leb in Hlt. apply andb_true_iff in Hlt.
  destruct Hlt as [Hle Hn]. rewrite ltb_leb.
  rewrite (leb_trans _ _ _ Hy Hle). cbn [andb].
  destruct (less_equal x y) eqn:E; [|reflexivity].
  rewrite (leb_trans _ _ _ E Hy) in Hn. discriminate.
Qed.

(** The scan of [np.argmax] over a column without NaN: [pre] is what has
    been read, [mp] its largest entry and [best] the first index where it
    occurs. *)
Lemma argmax_from_spec (d : F) (l pre : list F) (mp : F) (best : nat) :
  Numpy.numbers (pre ++ l) ->
  best < length pre -> nth best pre d = mp ->
  (forall y, In y pre -> less_equal y mp = true) ->
  (forall k, k < best -> less (nth k pre d) mp = true) ->
  let r := Numpy.argmax_from mp best (length pre) l in
  r < length (pre ++ l)
  /\ (forall y, In y (pre ++ l) -> less_equal y (nth r (pre ++ l) d) = true)
  /\ (forall k, k < r -> less (nth k (pre ++ l) d) (nth r (pre ++ l) d) = true).
Proof.
  revert pre mp best. induction l as [|x xs IH];
    intros pre mp best Hnum Hbest Hmp Hle Hfirst; cbn [Numpy.argmax_from].
  - rewrite app_nil_r. rewrite Hmp. auto.
  - assert (Hx : isnan x = false).
    { unfold Numpy.numbers in Hnum. rewrite Forall_forall in Hnum.
      apply Hnum. apply in_or_app. right. now left. }
    assert (Hmpn : isnan mp = false).
    { unfold Numpy.numbers in Hnum. rewrite Forall_forall in Hnum.
      apply Hnum. apply in_or_app. left. rewrite <- Hmp. now apply nth_In. }
    assert (Eapp : pre ++ x :: xs = (pre ++ [x]) ++ xs)
      by now rewrite <- app_assoc.
    assert (Elen : S (length pre) = length (pre ++ [x]))
      by (rewrite length_app; simpl; lia).
    rewrite Eapp, Elen. rewrite Eapp in Hnum.
    destruct (less_equal x mp) eqn:E.
    + apply IH; auto.
      * rewrite length_app. simpl. lia.
      * now rewrite app_nth1.
      * intros y Hy. apply in_app_or in Hy.
        destruct Hy as [Hy|[<-|[]]]; auto.
      * intros k Hk. rewrite app_nth1 by lia. auto.
    + rewrite Hx. pose proof (not_le_less _ _ Hx Hmpn E) as Hlt.
      apply IH; auto.
      * rewrite length_app. simpl. lia.
      * rewrite app_nth2 by lia. now rewrite Nat.sub_diag.
      * intros y Hy. apply in_app_or in Hy. destruct Hy as [Hy|[<-|[]]].
        -- pose proof (le_less_trans _ _ _ (Hle y Hy) Hlt) as H.
           rewrite ltb_leb in H. apply andb_true_iff in H. tauto.
        -- now apply leb_refl.
      * intros k Hk. rewrite app_nth1 by lia.
        apply le_less_trans with (mp := mp); auto.
        apply Hle. now apply nth_In.
Qed.

Lemma argmax_nonempty_spec (d x : F) (xs : list F) :
  Numpy.numbers (x :: xs) ->
  let r := Numpy.argmax_nonempty x xs in
  r < length (x :: xs)
  /\ (forall y, In y (x :: xs) -> less_equal y (nth r (x :: xs) d) = true)
  /\ (forall k, k < r -> less (nth k (x :: xs) d) (nth r (x :: xs) d) = true).
Proof.
  intros Hnum. unfold Numpy.argmax_nonempty.
  assert (Hx : isnan x = false) by now inversion Hnum.
  rewrite Hx.
  apply (argmax_from_spec d xs [x] (mp := x) (best := 0)); auto.
  - intros y [<-|[]]. now apply leb_refl.
  - intros k Hk. lia.
Qed.
End Argmax.

Section Pitch2.
Context {F : Type} {D : Dtype F} {O : OrderLaws D}.
Import PreProcess1.

Lemma combine_map_self {A B} (g : A -> B) (l : list A) :
  combine (map g l) l = map (fun x => (g x, x)) l.
Proof.
  induction l as [|x xs IH]; [reflexivity|]. cbn [map combine]. now rewrite IH.
Qed.

Lemma column_nth (a : nat -> nat -> F) (j n i : nat) (d : F) :
  i < S n ->
  nth i (a 0 j :: map (fun i => a i j) (seq 1 n)) d = a i j.
Proof.
  intros Hi. change (a 0 j :: map (fun i => a i j) (seq 1 n))
    with (map (fun i => a i j) (seq 0 (S n))).
  rewrite (nth_indep _ d (a 0 j)) by (rewrite length_map, length_seq; lia).
  rewrite (map_nth (fun i => a i j)), seq_nth by lia. reflexivity.
Qed.

(** X18: Lines 23 and 24, on magnitudes without NaN: [np.argmax] returns one
    bin per frame, each within the array, so the indexing of line 24
    cannot go out of bounds; the bin is the first of largest magnitude in
    its frame, and the fundamental frequency of the frame is the pitch
    stored at that bin. *)
Theorem pitch_is_strongest_bin (bins frames : nat)
  (pitches magnitudes : nat -> nat -> F) (pitch_indices : list nat) :
  (forall i j, i < bins -> j < frames -> isnan (magnitudes i j) = false) ->
  argmax_axis0 bins frames magnitudes = Ok pitch_indices ->
  length pitch_indices = frames
  /\ take_per_frame pitches frames pitch_indices
     = map (fun j => pitches (nth j pitch_indices 0) j) (seq 0 frames)
  /\ forall j, j < frames ->
       let b := nth j pitch_indices 0 in
       b < bins
       /\ (forall i, i < bins ->
             less_equal (magnitudes i j) (magnitudes b j) = true)
       /\ (forall i, i < b -> less (magnitudes i j) (magnitudes b j) = true).
Proof.
  intros Hnum. unfold argmax_axis0.
  destruct bins as [|n]; [discriminate|]. intros E. injection E as <-.
  set (column := fun j => map (fun i => magnitudes i j) (seq 1 n)).
  set (g := fun j => Numpy.argmax_nonempty (magnitudes 0 j) (column j)).
  change (fun j => Numpy.argmax_nonempty (magnitudes 0 j)
                     (map (fun i => magnitudes i j) (seq 1 n))) with g.
  assert (Hnth : forall j, j < frames -> nth j (map g (seq 0 frames)) 0 = g j).
  { intros j Hj. rewrite (nth_indep _ 0 (g 0))
      by (rewrite length_map, length_seq; lia).
    now rewrite (map_nth g), seq_nth. }
  split; [now rewrite length_map, length_seq|]. split.
  - unfold take_per_frame. rewrite combine_map_self, map_map. cbn [fst snd].
    apply map_ext_in. intros j Hj. apply in_seq in Hj.
    now rewrite Hnth by lia.
  - intros j Hj. cbv zeta. rewrite (Hnth j Hj). unfold g.
    assert (Hcol : Numpy.numbers (magnitudes 0 j :: column j)).
    { apply Forall_forall. intros y Hy.
      change (magnitudes 0 j :: column j)
        with (map (fun i => magnitudes i j) (seq 0 (S n))) in Hy.
      apply in_map_iff in Hy. destruct Hy as [i [<- Hi]].
      apply in_seq in Hi. apply Hnum; lia. }
    destruct (argmax_nonempty_spec (magnitudes 0 j) Hcol) as [Hr [Hmax Hfst]].
    set (r := Numpy.argmax_nonempty (magnitudes 0 j) (column j)) in *.
    assert (Hrn : r < S n).
    { cbn [length] in Hr. unfold column in Hr.
      now rewrite length_map, length_seq in Hr. }
    assert (Er : nth r (magnitudes 0 j :: column j) (magnitudes 0 j)
                 = magnitudes r j) by now apply column_nth.
    rewrite Er in Hmax, Hfst.
    split; [exact Hrn|]. split.
    + intros i Hi. apply Hmax.
      change (magnitudes 0 j :: column j)
        with (map (fun i => magnitudes i j) (seq 0 (S n))).
      apply in_map_iff. exists i. split; [reflexivity|]. apply in_seq. lia.
    + intros i Hi. specialize (Hfst i Hi). unfold column in Hfst.
      rewrite column_nth in Hfst by lia. exact Hfst.
Qed.
End Pitch2.

(** ** The properties above on recorded clips *)

Section ClipsRun.
Import IEEE Run Clips PreProcess2 Observe Expected.
#[local] Existing Instance binary64.

Lemma empty_clip_raises_witness :
  process_audio (L := Clips.lib) "clips/empty.wav" 256 512
  = ([LibrosaLoad "clips/empty.wav"],
     Raise (IndexError "index 0 is out of bounds for axis 0 with size 0"))
  /\ (endswith "empty.wav" ".wav" = true ->
      turn_file (L := Clips.lib) "clips" "out" "empty.wav"
      = ([LibrosaLoad "clips/empty.wav"],
         Raise (IndexError "index 0 is out of bounds for axis 0 with size 0"))).
Proof.
  apply (empty_clip_raises (L := Clips.lib) "clips" "out" "empty.wav"
           (sample_rate := 16000) 256 512).
  reflexivity.
Defined.

Lemma pre_emphasis_keeps_nonfinite_witness :
  Forall2 (fun x v => isfinite x = false -> isfinite v = false)
    nan_clip [f64 1 0; S754_nan; S754_nan]
  /\ (Exists (fun v => isfinite v = false) nan_clip ->
      existsb isnan [f64 1 0; S754_nan; S754_nan]
      || existsb isinf [f64 1 0; S754_nan; S754_nan] = true).
Proof.
  apply (pre_emphasis_keeps_nonfinite 53 1024 nan_clip half).
  reflexivity.
Defined.

(** [turn('clips', 'out')]: two clips are saved, the loud one is passed
    over. *)
Lemma turn_saved_images_witness :
  outcome (turn (L := Clips.lib) "clips" "out") = Ok tt
  /\ savefig_paths (trace (turn (L := Clips.lib) "clips" "out"))
     = ["out/a.jpg"; "out/c.jpg"].
Proof.
  assert (H : outcome (turn (L := Clips.lib) "clips" "out") = Ok tt)
    by (vm_compute; reflexivity).
  split; [exact H|].
  rewrite (turn_saved_images (L := Clips.lib) "clips" "out" H).
  vm_compute. reflexivity.
Defined.

Lemma process_audio_feature_shapes_witness :
  exists (lsf : list spec_float) (mfccs lpc cqcc : matrix spec_float),
    outcome (process_audio (L := Run.lib) "wav/a.wav" 256 512)
    = Ok (Some (lsf, mfccs, lpc, cqcc))
    /\ 1 <= length lsf <= 13
    /\ length lpc = 13
    /\ Forall (fun row => length row = 1) lpc
    /\ hd_error lpc = Some [one].
Proof.
  do 4 eexists. split; [vm_compute; reflexivity|].
  refine (process_audio_feature_shapes (L := Run.lib) "wav/a.wav" 256 512
            run_lpc_contract run_roots_contract _).
  vm_compute. reflexivity.
Defined.

Lemma compute_cqcc_nan_spreads_witness :
  exists cqcc : matrix spec_float,
    outcome (compute_cqcc (L := lib_nan) audio_a 16000 6 6 2048) = Ok cqcc
    /\ map (@length spec_float) cqcc = [2; 2]
    /\ Forall (fun v => isnan v = true) (concat cqcc).
Proof.
  apply (compute_cqcc_nan_spreads 53 1024 (L := lib_nan) audio_a 16000 6 6 2048).
  right. left. reflexivity.
Defined.

Lemma compute_cqcc_constant_is_nan_witness :
  exists cqcc : matrix spec_float,
    outcome (compute_cqcc (L := lib_constant) audio_a 16000 6 6 2048) = Ok cqcc
    /\ map (@length spec_float) cqcc = [2; 2]
    /\ Forall (fun v => isnan v = true) (concat cqcc).
Proof.
  apply (compute_cqcc_constant_is_nan (prec := 53) (emax := 1024)
           (L := lib_constant) eq_refl audio_a 16000 6 6 2048).
  - discriminate.
  - unfold all_valid. vm_compute. repeat constructor.
  - unfold all_finite. vm_compute. repeat constructor.
  - intros x y Hx Hy. vm_compute in Hx, Hy.
    repeat (destruct Hx as [<-|Hx]); try contradiction;
      repeat (destruct Hy as [<-|Hy]); try contradiction; reflexivity.
Defined.

Lemma lpc_warning_iff_witness :
  (In (Stdout warn_polynomial)
      (trace (compute_lsf (L := Run.lib) audio_a 16000 10))
   <-> Exists (fun v => isfinite v = false) (librosa_lpc (Lib := Run.lib) audio_a 12))
  /\ (In (Stdout warn_polynomial)
         (trace (compute_lsf (L := Run.lib) audio_a 16000 10)) ->
      compute_lsf (L := Run.lib) audio_a 16000 10
      = ([LibrosaLpc audio_a 12; Stdout warn_polynomial], Ok [])).
Proof.
  exact (lpc_warning_iff (prec := 53) (emax := 1024) eq_refl eq_refl
           (L := Run.lib) audio_a 16000 10).
Defined.

Lemma pitch_is_strongest_bin_witness :
  let pt := librosa_piptrack (Lib := Run.lib) audio_a 16000 in
  length [0; 0; 1; 2] = 4
  /\ PreProcess1.take_per_frame (pt_pitches pt) 4 [0; 0; 1; 2]
     = map (fun j => pt_pitches pt (nth j [0; 0; 1; 2] 0) j) (seq 0 4)
  /\ forall j, j < 4 ->
       let b := nth j [0; 0; 1; 2] 0 in
       b < 3
       /\ (forall i, i < 3 ->
             less_equal (pt_magnitudes pt i j) (pt_magnitudes pt b j) = true)
       /\ (forall i, i < b ->
             less (pt_magnitudes pt i j) (pt_magnitudes pt b j) = true).
Proof.
  intros pt.
  apply (pitch_is_strongest_bin (O := IEEELaws.ieee_order 53 1024)
           (bins := 3) (frames := 4) (pt_pitches pt) (pt_magnitudes pt)).
  - intros i j Hi Hj.
    destruct i as [|[|[|i]]]; [| | |lia];
      destruct j as [|[|[|[|j]]]]; try lia; reflexivity.
  - reflexivity.
Defined.
End ClipsRun.

Section ClipsRun32.
Import IEEE Run Clips PreProcess2.
#[local] Existing Instance binary32.

(** A float32 clip of finite samples near the largest float32. *)
Lemma overflowing_clip_is_skipped_witness :
  forallb is_finite loud_clip32 = true
  /\ process_audio (L := Clips.lib32) "clips/loud.wav" 256 512
     = ([LibrosaLoad "clips/loud.wav"; Stdout (warn_audio "clips/loud.wav")],
        Ok None)
  /\ (endswith "loud.wav" ".wav" = true ->
      turn_file (L := Clips.lib32) "clips" "out" "loud.wav"
      = ([LibrosaLoad "clips/loud.wav"; Stdout (warn_audio "clips/loud.wav");
          Stdout "Skipping loud.wav due to errors in processing."],
         Ok tt)).
Proof.
  split; [reflexivity|].
  apply (overflowing_clip_is_skipped (L := Clips.lib32)
           "clips" "out" "loud.wav"
           [] (concat (repeat [lit32 (-3) 126; lit32 3 126] 31))
           (lit32 (-3) 126) (lit32 3 126) (sample_rate := 16000) 256 512).
  - reflexivity.
  - reflexivity.
Defined.
End ClipsRun32.

Section Reported.
Context {F : Type} {D : Dtype F} {L : Lib F}.
Import PreProcess2.

(** X19: A clip that [process_audio] gives up on is reported: whenever it
    returns [None], the last thing it did was to print a warning that
    names the file.  Before that it loaded the clip and, for the second
    warning, ran [compute_lsf], which returned an empty array; the MFCC
    and the constant-Q transform were not reached. *)
Theorem process_audio_none_is_reported (file_path : string)
  (hop_length win_length : nat) :
  let run := process_audio file_path hop_length win_length in
  outcome run = Ok None ->
  trace run = [LibrosaLoad file_path; Stdout (warn_audio file_path)]
  \/ exists (audio_data : list F) (sample_rate : Z) (pre : list F),
       librosa_load file_path = Ok (audio_data, sample_rate)
       /\ pre_emphasis audio_data default_coeff = Ok pre
       /\ outcome (compute_lsf pre sample_rate default_order) = Ok []
       /\ trace run
          = LibrosaLoad file_path
            :: trace (compute_lsf pre sample_rate default_order)
            ++ [Stdout (warn_lsf file_path)].
Proof.
  cbv zeta. rewrite process_audio_cases.
  destruct (librosa_load file_path) as [[audio_data sample_rate]|e];
    [|discriminate].
  destruct (pre_emphasis audio_data default_coeff) as [pre|e] eqn:Epre;
    [|discriminate].
  destruct (existsb isnan pre || existsb isinf pre); [now left|].
  cbv zeta.
  destruct (outcome (compute_lsf pre sample_rate default_order))
    as [lsf|e] eqn:Elsf; [|discriminate].
  destruct (length lsf =? 0)%nat eqn:Elen.
  - intros _. right. exists audio_data, sample_rate, pre.
    apply Nat.eqb_eq, length_zero_iff_nil in Elen. subst lsf.
    repeat split; auto.
  - destruct (normalize _); discriminate.
Qed.
End Reported.

Section ReportedRun.
Import IEEE Run Clips PreProcess2.
#[local] Existing Instance binary64.

Lemma process_audio_none_is_reported_witness :
  trace (process_audio (L := Clips.lib) "clips/loud.wav" 256 512)
  = [LibrosaLoad "clips/loud.wav"; Stdout (warn_audio "clips/loud.wav")]
  \/ exists (audio_data : list spec_float) (sample_rate : Z)
            (pre : list spec_float),
       librosa_load (Lib := Clips.lib) "clips/loud.wav"
       = Ok (audio_data, sample_rate)
       /\ pre_emphasis audio_data default_coeff = Ok pre
       /\ outcome (compute_lsf (L := Clips.lib) pre sample_rate default_order)
          = Ok []
       /\ trace (process_audio (L := Clips.lib) "clips/loud.wav" 256 512)
          = LibrosaLoad "clips/loud.wav"
            :: trace (compute_lsf (L := Clips.lib) pre sample_rate
                        default_order)
            ++ [Stdout (warn_lsf "clips/loud.wav")].
Proof.
  apply (process_audio_none_is_reported (L := Clips.lib) "clips/loud.wav"
           256 512).
  vm_compute. reflexivity.
Defined.
End ReportedRun.
